(** * CasADi [Sqpmethod]: a shallow embedding of [Sqpmethod::solve]

    The SQP driver of [sqpmethod.cpp] is embedded as a fuel-indexed state
    machine over IEEE-754 binary64 values.  C++ [double] is Rocq's
    [spec_float] at precision 53 and exponent bound 1024, so [NaN], the
    infinities and signed zeros behave as they do in the program;
    [casadi_int] is [Z] (the counters stay far from its 64-bit range).
    The injected callables ([nlp_jac_fg],
    [nlp_hess_l], [nlp_fg], the QP subsolver and the user callback) are
    section variables; the [casadi_*] runtime primitives, which live
    outside [sqpmethod.cpp], follow the written specification. *)

From Stdlib Require Import ZArith Lia Bool.
From Stdlib Require Import Floats.SpecFloat.
From stdpp Require Import base list strings gmap.

Local Open Scope Z_scope.

(** ** Binary64 arithmetic *)

Module Dbl.

Definition double : Type := spec_float.

Definition prec : Z := 53.
Definition emax : Z := 1024.

Definition add : double -> double -> double := SFadd prec emax.
Definition sub : double -> double -> double := SFsub prec emax.
Definition mul : double -> double -> double := SFmul prec emax.
Definition div : double -> double -> double := SFdiv prec emax.
Definition opp : double -> double := SFopp.
Definition abs : double -> double := SFabs.

(** C's [<], [<=] on doubles: false as soon as one side is NaN. *)
Definition ltb : double -> double -> bool := SFltb.
Definition leb : double -> double -> bool := SFleb.

Definition is_nan (x : double) : bool :=
  match x with S754_nan => true | _ => false end.

(** An integer constant converted to [double]. *)
Definition of_Z (n : Z) : double := binary_normalize prec emax n 0 false.

(** The decimal literal [num/den], correctly rounded. *)
Definition lit (num den : Z) : double := div (of_Z num) (of_Z den).

Definition zero : double := S754_zero false.
Definition one : double := Eval vm_compute in of_Z 1.

(** [std::fmax] / [std::fmin]: a NaN argument is dropped in favour of the
    other one. *)
Definition fmax (x y : double) : double :=
  if is_nan x then y else if is_nan y then x else if ltb x y then y else x.

Definition fmin (x y : double) : double :=
  if is_nan x then y else if is_nan y then x else if ltb y x then y else x.

End Dbl.

Import Dbl.

Arguments add : simpl never.
Arguments sub : simpl never.
Arguments mul : simpl never.
Arguments div : simpl never.
Arguments of_Z : simpl never.
Arguments lit : simpl never.
Arguments fmax : simpl never.
Arguments fmin : simpl never.

Declare Scope dbl_scope.
Delimit Scope dbl_scope with dbl.
Bind Scope dbl_scope with double.
Infix "+" := add : dbl_scope.
Infix "-" := sub : dbl_scope.
Infix "*" := mul : dbl_scope.
Infix "/" := div : dbl_scope.
Notation "- x" := (opp x) : dbl_scope.
Infix "<?" := ltb : dbl_scope.
Infix "<=?" := leb : dbl_scope.

Abbreviation vec := (list double).
Abbreviation mat := (list (list double)).

(** ** The runtime primitives used by the driver *)

Module Kernel.

(** Modelled from the spec: [casadi_fill] (runtime, not in
    [sqpmethod.cpp]); "fill(v, n, a): v[i] := a". *)
Definition casadi_fill (x : vec) (n : nat) (alpha : double) : vec :=
  replicate n alpha ++ drop n x.

(** Modelled from the spec: [casadi_copy]; "copy(src, n, dst):
    elementwise copy". *)
Definition casadi_copy (x : vec) (n : nat) (y : vec) : vec :=
  take n x ++ drop n y.

(** Modelled from the spec: [casadi_axpy]; "axpy(n, a, x, y): y += a*x". *)
Definition casadi_axpy (n : nat) (alpha : double) (x y : vec) : vec :=
  zip_with (fun xi yi => (yi + alpha * xi)%dbl) (take n x) (take n y)
    ++ drop n y.

(** Modelled from the spec: [casadi_scal]; "scal(n, a, x): x *= a". *)
Definition casadi_scal (n : nat) (alpha : double) (x : vec) : vec :=
  ((fun xi : double => (xi * alpha)%dbl) <$> take n x) ++ drop n x.

(** Modelled from the spec: [casadi_dot]; "dot(n, x, y) -> scalar". *)
Definition casadi_dot (n : nat) (x y : vec) : double :=
  foldl add zero (zip_with mul (take n x) (take n y)).

(** Modelled from the spec: [casadi_norm_inf]; "norm_inf(n, x) -> max
    |x_i|". *)
Definition casadi_norm_inf (n : nat) (x : vec) : double :=
  foldl (fun r xi => fmax r (abs xi)) zero (take n x).

(** Modelled from the spec: [casadi_max_viol]; "max_viol(n, z, lb, ub) ->
    max_i max(lb_i - z_i, z_i - ub_i, 0)". *)
Definition casadi_max_viol (n : nat) (z lb ub : vec) : double :=
  foldl fmax zero
    (zip_with (fun zi b => fmax (fst b - zi)%dbl (fmax (zi - snd b)%dbl zero))
       (take n z) (zip (take n lb) (take n ub))).

(** Modelled from the spec: [casadi_vfmax]; "vfmax(v, n, acc) ->
    max(acc, max_i v_i)".  The length is a [casadi_int]; a non-positive
    one reads nothing. *)
Definition casadi_vfmax (x : vec) (n : Z) (r : double) : double :=
  foldl fmax r (take (Z.to_nat n) x).

(** Matrices are kept dense, row by row (the spec allows dense fallbacks
    for the sparse loops). *)

(** Modelled from the spec: [casadi_mv]; "sparse_mv(A, sp, x, y,
    transpose): y += A^T x (or A x)". *)
Definition casadi_mv (A : mat) (x y : vec) (tr : bool) : vec :=
  if tr then
    foldl (fun acc rx => casadi_axpy (length acc) (snd rx) (fst rx) acc)
      y (zip A x)
  else
    zip_with (fun row yi => (yi + casadi_dot (length row) row x)%dbl) A y
      ++ drop (length A) y.

(** Modelled from the spec: [casadi_bilin]; "bilin(B, sp, x, y) -> x^T B y". *)
Definition casadi_bilin (B : mat) (x y : vec) : double :=
  foldl add zero
    (zip_with (fun row xi => (xi * casadi_dot (length row) row y)%dbl) B x).

(** Row [i]'s Gershgorin disc: centre minus radius. *)
Definition gershgorin_row (i : nat) (row : vec) : double :=
  (default zero (row !! i)
   - foldl add zero (imap (fun j b => if decide (j = i) then zero else abs b) row))%dbl.

(** Modelled from the spec: [casadi_lb_eig]; "lb_eig(sp, B) -> scalar:
    Gershgorin lower bound, i.e. min_i (B_ii - sum_{j<>i} |B_ij|)". *)
Definition casadi_lb_eig (B : mat) : double :=
  match imap gershgorin_row B with
  | [] => zero
  | r :: rs => foldl fmin r rs
  end.

(** Modelled from the spec: [casadi_regularize]; "regularize(sp, B, r):
    B_ii += r for each diagonal entry". *)
Definition casadi_regularize (B : mat) (r : double) : mat :=
  imap (fun i row => imap (fun j b => if decide (j = i) then (b + r)%dbl else b) row) B.

(** Modelled from the spec: [casadi_bfgs_reset]; "bfgs_reset(sp, B):
    write the identity over B with pattern sp". *)
Definition casadi_bfgs_reset (B : mat) : mat :=
  imap (fun i row => imap (fun j _ => if decide (j = i) then one else zero) row) B.

(** The whole nonzero vector of a matrix set to [alpha]
    ([casadi_fill(Bk, Hsp_.nnz(), alpha)]). *)
Definition mat_fill (B : mat) (alpha : double) : mat :=
  (fun row : vec => (fun _ : double => alpha) <$> row) <$> B.

(** [B + c * u u^T]. *)
Definition rank1 (B : mat) (c : double) (u : vec) : mat :=
  zip_with (fun row ui => zip_with (fun b uj => (b + c * (ui * uj))%dbl) row u) B u.

(** Modelled from the spec: [casadi_bfgs]; "bfgs(sp, B, s, y_new, y_old,
    work): damped BFGS update with step s = dx, curvature pair derived
    from y_new - y_old, using Powell damping to preserve
    positive-definiteness".  The scratch buffer [work] is local here.
    With [y = y_new - y_old] and [q = B s]:
    [omega = 1] if [s.y >= 0.2 s.q], else [0.8 s.q / (s.q - s.y)];
    [r = omega y + (1 - omega) q]; [B += r r^T / s.r - q q^T / s.q]. *)
Definition casadi_bfgs (B : mat) (dx glag glag_old : vec) : mat :=
  let nx := length B in
  let yk := casadi_axpy nx (- one)%dbl glag_old (casadi_copy glag nx glag) in
  let qk := casadi_mv B dx (replicate nx zero) false in
  let dxBdx := casadi_dot nx dx qk in
  let omega :=
    if (lit 2 10 * dxBdx <=? casadi_dot nx dx yk)%dbl then one
    else (lit 8 10 * dxBdx / (dxBdx - casadi_dot nx dx yk))%dbl in
  let yk := casadi_axpy nx (one - omega)%dbl qk (casadi_scal nx omega yk) in
  let theta := (one / casadi_dot nx dx yk)%dbl in
  let phi := (one / casadi_dot nx qk dx)%dbl in
  rank1 (rank1 B theta yk) (- phi)%dbl qk.

End Kernel.

Import Kernel.

Arguments casadi_fill : simpl never.
Arguments casadi_copy : simpl never.
Arguments casadi_axpy : simpl never.
Arguments casadi_scal : simpl never.
Arguments casadi_dot : simpl never.
Arguments casadi_norm_inf : simpl never.
Arguments casadi_max_viol : simpl never.
Arguments casadi_vfmax : simpl never.
Arguments casadi_mv : simpl never.
Arguments casadi_lb_eig : simpl never.
Arguments casadi_regularize : simpl never.
Arguments casadi_bfgs_reset : simpl never.
Arguments casadi_bfgs : simpl never.

(** ** Solver memory *)

(** Type declaration not in [sqpmethod.cpp]: the driver only ever stores
    [SOLVER_RET_LIMITED]; every other value of the enumeration is kept by
    its number. *)
Inductive UnifiedReturnStatus :=
| SOLVER_RET_LIMITED
| SOLVER_RET_OTHER (code : Z).

(** [d_nlp]: the iterate owned by the base class. *)
Record NlpData := {
  z : vec;        (* x (nx entries) followed by g(x) (ng entries) *)
  p : vec;
  lam : vec;      (* nx + ng multipliers *)
  lbz : vec;
  ubz : vec;
  f : double
}.

(** [d]: the SQP work vectors. *)
Record SqpData := {
  dx : vec;
  dlam : vec;
  gf : vec;
  Jk : mat;
  Bk : mat;
  gLag : vec;
  gLag_old : vec;
  z_cand : vec;
  merit_mem : vec;
  lbdz : vec;
  ubdz : vec
}.

(** [SqpmethodMemory]. *)
Record SqpmethodMemory := {
  d_nlp : NlpData;
  d : SqpData;
  iter_count : Z;
  merit_ind : Z;
  sigma : double;
  reg : double;
  return_status : string;
  success : bool;
  unified_return_status : UnifiedReturnStatus
}.

(** The memory together with the locals of [solve] that outlive one
    iteration. *)
Record State := {
  mem : SqpmethodMemory;
  ls_iter : Z;
  ls_success : bool;
  t : double
}.

(** The options read by [solve] (the three print flags only drive output
    and are left out). *)
Record Sqpmethod := {
  nx_ : nat;
  ng_ : nat;
  min_iter_ : Z;
  max_iter_ : Z;
  max_iter_ls_ : Z;
  c1_ : double;
  beta_ : double;
  merit_memsize_ : Z;
  lbfgs_memory_ : Z;
  tol_pr_ : double;
  tol_du_ : double;
  regularize_ : bool;
  exact_hessian_ : bool;
  min_step_size_ : double
}.

(** Field updates. *)
Definition set_z (v : vec) (n : NlpData) : NlpData :=
  {| z := v; p := p n; lam := lam n; lbz := lbz n; ubz := ubz n; f := f n |}.
Definition set_lam (v : vec) (n : NlpData) : NlpData :=
  {| z := z n; p := p n; lam := v; lbz := lbz n; ubz := ubz n; f := f n |}.
Definition set_f (v : double) (n : NlpData) : NlpData :=
  {| z := z n; p := p n; lam := lam n; lbz := lbz n; ubz := ubz n; f := v |}.

Definition set_dx (v : vec) (w : SqpData) : SqpData :=
  {| dx := v; dlam := dlam w; gf := gf w; Jk := Jk w; Bk := Bk w;
     gLag := gLag w; gLag_old := gLag_old w; z_cand := z_cand w;
     merit_mem := merit_mem w; lbdz := lbdz w; ubdz := ubdz w |}.
Definition set_dlam (v : vec) (w : SqpData) : SqpData :=
  {| dx := dx w; dlam := v; gf := gf w; Jk := Jk w; Bk := Bk w;
     gLag := gLag w; gLag_old := gLag_old w; z_cand := z_cand w;
     merit_mem := merit_mem w; lbdz := lbdz w; ubdz := ubdz w |}.
Definition set_gf (v : vec) (w : SqpData) : SqpData :=
  {| dx := dx w; dlam := dlam w; gf := v; Jk := Jk w; Bk := Bk w;
     gLag := gLag w; gLag_old := gLag_old w; z_cand := z_cand w;
     merit_mem := merit_mem w; lbdz := lbdz w; ubdz := ubdz w |}.
Definition set_Jk (v : mat) (w : SqpData) : SqpData :=
  {| dx := dx w; dlam := dlam w; gf := gf w; Jk := v; Bk := Bk w;
     gLag := gLag w; gLag_old := gLag_old w; z_cand := z_cand w;
     merit_mem := merit_mem w; lbdz := lbdz w; ubdz := ubdz w |}.
Definition set_Bk (v : mat) (w : SqpData) : SqpData :=
  {| dx := dx w; dlam := dlam w; gf := gf w; Jk := Jk w; Bk := v;
     gLag := gLag w; gLag_old := gLag_old w; z_cand := z_cand w;
     merit_mem := merit_mem w; lbdz := lbdz w; ubdz := ubdz w |}.
Definition set_gLag (v : vec) (w : SqpData) : SqpData :=
  {| dx := dx w; dlam := dlam w; gf := gf w; Jk := Jk w; Bk := Bk w;
     gLag := v; gLag_old := gLag_old w; z_cand := z_cand w;
     merit_mem := merit_mem w; lbdz := lbdz w; ubdz := ubdz w |}.
Definition set_gLag_old (v : vec) (w : SqpData) : SqpData :=
  {| dx := dx w; dlam := dlam w; gf := gf w; Jk := Jk w; Bk := Bk w;
     gLag := gLag w; gLag_old := v; z_cand := z_cand w;
     merit_mem := merit_mem w; lbdz := lbdz w; ubdz := ubdz w |}.
Definition set_z_cand (v : vec) (w : SqpData) : SqpData :=
  {| dx := dx w; dlam := dlam w; gf := gf w; Jk := Jk w; Bk := Bk w;
     gLag := gLag w; gLag_old := gLag_old w; z_cand := v;
     merit_mem := merit_mem w; lbdz := lbdz w; ubdz := ubdz w |}.
Definition set_merit_mem (v : vec) (w : SqpData) : SqpData :=
  {| dx := dx w; dlam := dlam w; gf := gf w; Jk := Jk w; Bk := Bk w;
     gLag := gLag w; gLag_old := gLag_old w; z_cand := z_cand w;
     merit_mem := v; lbdz := lbdz w; ubdz := ubdz w |}.
Definition set_lbdz (v : vec) (w : SqpData) : SqpData :=
  {| dx := dx w; dlam := dlam w; gf := gf w; Jk := Jk w; Bk := Bk w;
     gLag := gLag w; gLag_old := gLag_old w; z_cand := z_cand w;
     merit_mem := merit_mem w; lbdz := v; ubdz := ubdz w |}.
Definition set_ubdz (v : vec) (w : SqpData) : SqpData :=
  {| dx := dx w; dlam := dlam w; gf := gf w; Jk := Jk w; Bk := Bk w;
     gLag := gLag w; gLag_old := gLag_old w; z_cand := z_cand w;
     merit_mem := merit_mem w; lbdz := lbdz w; ubdz := v |}.

Definition upd_nlp (g : NlpData -> NlpData) (m : SqpmethodMemory) : SqpmethodMemory :=
  {| d_nlp := g (d_nlp m); d := d m; iter_count := iter_count m;
     merit_ind := merit_ind m; sigma := sigma m; reg := reg m;
     return_status := return_status m; success := success m;
     unified_return_status := unified_return_status m |}.
Definition upd_d (g : SqpData -> SqpData) (m : SqpmethodMemory) : SqpmethodMemory :=
  {| d_nlp := d_nlp m; d := g (d m); iter_count := iter_count m;
     merit_ind := merit_ind m; sigma := sigma m; reg := reg m;
     return_status := return_status m; success := success m;
     unified_return_status := unified_return_status m |}.
Definition set_iter_count (v : Z) (m : SqpmethodMemory) : SqpmethodMemory :=
  {| d_nlp := d_nlp m; d := d m; iter_count := v;
     merit_ind := merit_ind m; sigma := sigma m; reg := reg m;
     return_status := return_status m; success := success m;
     unified_return_status := unified_return_status m |}.
Definition set_merit_ind (v : Z) (m : SqpmethodMemory) : SqpmethodMemory :=
  {| d_nlp := d_nlp m; d := d m; iter_count := iter_count m;
     merit_ind := v; sigma := sigma m; reg := reg m;
     return_status := return_status m; success := success m;
     unified_return_status := unified_return_status m |}.
Definition set_sigma (v : double) (m : SqpmethodMemory) : SqpmethodMemory :=
  {| d_nlp := d_nlp m; d := d m; iter_count := iter_count m;
     merit_ind := merit_ind m; sigma := v; reg := reg m;
     return_status := return_status m; success := success m;
     unified_return_status := unified_return_status m |}.
Definition set_reg (v : double) (m : SqpmethodMemory) : SqpmethodMemory :=
  {| d_nlp := d_nlp m; d := d m; iter_count := iter_count m;
     merit_ind := merit_ind m; sigma := sigma m; reg := v;
     return_status := return_status m; success := success m;
     unified_return_status := unified_return_status m |}.
Definition set_return_status (v : string) (m : SqpmethodMemory) : SqpmethodMemory :=
  {| d_nlp := d_nlp m; d := d m; iter_count := iter_count m;
     merit_ind := merit_ind m; sigma := sigma m; reg := reg m;
     return_status := v; success := success m;
     unified_return_status := unified_return_status m |}.
Definition set_success (v : bool) (m : SqpmethodMemory) : SqpmethodMemory :=
  {| d_nlp := d_nlp m; d := d m; iter_count := iter_count m;
     merit_ind := merit_ind m; sigma := sigma m; reg := reg m;
     return_status := return_status m; success := v;
     unified_return_status := unified_return_status m |}.
Definition set_unified_return_status (v : UnifiedReturnStatus)
    (m : SqpmethodMemory) : SqpmethodMemory :=
  {| d_nlp := d_nlp m; d := d m; iter_count := iter_count m;
     merit_ind := merit_ind m; sigma := sigma m; reg := reg m;
     return_status := return_status m; success := success m;
     unified_return_status := v |}.

Definition set_mem (v : SqpmethodMemory) (s : State) : State :=
  {| mem := v; ls_iter := ls_iter s; ls_success := ls_success s; t := t s |}.

(** ** The QP subsolver interface *)

(** The conic slots filled by [solve_QP]. *)
Record ConicIn := {
  CONIC_H : mat;
  CONIC_G : vec;
  CONIC_X0 : vec;
  CONIC_LAM_X0 : vec;
  CONIC_LAM_A0 : vec;
  CONIC_LBX : vec;
  CONIC_UBX : vec;
  CONIC_A : mat;
  CONIC_LBA : vec;
  CONIC_UBA : vec
}.

Record ConicOut := {
  CONIC_X : vec;
  CONIC_LAM_X : vec;
  CONIC_LAM_A : vec
}.

(** ** Control flow of the two loops *)

(** One pass of the main loop: [break], fall through to the next pass, or
    [return code].  What a failing callable may already have written to its
    result buffers is not modelled: [Return] carries the state from before
    the call. *)
Inductive Flow :=
| Break (s : State)
| Continue (s : State)
| Return (code : Z) (s : State).

(** One pass of the line-search loop: [break], or go round again
    ([continue] and the normal loop end alike). *)
Inductive LsFlow :=
| LsBreak (s : State)
| LsContinue (s : State).

Module Sqp.

Section Solve.

Variable self : Sqpmethod.

(** [calc_function(m, "nlp_jac_fg")]: [x, p |-> f, grad f, g, jac g];
    [None] is a non-zero return. *)
Variable nlp_jac_fg : vec -> vec -> option (double * vec * vec * mat).
(** [calc_function(m, "nlp_hess_l")]: [x, p, lam_f, lam_g |-> hess]. *)
Variable nlp_hess_l : vec -> vec -> double -> vec -> option mat.
(** [calc_function(m, "nlp_fg")]: [x, p |-> f, g]. *)
Variable nlp_fg : vec -> vec -> option (double * vec).
(** [qpsol_(arg, res, iw, w, 0)]: the returned flag and the outputs. *)
Variable qpsol : ConicIn -> Z * ConicOut.
(** [callback(m)]: true when the user asks to stop. *)
Variable callback : SqpmethodMemory -> bool.

Let nx := nx_ self.
Let ng := ng_ self.

(** [solve], "Evaluate f, g and first order derivative information". *)
Definition eval_jac_fg (m : SqpmethodMemory) : option SqpmethodMemory :=
  let n := d_nlp m in
  match nlp_jac_fg (take nx (z n)) (p n) with
  | None => None
  | Some (f', gf', g', Jk') =>
      let m := upd_nlp (set_f f') m in
      let m := upd_d (set_gf (casadi_copy gf' nx (gf (d m)))) m in
      let m := upd_nlp (set_z (take nx (z n) ++ casadi_copy g' ng (drop nx (z n)))) m in
      Some (upd_d (set_Jk Jk') m)
  end.

(** "Evaluate the gradient of the Lagrangian" into [out]: copy, transposed
    product with the constraint multipliers, then the bound multipliers. *)
Definition lagrangian_gradient (m : SqpmethodMemory) (out : vec) : vec :=
  let out := casadi_copy (gf (d m)) nx out in
  let out := casadi_mv (Jk (d m)) (drop nx (lam (d_nlp m))) out true in
  casadi_axpy nx one (lam (d_nlp m)) out.

(** "Checking convergence criteria": the three tests after the callback.
    [Some m'] is a [break] with the statuses written. *)
Definition check_convergence (m : SqpmethodMemory)
    (pr_inf du_inf dx_norminf : double) : option SqpmethodMemory :=
  if (min_iter_ self <=? iter_count m) && (pr_inf <? tol_pr_ self)%dbl
       && (du_inf <? tol_du_ self)%dbl then
    Some (set_success true (set_return_status "Solve_Succeeded" m))
  else if max_iter_ self <=? iter_count m then
    Some (set_unified_return_status SOLVER_RET_LIMITED
            (set_return_status "Maximum_Iterations_Exceeded" m))
  else if (1 <=? iter_count m) && (min_iter_ self <=? iter_count m)
            && (dx_norminf <=? min_step_size_ self)%dbl then
    Some (set_return_status "Search_Direction_Becomes_Too_Small" m)
  else None.

(** "Determing regularization parameter with Gershgorin theorem". *)
Definition regularization (m : SqpmethodMemory) : SqpmethodMemory :=
  if regularize_ self then
    let m := set_reg (fmin zero (- casadi_lb_eig (Bk (d m)))%dbl) m in
    if (zero <? reg m)%dbl
    then upd_d (set_Bk (casadi_regularize (Bk (d m)) (reg m))) m
    else m
  else m.

(** The Hessian step: exact Hessian, BFGS start, or BFGS update.  [None]
    is the failure of [nlp_hess_l].  C++ [%] truncates, hence [Z.rem]
    (a zero [lbfgs_memory] is undefined behaviour in the program). *)
Definition hessian (m : SqpmethodMemory) : option SqpmethodMemory :=
  if exact_hessian_ self then
    match nlp_hess_l (take nx (z (d_nlp m))) (p (d_nlp m)) one
            (drop nx (lam (d_nlp m))) with
    | None => None
    | Some H => Some (regularization (upd_d (set_Bk H) m))
    end
  else if iter_count m =? 0 then
    let m := upd_d (set_Bk (mat_fill (Bk (d m)) one)) m in
    Some (upd_d (set_Bk (casadi_bfgs_reset (Bk (d m)))) m)
  else
    let m :=
      if Z.rem (iter_count m) (lbfgs_memory_ self) =? 0
      then upd_d (set_Bk (casadi_bfgs_reset (Bk (d m)))) m
      else m in
    Some (upd_d (set_Bk (casadi_bfgs (Bk (d m)) (dx (d m)) (gLag (d m))
                           (gLag_old (d m)))) m).

(** "Formulate the QP" and "Initial guess". *)
Definition formulate_qp (m : SqpmethodMemory) : SqpmethodMemory :=
  let n := d_nlp m in
  let m := upd_d (set_lbdz (casadi_copy (lbz n) (nx + ng) (lbdz (d m)))) m in
  let m := upd_d (set_lbdz (casadi_axpy (nx + ng) (- one)%dbl (z n) (lbdz (d m)))) m in
  let m := upd_d (set_ubdz (casadi_copy (ubz n) (nx + ng) (ubdz (d m)))) m in
  let m := upd_d (set_ubdz (casadi_axpy (nx + ng) (- one)%dbl (z n) (ubdz (d m)))) m in
  let m := upd_d (set_dlam (casadi_copy (lam n) (nx + ng) (dlam (d m)))) m in
  upd_d (set_dx (casadi_fill (dx (d m)) nx zero)) m.

(** [Sqpmethod::solve_QP]: fills the conic slots, calls the subsolver and
    lets it write [x_opt] and [dlam]; the call is an expression statement,
    its value is dropped. *)
Definition solve_QP (H : mat) (g lbdz ubdz : vec) (A : mat)
    (x_opt dlam : vec) : vec * vec :=
  let arg := {| CONIC_H := H; CONIC_G := g; CONIC_X0 := x_opt;
                CONIC_LAM_X0 := take nx dlam; CONIC_LAM_A0 := drop nx dlam;
                CONIC_LBX := take nx lbdz; CONIC_UBX := take nx ubdz;
                CONIC_A := A;
                CONIC_LBA := drop nx lbdz; CONIC_UBA := drop nx ubdz |} in
  let res := snd (qpsol arg) in
  (casadi_copy (CONIC_X res) nx x_opt,
   casadi_copy (CONIC_LAM_X res) nx (take nx dlam)
     ++ casadi_copy (CONIC_LAM_A res) ng (drop nx dlam)).

(** The penalty parameter, the Armijo right-hand side and the merit
    memory, up to [meritmax].  Returns the memory, [meritmax] and
    [L1dir].  The store to [merit_mem[merit_ind]] is a list update, which
    leaves the list alone where the program would write out of bounds. *)
Definition merit_update (m : SqpmethodMemory)
    : SqpmethodMemory * double * double :=
  let n := d_nlp m in
  let m := set_sigma
             (fmax (sigma m) (lit 101 100 * casadi_norm_inf (nx + ng) (dlam (d m)))%dbl) m in
  let l1_infeas := casadi_max_viol (nx + ng) (z n) (lbz n) (ubz n) in
  let F_sens := casadi_dot nx (dx (d m)) (gf (d m)) in
  let L1dir := (F_sens - sigma m * l1_infeas)%dbl in
  let L1merit := (f n + sigma m * l1_infeas)%dbl in
  let m := upd_d (set_merit_mem
                    (<[Z.to_nat (merit_ind m) := L1merit]> (merit_mem (d m)))) m in
  let m := set_merit_ind (merit_ind m + 1) m in
  let m := set_merit_ind (Z.rem (merit_ind m) (merit_memsize_ self)) m in
  let meritmax :=
    casadi_vfmax (drop 1 (merit_mem (d m)))
      (Z.min (merit_memsize_ self) (iter_count m) - 1)
      (default zero (merit_mem (d m) !! 0%nat)) in
  (m, meritmax, L1dir).

(** One pass of the "Line-search loop". *)
Definition ls_body (meritmax L1dir : double) (s : State) : LsFlow :=
  let m := mem s in
  let n := d_nlp m in
  (* Increase counter *)
  let ls_iter' := ls_iter s + 1 in
  (* Candidate step *)
  let zc := casadi_copy (z n) nx (z_cand (d m)) in
  let zc := casadi_axpy nx (t s) (dx (d m)) zc in
  (* Evaluating objective and constraints *)
  match nlp_fg (take nx zc) (p n) with
  | None =>
      (* line-search failed, skip iteration *)
      LsContinue {| mem := upd_d (set_z_cand zc) m; ls_iter := ls_iter';
                    ls_success := ls_success s; t := (beta_ self * t s)%dbl |}
  | Some (fk_cand, g_cand) =>
      let zc := take nx zc ++ casadi_copy g_cand ng (drop nx zc) in
      let m := upd_d (set_z_cand zc) m in
      (* Calculating merit-function in candidate *)
      let l1_infeas := casadi_max_viol (nx + ng) zc (lbz n) (ubz n) in
      let L1merit_cand := (fk_cand + sigma m * l1_infeas)%dbl in
      if (L1merit_cand <=? meritmax + t s * c1_ self * L1dir)%dbl then
        LsBreak {| mem := m; ls_iter := ls_iter';
                   ls_success := ls_success s; t := t s |}
      else if ls_iter' =? max_iter_ls_ self then
        (* Line-search not successful, but we accept it. *)
        LsBreak {| mem := m; ls_iter := ls_iter'; ls_success := false; t := t s |}
      else
        (* Backtracking *)
        LsContinue {| mem := m; ls_iter := ls_iter';
                      ls_success := ls_success s; t := (beta_ self * t s)%dbl |}
  end.

(** The line-search [while (true)]; [None] when the fuel runs out. *)
Fixpoint ls_loop (fuel : nat) (meritmax L1dir : double) (s : State)
    : option State :=
  match fuel with
  | O => None
  | S fuel' =>
      match ls_body meritmax L1dir s with
      | LsBreak s' => Some s'
      | LsContinue s' => ls_loop fuel' meritmax L1dir s'
      end
  end.

(** "Candidate accepted, update dual variables" and the scaling of [dx]. *)
Definition accept_candidate (s : State) : State :=
  let m := mem s in
  let m := upd_nlp (set_lam (casadi_scal (nx + ng) (one - t s)%dbl (lam (d_nlp m)))) m in
  let m := upd_nlp (set_lam (casadi_axpy (nx + ng) (t s) (dlam (d m)) (lam (d_nlp m)))) m in
  let m := upd_d (set_dx (casadi_scal nx (t s) (dx (d m)))) m in
  set_mem m s.

(** "Full step": the duals when the line search is disabled. *)
Definition full_step (s : State) : State :=
  let m := mem s in
  set_mem (upd_nlp (set_lam (casadi_copy (dlam (d m)) (nx + ng) (lam (d_nlp m)))) m) s.

(** From "Stepsize" to the end of the [if (max_iter_ls_>0) ... else ...]. *)
Definition line_search (ls_fuel : nat) (m : SqpmethodMemory) : option State :=
  let s := {| mem := m; ls_iter := 0; ls_success := true; t := one |} in
  if 0 <? max_iter_ls_ self then
    let '(m, meritmax, L1dir) := merit_update m in
    match ls_loop ls_fuel meritmax L1dir (set_mem m s) with
    | None => None
    | Some s => Some (accept_candidate s)
    end
  else Some (full_step s).

(** "Take step" and, for BFGS, the Lagrangian gradient at the old [x]
    with the new multipliers. *)
Definition take_step (s : State) : State :=
  let m := mem s in
  let m := upd_nlp (set_z (casadi_axpy nx one (dx (d m)) (z (d_nlp m)))) m in
  let m :=
    if exact_hessian_ self then m
    else upd_d (set_gLag_old (lagrangian_gradient m (gLag_old (d m)))) m in
  set_mem m s.

(** The part of one pass that lies before the Hessian step: evaluation,
    diagnostics, callback and convergence tests. *)
Definition iteration_head (s : State) : Flow :=
  match eval_jac_fg (mem s) with
  | None => Return 1 s
  | Some m =>
      let n := d_nlp m in
      (* Evaluate the gradient of the Lagrangian *)
      let m := upd_d (set_gLag (lagrangian_gradient m (gLag (d m)))) m in
      (* Primal infeasability *)
      let pr_inf := casadi_max_viol (nx + ng) (z n) (lbz n) (ubz n) in
      (* inf-norm of Lagrange gradient *)
      let du_inf := casadi_norm_inf nx (gLag (d m)) in
      (* inf-norm of step *)
      let dx_norminf := casadi_norm_inf nx (dx (d m)) in
      (* Callback function *)
      if callback m then
        Break (set_mem (set_return_status "User_Requested_Stop" m) s)
      else
        match check_convergence m pr_inf du_inf dx_norminf with
        | Some m' => Break (set_mem m' s)
        | None => Continue (set_mem m s)
        end
  end.

(** The part of one pass from the Hessian step on.  [gain] only selects a
    warning that is printed. *)
Definition iteration_tail (ls_fuel : nat) (s : State) : option Flow :=
  match hessian (mem s) with
  | None => Some (Return 1 s)
  | Some m =>
      let m := formulate_qp m in
      (* Increase counter *)
      let m := set_iter_count (iter_count m + 1) m in
      (* Solve the QP *)
      let w := d m in
      let '(dx', dlam') :=
        solve_QP (Bk w) (gf w) (lbdz w) (ubdz w) (Jk w) (dx w) (dlam w) in
      let m := upd_d (set_dlam dlam') (upd_d (set_dx dx') m) in
      (* Detecting indefiniteness *)
      let gain := casadi_bilin (Bk (d m)) (dx (d m)) (dx (d m)) in
      match line_search ls_fuel m with
      | None => None
      | Some s' => Some (Continue (take_step s'))
      end
  end.

(** One pass of the "MAIN OPTIMIZATION LOOP"; [None] when the line search
    ran out of fuel. *)
Definition iteration (ls_fuel : nat) (s : State) : option Flow :=
  match iteration_head s with
  | Continue s' => iteration_tail ls_fuel s'
  | fl => Some fl
  end.

(** The main [while (true)] followed by [return 0]. *)
Fixpoint main_loop (ls_fuel fuel : nat) (s : State) : option (Z * State) :=
  match fuel with
  | O => None
  | S fuel' =>
      match iteration ls_fuel s with
      | None => None
      | Some (Break s') => Some (0, s')
      | Some (Return code s') => Some (code, s')
      | Some (Continue s') => main_loop ls_fuel fuel' s'
      end
  end.

(** The state on entry to the main loop. *)
Definition solve_init (m : SqpmethodMemory) : State :=
  (* Number of SQP iterations *)
  let m := set_iter_count 0 m in
  (* Reset *)
  let m := set_merit_ind 0 m in
  let m := set_sigma zero m in
  let m := set_reg zero m in
  let m := upd_d (set_dx (casadi_fill (dx (d m)) nx zero)) m in
  {| mem := m; ls_iter := 0; ls_success := true; t := zero |}.

(** [Sqpmethod::solve]: the return code and the memory left behind. *)
Definition solve (ls_fuel fuel : nat) (m : SqpmethodMemory)
    : option (Z * SqpmethodMemory) :=
  match main_loop ls_fuel fuel (solve_init m) with
  | None => None
  | Some (code, s) => Some (code, mem s)
  end.

(** What one run goes through: every state at the head of the main loop,
    then the state the run ends in. *)
Fixpoint trace (ls_fuel fuel : nat) (s : State) : list State :=
  s :: match fuel with
       | O => []
       | S fuel' =>
           match iteration ls_fuel s with
           | Some (Continue s') => trace ls_fuel fuel' s'
           | Some (Break s') => [s']
           | Some (Return _ s') => [s']
           | None => []
           end
       end.

(** The line-search candidate formed from step size [t s]. *)
Definition candidate (s : State) : vec :=
  casadi_axpy nx (t s) (dx (d (mem s)))
    (casadi_copy (z (d_nlp (mem s))) nx (z_cand (d (mem s)))).

(** The Armijo test of [ls_body] on an evaluated candidate. *)
Definition armijo (meritmax L1dir : double) (s : State)
    (fk_cand : double) (g_cand : vec) : bool :=
  let n := d_nlp (mem s) in
  let zc := take nx (candidate s) ++ casadi_copy g_cand ng (drop nx (candidate s)) in
  (fk_cand + sigma (mem s) * casadi_max_viol (nx + ng) zc (lbz n) (ubz n)
     <=? meritmax + t s * c1_ self * L1dir)%dbl.

(** Every [nlp_fg] evaluation made by the first [fuel] passes of the
    line-search loop started in [s] succeeds. *)
Fixpoint evaluations_succeed (fuel : nat) (meritmax L1dir : double)
    (s : State) : Prop :=
  match fuel with
  | O => True
  | S fuel' =>
      is_Some (nlp_fg (take nx (candidate s)) (p (d_nlp (mem s)))) /\
      match ls_body meritmax L1dir s with
      | LsBreak _ => True
      | LsContinue s' => evaluations_succeed fuel' meritmax L1dir s'
      end
  end.

End Solve.

End Sqp.

(** The state a pass of the main loop hands on. *)
Definition flow_state (fl : Flow) : State :=
  match fl with
  | Break s => s
  | Continue s => s
  | Return _ s => s
  end.

(** The identity on a dense pattern. *)
Definition is_identity (B : mat) : Prop :=
  forall (i j : nat) (row : vec) (b : double),
    B !! i = Some row -> row !! j = Some b ->
    b = if decide (j = i) then one else zero.

(** ** An instance: minimise the sum of squares, no constraint *)

Module Example.

Definition sq_jac_fg (x _ : vec) : option (double * vec * vec * mat) :=
  Some (casadi_dot (length x) x x, (fun xi : double => (of_Z 2 * xi)%dbl) <$> x,
        [], []).

Definition sq_hess_l (_ _ : vec) (_ : double) (_ : vec) : option mat :=
  Some [[of_Z 2]].

Definition sq_fg (x _ : vec) : option (double * vec) :=
  Some (casadi_dot (length x) x x, []).

(** [sq_fg], except that the evaluation at [x = -1] fails. *)
Definition sq_fg_fail_at_m1 (x v : vec) : option (double * vec) :=
  match x with
  | [S754_finite true 4503599627370496 (-52)] => None
  | _ => sq_fg x v
  end.

(** A QP in one variable solved in closed form: the unconstrained minimiser
    [-g/h] clipped to the bounds, with the multiplier [-(g + h x)] of an
    active bound.  The flag it returns is a parameter. *)
Definition qp1 (flag : Z) (q : ConicIn) : Z * ConicOut :=
  match CONIC_H q, CONIC_G q, CONIC_LBX q, CONIC_UBX q with
  | [[h]], [g], [lb], [ub] =>
      let x0 := (- (g / h))%dbl in
      let x := if (x0 <? lb)%dbl then lb else if (ub <? x0)%dbl then ub else x0 in
      let l := if (x0 <? lb)%dbl || (ub <? x0)%dbl
               then (- (g + h * x))%dbl else zero in
      (flag, {| CONIC_X := [x]; CONIC_LAM_X := [l]; CONIC_LAM_A := [] |})
  | _, _, _, _ =>
      (flag, {| CONIC_X := []; CONIC_LAM_X := []; CONIC_LAM_A := [] |})
  end.

Definition no_stop (_ : SqpmethodMemory) : bool := false.

Definition inf : double := S754_infinity false.

(** The default options, with the Hessian mode, [regularize],
    [lbfgs_memory] and [max_iter_ls] left open. *)
Definition opts (exact regularize : bool) (lbfgs ls : Z) : Sqpmethod :=
  {| nx_ := 1; ng_ := 0; min_iter_ := 0; max_iter_ := 50; max_iter_ls_ := ls;
     c1_ := lit 1 10000; beta_ := lit 8 10; merit_memsize_ := 4;
     lbfgs_memory_ := lbfgs; tol_pr_ := lit 1 1000000; tol_du_ := lit 1 1000000;
     regularize_ := regularize; exact_hessian_ := exact;
     min_step_size_ := lit 1 10000000000 |}.

(** A memory as [set_work] leaves it, started at [x = 1]. *)
Definition mem0 : SqpmethodMemory :=
  {| d_nlp := {| z := [one]; p := []; lam := [zero]; lbz := [(- inf)%dbl];
                 ubz := [inf]; f := zero |};
     d := {| dx := [zero]; dlam := [zero]; gf := [zero]; Jk := [];
             Bk := [[zero]]; gLag := [zero]; gLag_old := [zero];
             z_cand := [zero]; merit_mem := [zero; zero; zero; zero];
             lbdz := [zero]; ubdz := [zero] |};
     iter_count := -1; merit_ind := 0; sigma := zero; reg := zero;
     return_status := ""; success := false;
     unified_return_status := SOLVER_RET_OTHER 1 |}.

(** Exact Hessian with [regularize] on. *)
Definition reg_opts : Sqpmethod := opts true true 10 3.

(** Limited-memory Hessian with [lbfgs_memory = 1]. *)
Definition bfgs_opts : Sqpmethod := opts false false 1 3.

(** Limited-memory Hessian, one line-search pass allowed. *)
Definition ls1_opts : Sqpmethod := opts false false 1 1.

(** The states the [bfgs_opts] run goes through. *)
Definition bfgs_run : list State :=
  Sqp.trace bfgs_opts sq_jac_fg sq_hess_l sq_fg (qp1 0) no_stop 3 3
    (Sqp.solve_init bfgs_opts mem0).

(** The memory handed to the line search in pass 0 of a limited-memory
    run from [mem0]: [x = 1], [dx = -2], the merit memory untouched. *)
Definition ls_mem : SqpmethodMemory :=
  set_iter_count 1
    (upd_d (set_dx [of_Z (-2)])
       (upd_d (set_lbdz [(- inf)%dbl])
          (upd_d (set_ubdz [inf])
             (upd_d (set_Bk [[one]])
                (upd_d (set_gLag [of_Z 2])
                   (upd_d (set_gf [of_Z 2])
                      (upd_nlp (set_f one)
                         (mem (Sqp.solve_init ls1_opts mem0))))))))).

(** The state the backtracking loop is entered with from [ls_mem]. *)
Definition ls_entry : State :=
  {| mem := (Sqp.merit_update ls1_opts ls_mem).1.1; ls_iter := 0;
     ls_success := true; t := one |}.

(** [mem0] with the lower bound [x >= 1/2]. *)
Definition mem_lb : SqpmethodMemory :=
  upd_nlp (fun n => {| z := z n; p := p n; lam := lam n; lbz := [lit 1 2];
                       ubz := ubz n; f := f n |}) mem0.

(** Exact Hessian, no regularization. *)
Definition exact_opts : Sqpmethod := opts true false 10 3.

(** The states the [exact_opts] run from [mem_lb] goes through. *)
Definition lb_run : list State :=
  Sqp.trace exact_opts sq_jac_fg sq_hess_l sq_fg (qp1 0) no_stop 3 3
    (Sqp.solve_init exact_opts mem_lb).

End Example.

(** The scalar part of the memory is the same in [m] and [m']. *)
Definition same_scalars (m m' : SqpmethodMemory) : Prop :=
  iter_count m' = iter_count m /\ merit_ind m' = merit_ind m /\
  sigma m' = sigma m /\ reg m' = reg m /\
  return_status m' = return_status m /\ success m' = success m /\
  unified_return_status m' = unified_return_status m.

(** The merit memory has its allocated length and the cursor points into
    it. *)
Definition merit_inv (self : Sqpmethod) (m : SqpmethodMemory) : Prop :=
  0 <= merit_ind m < merit_memsize_ self /\
  length (merit_mem (d m)) = Z.to_nat (merit_memsize_ self).

(** ** Auxiliary notions for the run *)

(** The three status fields are the same in [m] and [m']. *)
Definition same_status (m m' : SqpmethodMemory) : Prop :=
  return_status m' = return_status m /\ success m' = success m /\
  unified_return_status m' = unified_return_status m.

(** The problem data a run works on: parameters and bounds. *)
Definition same_problem (m m' : SqpmethodMemory) : Prop :=
  p (d_nlp m') = p (d_nlp m) /\ lbz (d_nlp m') = lbz (d_nlp m) /\
  ubz (d_nlp m') = ubz (d_nlp m).

(** [beta * (beta * ... * 1)], [k] factors, as the backtracking computes
    it. *)
Definition beta_pow (self : Sqpmethod) (k : nat) : double :=
  Nat.iter k (mul (beta_ self)) one.

Module SqpAux.

Section Aux.

Variable self : Sqpmethod.
Variable qpsol : ConicIn -> Z * ConicOut.

(** One pass between the Hessian step and the line search: "Formulate the
    QP", "Increase counter", "Solve the QP". *)
Definition qp_step (m : SqpmethodMemory) : SqpmethodMemory :=
  let m := Sqp.formulate_qp self m in
  let m := set_iter_count (iter_count m + 1) m in
  let w := d m in
  let '(dx', dlam') :=
    Sqp.solve_QP self qpsol (Bk w) (gf w) (lbdz w) (ubdz w) (Jk w) (dx w)
      (dlam w) in
  upd_d (set_dlam dlam') (upd_d (set_dx dx') m).

(** The input the QP subsolver is called on in a pass: the slots
    [solve_QP] fills when it is called, as [solve] does, on the work
    vectors Bk, gf, lbdz, ubdz, Jk, dx and dlam of the memory [m]. *)
Definition qp_input (m : SqpmethodMemory) : ConicIn :=
  let w := d m in
  {| CONIC_H := Bk w; CONIC_G := gf w; CONIC_X0 := dx w;
     CONIC_LAM_X0 := take (nx_ self) (dlam w);
     CONIC_LAM_A0 := drop (nx_ self) (dlam w);
     CONIC_LBX := take (nx_ self) (lbdz w);
     CONIC_UBX := take (nx_ self) (ubdz w);
     CONIC_A := Jk w;
     CONIC_LBA := drop (nx_ self) (lbdz w);
     CONIC_UBA := drop (nx_ self) (ubdz w) |}.

End Aux.

Section Run.

Variable self : Sqpmethod.
Variable nlp_jac_fg : vec -> vec -> option (double * vec * vec * mat).
Variable nlp_hess_l : vec -> vec -> double -> vec -> option mat.
Variable nlp_fg : vec -> vec -> option (double * vec).
Variable qpsol : ConicIn -> Z * ConicOut.
Variable callback : SqpmethodMemory -> bool.

(** How sigma goes from the state [a] at the head of a pass to the state
    [b] the pass ends in.  A pass that goes on to the next one has solved
    its QP: with the line search enabled sigma becomes
    [fmax(sigma, 1.01 * norm_inf(nx+ng, dlam))], where [dlam] is the
    multiplier vector that QP returned (and that [b] still holds), and
    with the line search disabled sigma stays.  A pass that ends the run
    leaves sigma as it is. *)
Definition sigma_step (ls_fuel : nat) (a b : State) : Prop :=
  exists fl : Flow,
    Sqp.iteration self nlp_jac_fg nlp_hess_l nlp_fg qpsol callback ls_fuel a
    = Some fl /\
    b = flow_state fl /\
    match fl with
    | Continue _ =>
        exists (s1 : State) (mh : SqpmethodMemory),
          Sqp.iteration_head self nlp_jac_fg callback a = Continue s1 /\
          Sqp.hessian self nlp_hess_l (mem s1) = Some mh /\
          dlam (d (mem b)) = dlam (d (qp_step self qpsol mh)) /\
          sigma (mem b)
          = (if 0 <? max_iter_ls_ self
             then fmax (sigma (mem a))
                    (lit 101 100
                     * casadi_norm_inf (nx_ self + ng_ self)
                         (dlam (d (qp_step self qpsol mh))))%dbl
             else sigma (mem a))
    | Break _ | Return _ _ => sigma (mem b) = sigma (mem a)
    end.

End Run.

End SqpAux.

(** ** [integrator.cpp]: the registry of integrator plugins *)

Module Integrator.

(** What the functions of [integrator.cpp] throw. *)
Inductive Exception :=
| Registration_failed                 (* casadi_assert(flag==0) *)
| Solver_in_use (name : string)       (* "Solver <name> is already in use" *)
| WITH_DL_needed                      (* "WITH_DL option needed for dynamic loading" *)
| Solver_not_found                    (* casadi_assert(it!=solvers_.end()) *)
| Loading_failed (what : string).     (* thrown by FunctionInternal::loadPlugin *)

Section Registry.

(** [Function] and the node a creator returns are opaque here. *)
Variable Function : Type.
Variable Node : Type.

(** The fields of [Integrator::Plugin] that [integrator.cpp] reads. *)
Record Plugin := {
  creator : Function -> Function -> Node;
  name : string
}.

(** A registration function gets a default-constructed [Plugin], which
    carries no information, fills it and returns a flag: it is modelled by
    the flag and the struct as it leaves it. *)
Definition RegFcn : Type := Z * Plugin.

(** [Integrator::registerPlugin] on the static map [solvers_]; an
    exception leaves the map as it was. *)
Definition registerPlugin (regfcn : RegFcn) (solvers_ : gmap string Plugin)
    : Exception + gmap string Plugin :=
  (* Set the fields *)
  let flag := regfcn.1 in
  let plugin := regfcn.2 in
  if negb (flag =? 0) then inl Registration_failed
  else
    (* Check if the solver name is in use *)
    match solvers_ !! name plugin with
    | Some _ => inl (Solver_in_use (name plugin))
    | None =>
        (* Add to list of solvers *)
        inr (<[name plugin := plugin]> solvers_)
    end.

(** Whether the library was built with [WITH_DL]. *)
Variable WITH_DL : bool.
(** [FunctionInternal::loadPlugin<RegFcn>(name, "integrator")]. *)
Variable FunctionInternal_loadPlugin : string -> Exception + RegFcn.

(** [Integrator::loadPlugin]. *)
Definition loadPlugin (nm : string) (solvers_ : gmap string Plugin)
    : Exception + gmap string Plugin :=
  if WITH_DL then
    (* Retrieve the registration function *)
    match FunctionInternal_loadPlugin nm with
    | inl e => inl e
    | inr reg =>
        (* Register the plugin *)
        registerPlugin reg solvers_
    end
  else inl WITH_DL_needed.

(** [Integrator::Integrator(name, f, g)]: the node assigned (or the
    exception thrown) and the static map afterwards. *)
Definition Integrator_new (nm : string) (f g : Function)
    (solvers_ : gmap string Plugin)
    : (Exception + Node) * gmap string Plugin :=
  (* Check if the solver has been loaded *)
  match solvers_ !! nm with
  | Some pl => (inr (creator pl f g), solvers_)
  | None =>
      (* Load the solver if needed *)
      match loadPlugin nm solvers_ with
      | inl e => (inl e, solvers_)
      | inr solvers' =>
          match solvers' !! nm with
          | Some pl => (inr (creator pl f g), solvers')
          | None => (inl Solver_not_found, solvers')
          end
      end
  end.

(** [Integrator::clone]: a null handle clones to a null handle, a node to
    the clone of the node. *)
Definition clone (node_clone : Node -> Node) (this : option Node) : option Node :=
  match this with
  | Some n => Some (node_clone n)
  | None => None
  end.

(** Every plugin sits under its own name. *)
Definition well_keyed (solvers_ : gmap string Plugin) : Prop :=
  forall (k : string) (pl : Plugin), solvers_ !! k = Some pl -> name pl = k.

End Registry.

End Integrator.

(** An instance: functions are named, a node records who made it from
    what. *)
Module IntegratorExample.

Definition cvodes : Integrator.Plugin string (string * string * string) :=
  {| Integrator.creator := fun f g => ("cvodes", f, g);
     Integrator.name := "cvodes" |}.

Definition idas : Integrator.Plugin string (string * string * string) :=
  {| Integrator.creator := fun f g => ("idas", f, g);
     Integrator.name := "idas" |}.

(** A loader that answers every request with the registration function
    of [idas]. *)
Definition load_idas (_ : string)
    : Integrator.Exception
      + Integrator.RegFcn string (string * string * string) :=
  inr (0, idas).

End IntegratorExample.

(** Further instances of the one-variable problem. *)
Module Example2.

Import Example.

(** The defaults with max_iter = 0. *)
Definition limit_opts : Sqpmethod :=
  {| nx_ := 1; ng_ := 0; min_iter_ := 0; max_iter_ := 0; max_iter_ls_ := 3;
     c1_ := lit 1 10000; beta_ := lit 8 10; merit_memsize_ := 4;
     lbfgs_memory_ := 10; tol_pr_ := lit 1 1000000; tol_du_ := lit 1 1000000;
     regularize_ := false; exact_hessian_ := true;
     min_step_size_ := lit 1 10000000000 |}.

(** Exact Hessian, line search disabled. *)
Definition nols_opts : Sqpmethod := opts true false 10 0.

(** An [nlp_jac_fg] that always fails. *)
Definition jac_fail (_ _ : vec) : option (double * vec * vec * mat) := None.

(** A callback that always asks to stop. *)
Definition always_stop (_ : SqpmethodMemory) : bool := true.

(** A QP "solver" that hands its warm start back. *)
Definition qp_echo (q : ConicIn) : Z * ConicOut :=
  (0, {| CONIC_X := CONIC_X0 q; CONIC_LAM_X := CONIC_LAM_X0 q;
         CONIC_LAM_A := CONIC_LAM_A0 q |}).

(** A memory that an earlier call left marked as solved. *)
Definition mem_stale : SqpmethodMemory :=
  set_success true (set_return_status "Solve_Succeeded" mem0).

End Example2.
(** ** Set-up of the solver object: options, oracle functions, persistence

    The parts of [sqpmethod.cpp] around [solve]: the option table, [init],
    [set_sqpmethod_prob], [set_work], [get_stats], [codegen_declarations]
    and the (de)serialisation of the object.  [Function], [Sparsity],
    [GenericType] and the state of the base class [Nlpsol] are opaque; what
    the code calls on them is a parameter of the section. *)
Module Setup.

(** The type ids that occur in [Sqpmethod::options_]. *)
Inductive TypeID := OT_INT | OT_DOUBLE | OT_STRING | OT_BOOL | OT_DICT.

(** [Sqpmethod::options_], without the parent table [Nlpsol::options_] and
    without the help texts. *)
Definition options_ : list (string * TypeID) :=
  [ ("qpsol", OT_STRING);
    ("qpsol_options", OT_DICT);
    ("hessian_approximation", OT_STRING);
    ("max_iter", OT_INT);
    ("min_iter", OT_INT);
    ("max_iter_ls", OT_INT);
    ("tol_pr", OT_DOUBLE);
    ("tol_du", OT_DOUBLE);
    ("c1", OT_DOUBLE);
    ("beta", OT_DOUBLE);
    ("merit_memory", OT_INT);
    ("lbfgs_memory", OT_INT);
    ("regularize", OT_BOOL);
    ("print_header", OT_BOOL);
    ("print_iteration", OT_BOOL);
    ("print_status", OT_BOOL);
    ("min_step_size", OT_DOUBLE) ].

(** What [init] throws. *)
Inductive Exception :=
| Nlpsol_exception (what : string)   (* thrown by Nlpsol::init *)
| Bad_option_type                    (* a GenericType conversion threw *)
| Qpsol_not_set                      (* "'qpsol' option has not been set" *)
| Conic_exception (what : string).   (* thrown by conic(...) *)

Section Class.

Variable Function : Type.
Variable Sparsity : Type.
Variable GenericType : Type.
(** The base-class part of the object. *)
Variable Nlpsol : Type.

Local Abbreviation Dict := (gmap string GenericType).

(** The conversions of [GenericType]; [None] when the conversion throws. *)
Variable to_int : GenericType -> option Z.
Variable to_double : GenericType -> option double.
Variable to_bool : GenericType -> option bool.
Variable to_string : GenericType -> option string.
Variable to_dict : GenericType -> option Dict.

(** [casadi_sqpmethod_prob], without the pointer to the base problem. *)
Record casadi_sqpmethod_prob := {
  sp_h : Sparsity;
  sp_a : Sparsity;
  merit_memsize : Z;
  max_iter_ls : Z
}.

(** The data members of [Sqpmethod] itself. *)
Record Members := {
  qpsol_ : Function;
  exact_hessian_ : bool;
  max_iter_ : Z;
  min_iter_ : Z;
  lbfgs_memory_ : Z;
  tol_pr_ : double;
  tol_du_ : double;
  min_step_size_ : double;
  c1_ : double;
  beta_ : double;
  max_iter_ls_ : Z;
  merit_memsize_ : Z;
  print_header_ : bool;
  print_iteration_ : bool;
  print_status_ : bool;
  Hsp_ : Sparsity;
  Asp_ : Sparsity;
  regularize_ : bool;
  p_ : casadi_sqpmethod_prob
}.

Definition set_qpsol_ (v : Function) (this : Members) : Members :=
  {| qpsol_ := v;
     exact_hessian_ := exact_hessian_ this;
     max_iter_ := max_iter_ this;
     min_iter_ := min_iter_ this;
     lbfgs_memory_ := lbfgs_memory_ this;
     tol_pr_ := tol_pr_ this;
     tol_du_ := tol_du_ this;
     min_step_size_ := min_step_size_ this;
     c1_ := c1_ this;
     beta_ := beta_ this;
     max_iter_ls_ := max_iter_ls_ this;
     merit_memsize_ := merit_memsize_ this;
     print_header_ := print_header_ this;
     print_iteration_ := print_iteration_ this;
     print_status_ := print_status_ this;
     Hsp_ := Hsp_ this;
     Asp_ := Asp_ this;
     regularize_ := regularize_ this;
     p_ := p_ this |}.

Definition set_exact_hessian_ (v : bool) (this : Members) : Members :=
  {| qpsol_ := qpsol_ this;
     exact_hessian_ := v;
     max_iter_ := max_iter_ this;
     min_iter_ := min_iter_ this;
     lbfgs_memory_ := lbfgs_memory_ this;
     tol_pr_ := tol_pr_ this;
     tol_du_ := tol_du_ this;
     min_step_size_ := min_step_size_ this;
     c1_ := c1_ this;
     beta_ := beta_ this;
     max_iter_ls_ := max_iter_ls_ this;
     merit_memsize_ := merit_memsize_ this;
     print_header_ := print_header_ this;
     print_iteration_ := print_iteration_ this;
     print_status_ := print_status_ this;
     Hsp_ := Hsp_ this;
     Asp_ := Asp_ this;
     regularize_ := regularize_ this;
     p_ := p_ this |}.

Definition set_max_iter_ (v : Z) (this : Members) : Members :=
  {| qpsol_ := qpsol_ this;
     exact_hessian_ := exact_hessian_ this;
     max_iter_ := v;
     min_iter_ := min_iter_ this;
     lbfgs_memory_ := lbfgs_memory_ this;
     tol_pr_ := tol_pr_ this;
     tol_du_ := tol_du_ this;
     min_step_size_ := min_step_size_ this;
     c1_ := c1_ this;
     beta_ := beta_ this;
     max_iter_ls_ := max_iter_ls_ this;
     merit_memsize_ := merit_memsize_ this;
     print_header_ := print_header_ this;
     print_iteration_ := print_iteration_ this;
     print_status_ := print_status_ this;
     Hsp_ := Hsp_ this;
     Asp_ := Asp_ this;
     regularize_ := regularize_ this;
     p_ := p_ this |}.

Definition set_min_iter_ (v : Z) (this : Members) : Members :=
  {| qpsol_ := qpsol_ this;
     exact_hessian_ := exact_hessian_ this;
     max_iter_ := max_iter_ this;
     min_iter_ := v;
     lbfgs_memory_ := lbfgs_memory_ this;
     tol_pr_ := tol_pr_ this;
     tol_du_ := tol_du_ this;
     min_step_size_ := min_step_size_ this;
     c1_ := c1_ this;
     beta_ := beta_ this;
     max_iter_ls_ := max_iter_ls_ this;
     merit_memsize_ := merit_memsize_ this;
     print_header_ := print_header_ this;
     print_iteration_ := print_iteration_ this;
     print_status_ := print_status_ this;
     Hsp_ := Hsp_ this;
     Asp_ := Asp_ this;
     regularize_ := regularize_ this;
     p_ := p_ this |}.

Definition set_lbfgs_memory_ (v : Z) (this : Members) : Members :=
  {| qpsol_ := qpsol_ this;
     exact_hessian_ := exact_hessian_ this;
     max_iter_ := max_iter_ this;
     min_iter_ := min_iter_ this;
     lbfgs_memory_ := v;
     tol_pr_ := tol_pr_ this;
     tol_du_ := tol_du_ this;
     min_step_size_ := min_step_size_ this;
     c1_ := c1_ this;
     beta_ := beta_ this;
     max_iter_ls_ := max_iter_ls_ this;
     merit_memsize_ := merit_memsize_ this;
     print_header_ := print_header_ this;
     print_iteration_ := print_iteration_ this;
     print_status_ := print_status_ this;
     Hsp_ := Hsp_ this;
     Asp_ := Asp_ this;
     regularize_ := regularize_ this;
     p_ := p_ this |}.

Definition set_tol_pr_ (v : double) (this : Members) : Members :=
  {| qpsol_ := qpsol_ this;
     exact_hessian_ := exact_hessian_ this;
     max_iter_ := max_iter_ this;
     min_iter_ := min_iter_ this;
     lbfgs_memory_ := lbfgs_memory_ this;
     tol_pr_ := v;
     tol_du_ := tol_du_ this;
     min_step_size_ := min_step_size_ this;
     c1_ := c1_ this;
     beta_ := beta_ this;
     max_iter_ls_ := max_iter_ls_ this;
     merit_memsize_ := merit_memsize_ this;
     print_header_ := print_header_ this;
     print_iteration_ := print_iteration_ this;
     print_status_ := print_status_ this;
     Hsp_ := Hsp_ this;
     Asp_ := Asp_ this;
     regularize_ := regularize_ this;
     p_ := p_ this |}.

Definition set_tol_du_ (v : double) (this : Members) : Members :=
  {| qpsol_ := qpsol_ this;
     exact_hessian_ := exact_hessian_ this;
     max_iter_ := max_iter_ this;
     min_iter_ := min_iter_ this;
     lbfgs_memory_ := lbfgs_memory_ this;
     tol_pr_ := tol_pr_ this;
     tol_du_ := v;
     min_step_size_ := min_step_size_ this;
     c1_ := c1_ this;
     beta_ := beta_ this;
     max_iter_ls_ := max_iter_ls_ this;
     merit_memsize_ := merit_memsize_ this;
     print_header_ := print_header_ this;
     print_iteration_ := print_iteration_ this;
     print_status_ := print_status_ this;
     Hsp_ := Hsp_ this;
     Asp_ := Asp_ this;
     regularize_ := regularize_ this;
     p_ := p_ this |}.

Definition set_min_step_size_ (v : double) (this : Members) : Members :=
  {| qpsol_ := qpsol_ this;
     exact_hessian_ := exact_hessian_ this;
     max_iter_ := max_iter_ this;
     min_iter_ := min_iter_ this;
     lbfgs_memory_ := lbfgs_memory_ this;
     tol_pr_ := tol_pr_ this;
     tol_du_ := tol_du_ this;
     min_step_size_ := v;
     c1_ := c1_ this;
     beta_ := beta_ this;
     max_iter_ls_ := max_iter_ls_ this;
     merit_memsize_ := merit_memsize_ this;
     print_header_ := print_header_ this;
     print_iteration_ := print_iteration_ this;
     print_status_ := print_status_ this;
     Hsp_ := Hsp_ this;
     Asp_ := Asp_ this;
     regularize_ := regularize_ this;
     p_ := p_ this |}.

Definition set_c1_ (v : double) (this : Members) : Members :=
  {| qpsol_ := qpsol_ this;
     exact_hessian_ := exact_hessian_ this;
     max_iter_ := max_iter_ this;
     min_iter_ := min_iter_ this;
     lbfgs_memory_ := lbfgs_memory_ this;
     tol_pr_ := tol_pr_ this;
     tol_du_ := tol_du_ this;
     min_step_size_ := min_step_size_ this;
     c1_ := v;
     beta_ := beta_ this;
     max_iter_ls_ := max_iter_ls_ this;
     merit_memsize_ := merit_memsize_ this;
     print_header_ := print_header_ this;
     print_iteration_ := print_iteration_ this;
     print_status_ := print_status_ this;
     Hsp_ := Hsp_ this;
     Asp_ := Asp_ this;
     regularize_ := regularize_ this;
     p_ := p_ this |}.

Definition set_beta_ (v : double) (this : Members) : Members :=
  {| qpsol_ := qpsol_ this;
     exact_hessian_ := exact_hessian_ this;
     max_iter_ := max_iter_ this;
     min_iter_ := min_iter_ this;
     lbfgs_memory_ := lbfgs_memory_ this;
     tol_pr_ := tol_pr_ this;
     tol_du_ := tol_du_ this;
     min_step_size_ := min_step_size_ this;
     c1_ := c1_ this;
     beta_ := v;
     max_iter_ls_ := max_iter_ls_ this;
     merit_memsize_ := merit_memsize_ this;
     print_header_ := print_header_ this;
     print_iteration_ := print_iteration_ this;
     print_status_ := print_status_ this;
     Hsp_ := Hsp_ this;
     Asp_ := Asp_ this;
     regularize_ := regularize_ this;
     p_ := p_ this |}.

Definition set_max_iter_ls_ (v : Z) (this : Members) : Members :=
  {| qpsol_ := qpsol_ this;
     exact_hessian_ := exact_hessian_ this;
     max_iter_ := max_iter_ this;
     min_iter_ := min_iter_ this;
     lbfgs_memory_ := lbfgs_memory_ this;
     tol_pr_ := tol_pr_ this;
     tol_du_ := tol_du_ this;
     min_step_size_ := min_step_size_ this;
     c1_ := c1_ this;
     beta_ := beta_ this;
     max_iter_ls_ := v;
     merit_memsize_ := merit_memsize_ this;
     print_header_ := print_header_ this;
     print_iteration_ := print_iteration_ this;
     print_status_ := print_status_ this;
     Hsp_ := Hsp_ this;
     Asp_ := Asp_ this;
     regularize_ := regularize_ this;
     p_ := p_ this |}.

Definition set_merit_memsize_ (v : Z) (this : Members) : Members :=
  {| qpsol_ := qpsol_ this;
     exact_hessian_ := exact_hessian_ this;
     max_iter_ := max_iter_ this;
     min_iter_ := min_iter_ this;
     lbfgs_memory_ := lbfgs_memory_ this;
     tol_pr_ := tol_pr_ this;
     tol_du_ := tol_du_ this;
     min_step_size_ := min_step_size_ this;
     c1_ := c1_ this;
     beta_ := beta_ this;
     max_iter_ls_ := max_iter_ls_ this;
     merit_memsize_ := v;
     print_header_ := print_header_ this;
     print_iteration_ := print_iteration_ this;
     print_status_ := print_status_ this;
     Hsp_ := Hsp_ this;
     Asp_ := Asp_ this;
     regularize_ := regularize_ this;
     p_ := p_ this |}.

Definition set_print_header_ (v : bool) (this : Members) : Members :=
  {| qpsol_ := qpsol_ this;
     exact_hessian_ := exact_hessian_ this;
     max_iter_ := max_iter_ this;
     min_iter_ := min_iter_ this;
     lbfgs_memory_ := lbfgs_memory_ this;
     tol_pr_ := tol_pr_ this;
     tol_du_ := tol_du_ this;
     min_step_size_ := min_step_size_ this;
     c1_ := c1_ this;
     beta_ := beta_ this;
     max_iter_ls_ := max_iter_ls_ this;
     merit_memsize_ := merit_memsize_ this;
     print_header_ := v;
     print_iteration_ := print_iteration_ this;
     print_status_ := print_status_ this;
     Hsp_ := Hsp_ this;
     Asp_ := Asp_ this;
     regularize_ := regularize_ this;
     p_ := p_ this |}.

Definition set_print_iteration_ (v : bool) (this : Members) : Members :=
  {| qpsol_ := qpsol_ this;
     exact_hessian_ := exact_hessian_ this;
     max_iter_ := max_iter_ this;
     min_iter_ := min_iter_ this;
     lbfgs_memory_ := lbfgs_memory_ this;
     tol_pr_ := tol_pr_ this;
     tol_du_ := tol_du_ this;
     min_step_size_ := min_step_size_ this;
     c1_ := c1_ this;
     beta_ := beta_ this;
     max_iter_ls_ := max_iter_ls_ this;
     merit_memsize_ := merit_memsize_ this;
     print_header_ := print_header_ this;
     print_iteration_ := v;
     print_status_ := print_status_ this;
     Hsp_ := Hsp_ this;
     Asp_ := Asp_ this;
     regularize_ := regularize_ this;
     p_ := p_ this |}.

Definition set_print_status_ (v : bool) (this : Members) : Members :=
  {| qpsol_ := qpsol_ this;
     exact_hessian_ := exact_hessian_ this;
     max_iter_ := max_iter_ this;
     min_iter_ := min_iter_ this;
     lbfgs_memory_ := lbfgs_memory_ this;
     tol_pr_ := tol_pr_ this;
     tol_du_ := tol_du_ this;
     min_step_size_ := min_step_size_ this;
     c1_ := c1_ this;
     beta_ := beta_ this;
     max_iter_ls_ := max_iter_ls_ this;
     merit_memsize_ := merit_memsize_ this;
     print_header_ := print_header_ this;
     print_iteration_ := print_iteration_ this;
     print_status_ := v;
     Hsp_ := Hsp_ this;
     Asp_ := Asp_ this;
     regularize_ := regularize_ this;
     p_ := p_ this |}.

Definition set_Hsp_ (v : Sparsity) (this : Members) : Members :=
  {| qpsol_ := qpsol_ this;
     exact_hessian_ := exact_hessian_ this;
     max_iter_ := max_iter_ this;
     min_iter_ := min_iter_ this;
     lbfgs_memory_ := lbfgs_memory_ this;
     tol_pr_ := tol_pr_ this;
     tol_du_ := tol_du_ this;
     min_step_size_ := min_step_size_ this;
     c1_ := c1_ this;
     beta_ := beta_ this;
     max_iter_ls_ := max_iter_ls_ this;
     merit_memsize_ := merit_memsize_ this;
     print_header_ := print_header_ this;
     print_iteration_ := print_iteration_ this;
     print_status_ := print_status_ this;
     Hsp_ := v;
     Asp_ := Asp_ this;
     regularize_ := regularize_ this;
     p_ := p_ this |}.

Definition set_Asp_ (v : Sparsity) (this : Members) : Members :=
  {| qpsol_ := qpsol_ this;
     exact_hessian_ := exact_hessian_ this;
     max_iter_ := max_iter_ this;
     min_iter_ := min_iter_ this;
     lbfgs_memory_ := lbfgs_memory_ this;
     tol_pr_ := tol_pr_ this;
     tol_du_ := tol_du_ this;
     min_step_size_ := min_step_size_ this;
     c1_ := c1_ this;
     beta_ := beta_ this;
     max_iter_ls_ := max_iter_ls_ this;
     merit_memsize_ := merit_memsize_ this;
     print_header_ := print_header_ this;
     print_iteration_ := print_iteration_ this;
     print_status_ := print_status_ this;
     Hsp_ := Hsp_ this;
     Asp_ := v;
     regularize_ := regularize_ this;
     p_ := p_ this |}.

Definition set_regularize_ (v : bool) (this : Members) : Members :=
  {| qpsol_ := qpsol_ this;
     exact_hessian_ := exact_hessian_ this;
     max_iter_ := max_iter_ this;
     min_iter_ := min_iter_ this;
     lbfgs_memory_ := lbfgs_memory_ this;
     tol_pr_ := tol_pr_ this;
     tol_du_ := tol_du_ this;
     min_step_size_ := min_step_size_ this;
     c1_ := c1_ this;
     beta_ := beta_ this;
     max_iter_ls_ := max_iter_ls_ this;
     merit_memsize_ := merit_memsize_ this;
     print_header_ := print_header_ this;
     print_iteration_ := print_iteration_ this;
     print_status_ := print_status_ this;
     Hsp_ := Hsp_ this;
     Asp_ := Asp_ this;
     regularize_ := v;
     p_ := p_ this |}.

Definition set_p_ (v : casadi_sqpmethod_prob) (this : Members) : Members :=
  {| qpsol_ := qpsol_ this;
     exact_hessian_ := exact_hessian_ this;
     max_iter_ := max_iter_ this;
     min_iter_ := min_iter_ this;
     lbfgs_memory_ := lbfgs_memory_ this;
     tol_pr_ := tol_pr_ this;
     tol_du_ := tol_du_ this;
     min_step_size_ := min_step_size_ this;
     c1_ := c1_ this;
     beta_ := beta_ this;
     max_iter_ls_ := max_iter_ls_ this;
     merit_memsize_ := merit_memsize_ this;
     print_header_ := print_header_ this;
     print_iteration_ := print_iteration_ this;
     print_status_ := print_status_ this;
     Hsp_ := Hsp_ this;
     Asp_ := Asp_ this;
     regularize_ := regularize_ this;
     p_ := v |}.

(** [Sqpmethod::set_sqpmethod_prob]. *)
Definition set_sqpmethod_prob (this : Members) : Members :=
  set_p_ {| sp_h := Hsp_ this;
            sp_a := Asp_ this;
            merit_memsize := merit_memsize_ this;
            max_iter_ls := max_iter_ls_ this |} this.

(** The local variables of [init] that the option loop assigns. *)
Record Locals := {
  hessian_approximation : string;
  qpsol_plugin : string;
  qpsol_options : Dict
}.

(** One pass of the loop "Read user options" of [init]. *)
Definition read_option (key : string) (v : GenericType) (st : Members * Locals)
    : option (Members * Locals) :=
  let this := st.1 in
  let loc := st.2 in
  if String.eqb key "max_iter" then
    x ← to_int v; Some (set_max_iter_ x this, loc)
  else if String.eqb key "min_iter" then
    x ← to_int v; Some (set_min_iter_ x this, loc)
  else if String.eqb key "max_iter_ls" then
    x ← to_int v; Some (set_max_iter_ls_ x this, loc)
  else if String.eqb key "c1" then
    x ← to_double v; Some (set_c1_ x this, loc)
  else if String.eqb key "beta" then
    x ← to_double v; Some (set_beta_ x this, loc)
  else if String.eqb key "merit_memory" then
    x ← to_int v; Some (set_merit_memsize_ x this, loc)
  else if String.eqb key "lbfgs_memory" then
    x ← to_int v; Some (set_lbfgs_memory_ x this, loc)
  else if String.eqb key "tol_pr" then
    x ← to_double v; Some (set_tol_pr_ x this, loc)
  else if String.eqb key "tol_du" then
    x ← to_double v; Some (set_tol_du_ x this, loc)
  else if String.eqb key "hessian_approximation" then
    x ← to_string v;
    Some (this, {| hessian_approximation := x;
                   qpsol_plugin := qpsol_plugin loc;
                   qpsol_options := qpsol_options loc |})
  else if String.eqb key "min_step_size" then
    x ← to_double v; Some (set_min_step_size_ x this, loc)
  else if String.eqb key "qpsol" then
    x ← to_string v;
    Some (this, {| hessian_approximation := hessian_approximation loc;
                   qpsol_plugin := x;
                   qpsol_options := qpsol_options loc |})
  else if String.eqb key "qpsol_options" then
    x ← to_dict v;
    Some (this, {| hessian_approximation := hessian_approximation loc;
                   qpsol_plugin := qpsol_plugin loc;
                   qpsol_options := x |})
  else if String.eqb key "regularize" then
    x ← to_bool v; Some (set_regularize_ x this, loc)
  else if String.eqb key "print_header" then
    x ← to_bool v; Some (set_print_header_ x this, loc)
  else if String.eqb key "print_iteration" then
    x ← to_bool v; Some (set_print_iteration_ x this, loc)
  else if String.eqb key "print_status" then
    x ← to_bool v; Some (set_print_status_ x this, loc)
  else Some st.

(** The loop [for (auto&& op : opts)]: a conversion that throws ends it. *)
Definition read_options (opts : Dict) (st : Members * Locals)
    : option (Members * Locals) :=
  map_fold (fun key v acc => acc ≫= read_option key v) (Some st) opts.

(** [Nlpsol::init]: the base-class state it leaves, or what it throws. *)
Variable Nlpsol_init : Dict -> string + Nlpsol.
(** The base-class member [nx_]. *)
Variable nx_ : Nlpsol -> Z.
(** [create_function(fname, s_in, s_out, aux)] of the oracle. *)
Variable create_function :
  string -> list string -> list string -> list (string * list string) -> Function.
Variable sparsity_out : Function -> Z -> Sparsity.
Variable Sparsity_dense : Z -> Z -> Sparsity.
(** [conic(name, solver, {{"h", H}, {"a", A}}, opts)]. *)
Variable conic : string -> string -> Sparsity -> Sparsity -> Dict -> string + Function.

(** [Sqpmethod::init] on the object [this]: the base-class state, the
    members and the oracle functions created, by name and in order.  The
    header print-out and the allocation of work space are left out. *)
Definition init (this : Members) (opts : Dict)
    : Exception + (Nlpsol * Members * list (string * Function)) :=
  (* Call the init method of the base class *)
  match Nlpsol_init opts with
  | inl what => inl (Nlpsol_exception what)
  | inr base =>
      (* Default options *)
      let this := set_min_iter_ 0 this in
      let this := set_max_iter_ 50 this in
      let this := set_max_iter_ls_ 3 this in
      let this := set_c1_ (lit 1 10000) this in
      let this := set_beta_ (lit 8 10) this in
      let this := set_merit_memsize_ 4 this in
      let this := set_lbfgs_memory_ 10 this in
      let this := set_tol_pr_ (lit 1 1000000) this in
      let this := set_tol_du_ (lit 1 1000000) this in
      let this := set_regularize_ false this in
      let this := set_min_step_size_ (lit 1 10000000000) this in
      let this := set_print_header_ true this in
      let this := set_print_iteration_ true this in
      let this := set_print_status_ true this in
      let loc := {| hessian_approximation := "exact";
                    qpsol_plugin := "qpoases";
                    qpsol_options := ∅ |} in
      (* Read user options *)
      match read_options opts (this, loc) with
      | None => inl Bad_option_type
      | Some (this, loc) =>
          (* Use exact Hessian? *)
          let this :=
            set_exact_hessian_ (String.eqb (hessian_approximation loc) "exact") this in
          (* Get/generate required functions *)
          let fs :=
            if negb (max_iter_ls_ this =? 0)
            then [("nlp_fg", create_function "nlp_fg" ["x"; "p"] ["f"; "g"] [])]
            else [] in
          (* First order derivative information *)
          let jac_g_fcn :=
            create_function "nlp_jac_fg" ["x"; "p"]
              ["f"; "grad:f:x"; "g"; "jac:g:x"] [] in
          let fs := fs ++ [("nlp_jac_fg", jac_g_fcn)] in
          let this := set_Asp_ (sparsity_out jac_g_fcn 3) this in
          let '(this, fs) :=
            if exact_hessian_ this then
              let hess_l_fcn :=
                create_function "nlp_hess_l" ["x"; "p"; "lam:f"; "lam:g"]
                  ["sym:hess:gamma:x:x"] [("gamma", ["f"; "g"])] in
              (set_Hsp_ (sparsity_out hess_l_fcn 0) this,
               fs ++ [("nlp_hess_l", hess_l_fcn)])
            else
              (set_Hsp_ (Sparsity_dense (nx_ base) (nx_ base)) this, fs) in
          (* Allocate a QP solver *)
          if String.eqb (qpsol_plugin loc) "" then inl Qpsol_not_set
          else
            match conic "qpsol" (qpsol_plugin loc) (Hsp_ this) (Asp_ this)
                    (qpsol_options loc) with
            | inl what => inl (Conic_exception what)
            | inr q => inr (base, set_sqpmethod_prob (set_qpsol_ q this), fs)
            end
      end
  end.

(** The option read under [key] by [conv], or [default] when the key is
    absent; [None] when the conversion throws. *)
Definition read_as {A : Type} (conv : GenericType -> option A) (key : string)
    (default : A) (opts : Dict) : option A :=
  match opts !! key with
  | Some v => conv v
  | None => Some default
  end.

(** The option loop read key by key: each recognised key is read by its
    conversion, with the value the member or local holds as the default. *)
Definition read_by_key (opts : Dict) (st : Members * Locals)
    : option (Members * Locals) :=
  let this := st.1 in
  let loc := st.2 in
  max_iter ← read_as to_int "max_iter" (max_iter_ this) opts;
  min_iter ← read_as to_int "min_iter" (min_iter_ this) opts;
  max_iter_ls ← read_as to_int "max_iter_ls" (max_iter_ls_ this) opts;
  c1 ← read_as to_double "c1" (c1_ this) opts;
  beta ← read_as to_double "beta" (beta_ this) opts;
  merit_memory ← read_as to_int "merit_memory" (merit_memsize_ this) opts;
  lbfgs_memory ← read_as to_int "lbfgs_memory" (lbfgs_memory_ this) opts;
  tol_pr ← read_as to_double "tol_pr" (tol_pr_ this) opts;
  tol_du ← read_as to_double "tol_du" (tol_du_ this) opts;
  hessian ← read_as to_string "hessian_approximation" (hessian_approximation loc) opts;
  min_step_size ← read_as to_double "min_step_size" (min_step_size_ this) opts;
  qpsol ← read_as to_string "qpsol" (qpsol_plugin loc) opts;
  qpsol_opts ← read_as to_dict "qpsol_options" (qpsol_options loc) opts;
  regularize ← read_as to_bool "regularize" (regularize_ this) opts;
  print_header ← read_as to_bool "print_header" (print_header_ this) opts;
  print_iteration ← read_as to_bool "print_iteration" (print_iteration_ this) opts;
  print_status ← read_as to_bool "print_status" (print_status_ this) opts;
  Some ({| qpsol_ := qpsol_ this;
           exact_hessian_ := exact_hessian_ this;
           max_iter_ := max_iter;
           min_iter_ := min_iter;
           lbfgs_memory_ := lbfgs_memory;
           tol_pr_ := tol_pr;
           tol_du_ := tol_du;
           min_step_size_ := min_step_size;
           c1_ := c1;
           beta_ := beta;
           max_iter_ls_ := max_iter_ls;
           merit_memsize_ := merit_memory;
           print_header_ := print_header;
           print_iteration_ := print_iteration;
           print_status_ := print_status;
           Hsp_ := Hsp_ this;
           Asp_ := Asp_ this;
           regularize_ := regularize;
           p_ := p_ this |},
        {| hessian_approximation := hessian;
           qpsol_plugin := qpsol;
           qpsol_options := qpsol_opts |}).

(** Whether a value converts to the type with the given id. *)
Definition converts (ty : TypeID) (v : GenericType) : bool :=
  match ty with
  | OT_INT => bool_decide (is_Some (to_int v))
  | OT_DOUBLE => bool_decide (is_Some (to_double v))
  | OT_STRING => bool_decide (is_Some (to_string v))
  | OT_BOOL => bool_decide (is_Some (to_bool v))
  | OT_DICT => bool_decide (is_Some (to_dict v))
  end.

(** The base-class flags that [codegen_declarations] reads. *)
Variable calc_f_ calc_g_ calc_lam_x_ calc_lam_p_ : Nlpsol -> bool.

(** [Sqpmethod::codegen_declarations]: the dependencies added, in order;
    [functions] is the oracle's table that [get_function] looks a name up
    in, and [None] stands for the exception of [get_function] on a name
    that is not there. *)
Definition codegen_declarations (functions : gmap string Function)
    (base : Nlpsol) (this : Members) : option (list Function) :=
  g1 ← (if negb (max_iter_ls_ this =? 0)
        then f ← functions !! "nlp_fg"; Some [f] else Some []);
  f ← functions !! "nlp_jac_fg";
  let g2 := g1 ++ [f] in
  g3 ← (if exact_hessian_ this
        then f ← functions !! "nlp_hess_l"; Some (g2 ++ [f]) else Some g2);
  g4 ← (if calc_f_ base || calc_g_ base || calc_lam_x_ base || calc_lam_p_ base
        then f ← functions !! "nlp_grad"; Some (g3 ++ [f]) else Some g3);
  Some (g4 ++ [qpsol_ this]).

(** *** Persistence *)

(** Modelled from the spec: "A serialization format captures: schema
    version, the QP subsolver descriptor, option values enumerated above,
    and Hsp, Asp.  Order of fields is part of the wire format."  A stream
    is the sequence of the items packed, each under its description;
    unpacking takes the next item and throws unless its description and
    kind are the ones asked for. *)
Inductive Packed :=
| P_function (f : Function)
| P_bool (b : bool)
| P_int (i : Z)
| P_double (x : double)
| P_sparsity (sp : Sparsity).

Local Abbreviation Stream := (list (string * Packed)).

Definition unpack {A : Type} (kind : Packed -> option A) (descr : string)
    (s : Stream) : option (A * Stream) :=
  match s with
  | (d, v) :: s' =>
      if String.eqb d descr then x ← kind v; Some (x, s') else None
  | [] => None
  end.

Definition as_function (v : Packed) : option Function :=
  match v with P_function f => Some f | _ => None end.
Definition as_bool (v : Packed) : option bool :=
  match v with P_bool b => Some b | _ => None end.
Definition as_int (v : Packed) : option Z :=
  match v with P_int i => Some i | _ => None end.
Definition as_double (v : Packed) : option double :=
  match v with P_double x => Some x | _ => None end.
Definition as_sparsity (v : Packed) : option Sparsity :=
  match v with P_sparsity sp => Some sp | _ => None end.

(** [s.version(name, v)] when writing, and when reading, where a stored
    version other than [v] is refused. *)
Definition version_item (name : string) (v : Z) : string * Packed :=
  (name +:+ "::serialization::version", P_int v).

Definition version (name : string) (v : Z) (s : Stream) : option Stream :=
  '(load_version, s) ← unpack as_int (name +:+ "::serialization::version") s;
  if load_version =? v then Some s else None.

(** [Nlpsol::serialize_body] and the deserialising constructor of
    [Nlpsol]. *)
Variable Nlpsol_serialize_body : Nlpsol -> Stream.
Variable Nlpsol_deserialize : Stream -> option (Nlpsol * Stream).

(** [Sqpmethod::serialize_body]: what it appends to the stream. *)
Definition serialize_body (base : Nlpsol) (this : Members) : Stream :=
  Nlpsol_serialize_body base ++
  [ version_item "Sqpmethod" 1;
    ("Sqpmethod::qpsol", P_function (qpsol_ this));
    ("Sqpmethod::exact_hessian", P_bool (exact_hessian_ this));
    ("Sqpmethod::max_iter", P_int (max_iter_ this));
    ("Sqpmethod::min_iter", P_int (min_iter_ this));
    ("Sqpmethod::lbfgs_memory", P_int (lbfgs_memory_ this));
    ("Sqpmethod::tol_pr_", P_double (tol_pr_ this));
    ("Sqpmethod::tol_du_", P_double (tol_du_ this));
    ("Sqpmethod::min_step_size_", P_double (min_step_size_ this));
    ("Sqpmethod::c1", P_double (c1_ this));
    ("Sqpmethod::beta", P_double (beta_ this));
    ("Sqpmethod::max_iter_ls_", P_int (max_iter_ls_ this));
    ("Sqpmethod::merit_memsize_", P_int (merit_memsize_ this));
    ("Sqpmethod::beta", P_double (beta_ this));
    ("Sqpmethod::print_header", P_bool (print_header_ this));
    ("Sqpmethod::print_iteration", P_bool (print_iteration_ this));
    ("Sqpmethod::print_status", P_bool (print_status_ this));
    ("Sqpmethod::Hsp", P_sparsity (Hsp_ this));
    ("Sqpmethod::Asp", P_sparsity (Asp_ this));
    ("Sqpmethod::regularize", P_bool (regularize_ this)) ].

(** [Sqpmethod::Sqpmethod(DeserializingStream& s)] on the object [this]:
    the object read and the rest of the stream. *)
Definition deserialize (this : Members) (s : Stream)
    : option (Nlpsol * Members * Stream) :=
  '(base, s) ← Nlpsol_deserialize s;
  s ← version "Sqpmethod" 1 s;
  '(x, s) ← unpack as_function "Sqpmethod::qpsol" s;
  let this := set_qpsol_ x this in
  '(x, s) ← unpack as_bool "Sqpmethod::exact_hessian" s;
  let this := set_exact_hessian_ x this in
  '(x, s) ← unpack as_int "Sqpmethod::max_iter" s;
  let this := set_max_iter_ x this in
  '(x, s) ← unpack as_int "Sqpmethod::min_iter" s;
  let this := set_min_iter_ x this in
  '(x, s) ← unpack as_int "Sqpmethod::lbfgs_memory" s;
  let this := set_lbfgs_memory_ x this in
  '(x, s) ← unpack as_double "Sqpmethod::tol_pr_" s;
  let this := set_tol_pr_ x this in
  '(x, s) ← unpack as_double "Sqpmethod::tol_du_" s;
  let this := set_tol_du_ x this in
  '(x, s) ← unpack as_double "Sqpmethod::min_step_size_" s;
  let this := set_min_step_size_ x this in
  '(x, s) ← unpack as_double "Sqpmethod::c1" s;
  let this := set_c1_ x this in
  '(x, s) ← unpack as_double "Sqpmethod::beta" s;
  let this := set_beta_ x this in
  '(x, s) ← unpack as_int "Sqpmethod::max_iter_ls_" s;
  let this := set_max_iter_ls_ x this in
  '(x, s) ← unpack as_int "Sqpmethod::merit_memsize_" s;
  let this := set_merit_memsize_ x this in
  '(x, s) ← unpack as_double "Sqpmethod::beta" s;
  let this := set_beta_ x this in
  '(x, s) ← unpack as_bool "Sqpmethod::print_header" s;
  let this := set_print_header_ x this in
  '(x, s) ← unpack as_bool "Sqpmethod::print_iteration" s;
  let this := set_print_iteration_ x this in
  '(x, s) ← unpack as_bool "Sqpmethod::print_status" s;
  let this := set_print_status_ x this in
  '(x, s) ← unpack as_sparsity "Sqpmethod::Hsp" s;
  let this := set_Hsp_ x this in
  '(x, s) ← unpack as_sparsity "Sqpmethod::Asp" s;
  let this := set_Asp_ x this in
  '(x, s) ← unpack as_bool "Sqpmethod::regularize" s;
  let this := set_regularize_ x this in
  Some (base, set_sqpmethod_prob this, s).

(** *** Statistics *)

(** The construction of a [GenericType] from a string and from an
    integer. *)
Variable GenericType_string : string -> GenericType.
Variable GenericType_int : Z -> GenericType.

(** [Sqpmethod::set_work], as far as the memory fields of this model go:
    the work vectors are laid out by the base class and the runtime. *)
Definition set_work (m : SqpmethodMemory) : SqpmethodMemory :=
  set_iter_count (-1) m.

(** [Sqpmethod::get_stats]; [stats] is what [Nlpsol::get_stats] returns. *)
Definition get_stats (stats : Dict) (m : SqpmethodMemory) : Dict :=
  let stats := <["return_status" := GenericType_string (return_status m)]> stats in
  let stats := <["iter_count" := GenericType_int (iter_count m)]> stats in
  stats.

End Class.

End Setup.

(** The configuration that [solve] reads, taken from the members of the
    object and the dimensions of the base class. *)
Definition solver_of {Function Sparsity : Type} (nx ng : nat)
    (this : Setup.Members Function Sparsity) : Sqpmethod :=
  {| nx_ := nx; ng_ := ng;
     min_iter_ := Setup.min_iter_ _ _ this;
     max_iter_ := Setup.max_iter_ _ _ this;
     max_iter_ls_ := Setup.max_iter_ls_ _ _ this;
     c1_ := Setup.c1_ _ _ this;
     beta_ := Setup.beta_ _ _ this;
     merit_memsize_ := Setup.merit_memsize_ _ _ this;
     lbfgs_memory_ := Setup.lbfgs_memory_ _ _ this;
     tol_pr_ := Setup.tol_pr_ _ _ this;
     tol_du_ := Setup.tol_du_ _ _ this;
     regularize_ := Setup.regularize_ _ _ this;
     exact_hessian_ := Setup.exact_hessian_ _ _ this;
     min_step_size_ := Setup.min_step_size_ _ _ this |}.

(** An instance of the set-up: functions are known by name, a sparsity
    pattern by where it comes from, the base class by its [nx_], and an
    option value is an integer, a double, a boolean or a string. *)
Module SetupExample.

Inductive GenericType :=
| G_int (i : Z)
| G_double (x : double)
| G_bool (b : bool)
| G_string (s : string).

Definition to_int (v : GenericType) : option Z :=
  match v with G_int i => Some i | _ => None end.
Definition to_double (v : GenericType) : option double :=
  match v with G_double x => Some x | G_int i => Some (of_Z i) | _ => None end.
Definition to_bool (v : GenericType) : option bool :=
  match v with G_bool b => Some b | _ => None end.
Definition to_string (v : GenericType) : option string :=
  match v with G_string s => Some s | _ => None end.
Definition to_dict (v : GenericType) : option (gmap string GenericType) := None.

Definition Sparsity : Type := string * Z * Z.

Definition Nlpsol_init (_ : gmap string GenericType) : string + Z := inr 1.
Definition nx_ (base : Z) : Z := base.
Definition create_function (fname : string) (_ _ : list string)
    (_ : list (string * list string)) : string := fname.
Definition sparsity_out (f : string) (i : Z) : Sparsity := (f, i, 0).
Definition Sparsity_dense (n m : Z) : Sparsity := ("dense", n, m).
Definition conic (_ solver : string) (_ _ : Sparsity)
    (_ : gmap string GenericType) : string + string := inr solver.
Definition calc (_ : Z) : bool := false.

Definition Nlpsol_serialize_body (base : Z)
    : list (string * Setup.Packed string Sparsity) :=
  [("Nlpsol::nx", Setup.P_int string Sparsity base)].
Definition Nlpsol_deserialize (s : list (string * Setup.Packed string Sparsity))
    : option (Z * list (string * Setup.Packed string Sparsity)) :=
  Setup.unpack string Sparsity (Setup.as_int string Sparsity) "Nlpsol::nx" s.

Definition init :=
  Setup.init string Sparsity GenericType Z to_int to_double to_bool to_string
    to_dict Nlpsol_init nx_ create_function sparsity_out Sparsity_dense conic.

(** An object that holds nothing of interest yet. *)
Definition blank : Setup.Members string Sparsity :=
  {| Setup.qpsol_ := ""; Setup.exact_hessian_ := false;
     Setup.max_iter_ := 0; Setup.min_iter_ := 0; Setup.lbfgs_memory_ := 0;
     Setup.tol_pr_ := zero; Setup.tol_du_ := zero;
     Setup.min_step_size_ := zero; Setup.c1_ := zero; Setup.beta_ := zero;
     Setup.max_iter_ls_ := 0; Setup.merit_memsize_ := 0;
     Setup.print_header_ := false; Setup.print_iteration_ := false;
     Setup.print_status_ := false;
     Setup.Hsp_ := ("", 0, 0); Setup.Asp_ := ("", 0, 0);
     Setup.regularize_ := false;
     Setup.p_ := {| Setup.sp_h := ("", 0, 0); Setup.sp_a := ("", 0, 0);
                    Setup.merit_memsize := 0; Setup.max_iter_ls := 0 |} |}.

(** Limited-memory Hessian, no line search, seven iterations at most. *)
Definition bfgs_nols : gmap string GenericType :=
  <["hessian_approximation" := G_string "limited-memory"]>
    (<["max_iter_ls" := G_int 0]>
       (<["max_iter" := G_int 7]> ∅)).

(** An iteration limit given as a string. *)
Definition bad_max_iter : gmap string GenericType :=
  <["max_iter" := G_string "7"]> ∅.

End SetupExample.

(** * Properties *)

(** ** Order facts on binary64 *)

Section DblFacts.

Lemma compare_refl (x : double) : is_nan x = false -> SFcompare x x = Some Eq.
Proof.
  destruct x as [s|s| |s m e]; simpl; try done; intros _.
  - by destruct s.
  - destruct s; rewrite Z.compare_refl; fold (Pos.compare m m);
      by rewrite Pos.compare_refl.
Qed.

Lemma leb_refl (x : double) : is_nan x = false -> (x <=? x)%dbl = true.
Proof. intros H. unfold leb, SFleb. by rewrite compare_refl. Qed.

Lemma leb_trans (x y w : double) :
  (x <=? y)%dbl = true -> (y <=? w)%dbl = true -> (x <=? w)%dbl = true.
Proof.
  unfold leb, SFleb.
  destruct x as [sx|sx| |sx mx ex], y as [sy|sy| |sy my ey],
           w as [sw|sw| |sw mw ew];
    simpl; try done;
    try (destruct sx; try done); try (destruct sy; try done);
    try (destruct sw; try done).
  all: fold (Pos.compare mx my); fold (Pos.compare my mw);
    fold (Pos.compare mx mw).
  all: destruct (Z.compare_spec ex ey), (Z.compare_spec ey ew),
    (Z.compare_spec ex ew); try done; try lia; subst.
  all: destruct (Pos.compare_spec mx my), (Pos.compare_spec my mw),
    (Pos.compare_spec mx mw); simpl; try done; try lia.
Qed.

Lemma ltb_leb (x y : double) : (x <? y)%dbl = true -> (x <=? y)%dbl = true.
Proof. unfold ltb, leb, SFltb, SFleb. by destruct (SFcompare x y) as [[]|]. Qed.


Lemma fmax_not_nan (x y : double) : is_nan x = false -> is_nan (fmax x y) = false.
Proof.
  intros Hx. unfold fmax. rewrite Hx.
  destruct (is_nan y) eqn:Hy; [done|]. by destruct (x <? y)%dbl.
Qed.

Lemma fmax_ge_l (x y : double) :
  is_nan x = false -> (x <=? fmax x y)%dbl = true.
Proof.
  intros Hx. unfold fmax. rewrite Hx.
  destruct (is_nan y); [by apply leb_refl|].
  destruct (x <? y)%dbl eqn:Hlt; [by apply ltb_leb | by apply leb_refl].
Qed.

Lemma leb_total (x y : double) :
  is_nan x = false -> is_nan y = false ->
  (x <? y)%dbl = false -> (y <=? x)%dbl = true.
Proof.
  unfold ltb, leb, SFltb, SFleb.
  destruct x as [sx|sx| |sx mx ex], y as [sy|sy| |sy my ey];
    simpl; try done;
    try (destruct sx; try done); try (destruct sy; try done).
  all: intros _ _; fold (Pos.compare mx my); fold (Pos.compare my mx).
  all: destruct (Z.compare_spec ex ey), (Z.compare_spec ey ex);
    try done; try lia; subst.
  all: destruct (Pos.compare_spec mx my), (Pos.compare_spec my mx);
    simpl; try done; try lia.
Qed.

Lemma fmax_ge_r (x y : double) :
  is_nan x = false -> is_nan y = false -> (y <=? fmax x y)%dbl = true.
Proof.
  intros Hx Hy. unfold fmax. rewrite Hx, Hy.
  destruct (x <? y)%dbl eqn:Hlt; [by apply leb_refl | by apply leb_total].
Qed.

Lemma fmax_cases (x y : double) : fmax x y = x \/ fmax x y = y.
Proof.
  unfold fmax. destruct (is_nan x); [by right|].
  destruct (is_nan y); [by left|]. destruct (x <? y)%dbl; auto.
Qed.

(** Without NaNs a left fold of [fmax] is the maximum of the seed and the
    list. *)
Lemma foldl_fmax_max (l : vec) (r : double) :
  is_nan r = false -> Forall (fun x => is_nan x = false) l ->
  is_nan (foldl fmax r l) = false /\
  Forall (fun x => (x <=? foldl fmax r l)%dbl = true) (r :: l) /\
  foldl fmax r l ∈ r :: l.
Proof.
  revert r. induction l as [|a l IH]; intros r Hr Hl; simpl.
  - split; [done|]. split; [|by left].
    constructor; [by apply leb_refl|constructor].
  - inversion Hl as [|? ? Ha Hl']; subst.
    destruct (IH (fmax r a)) as (Hn & Hall & Hin);
      [by apply fmax_not_nan | done |].
    inversion Hall as [|? ? Hra Hall']; subst.
    split; [done|]. split.
    + constructor; [|constructor; [|done]].
      * apply (leb_trans _ (fmax r a)); [by apply fmax_ge_l | done].
      * apply (leb_trans _ (fmax r a)); [by apply fmax_ge_r | done].
    + apply elem_of_cons in Hin as [Heq|Hin].
      * rewrite Heq. destruct (fmax_cases r a) as [-> | ->];
          [by left | right; by left].
      * right; by right.
Qed.

(** [fmin(0, y)] is never positive. *)
Lemma fmin_zero_not_pos (y : double) : (zero <? fmin zero y)%dbl = false.
Proof.
  unfold fmin; simpl.
  destruct (is_nan y); [done|].
  destruct (y <? zero)%dbl eqn:Hlt; [|done].
  destruct y as [s|s| |s m e]; try done; by destruct s.
Qed.

Lemma fmin_zero_nonpos (y : double) : (fmin zero y <=? zero)%dbl = true.
Proof.
  unfold fmin; simpl.
  destruct (is_nan y); [done|].
  destruct (y <? zero)%dbl eqn:Hlt; [by apply ltb_leb | done].
Qed.

End DblFacts.

(** ** Facts on the runtime primitives *)

Section KernelFacts.

Lemma bfgs_reset_is_identity (B : mat) : is_identity (casadi_bfgs_reset B).
Proof.
  intros i j row b Hrow Hb. unfold casadi_bfgs_reset in Hrow.
  rewrite list_lookup_imap in Hrow.
  destruct (B !! i) as [r|]; simpl in Hrow; [|done].
  injection Hrow as <-. rewrite list_lookup_imap in Hb.
  destruct (r !! j); simpl in Hb; [|done]. by injection Hb as <-.
Qed.

Lemma bfgs_reset_length (B : mat) : length (casadi_bfgs_reset B) = length B.
Proof. unfold casadi_bfgs_reset. by rewrite length_imap. Qed.


Lemma lookup_axpy (n : nat) (alpha : double) (x y : vec) (i : nat)
    (xi yi : double) :
  (i < n)%nat -> x !! i = Some xi -> y !! i = Some yi ->
  casadi_axpy n alpha x y !! i = Some (yi + alpha * xi)%dbl.
Proof.
  intros Hi Hx Hy. unfold casadi_axpy.
  assert (Hlx : (i < length x)%nat) by by eapply lookup_lt_Some.
  assert (Hly : (i < length y)%nat) by by eapply lookup_lt_Some.
  rewrite lookup_app_l by (rewrite length_zip_with, !length_take; lia).
  rewrite lookup_zip_with, !lookup_take_lt, Hx, Hy by lia. done.
Qed.

Lemma lookup_copy (x : vec) (n : nat) (y : vec) (i : nat) (xi : double) :
  (i < n)%nat -> x !! i = Some xi -> casadi_copy x n y !! i = Some xi.
Proof.
  intros Hi Hx. unfold casadi_copy.
  assert (Hlx : (i < length x)%nat) by by eapply lookup_lt_Some.
  rewrite lookup_app_l by (rewrite length_take; lia).
  by rewrite lookup_take_lt by lia.
Qed.

End KernelFacts.

(** ** The driver *)

Section SolveFacts.

Variable self : Sqpmethod.
Variable nlp_jac_fg : vec -> vec -> option (double * vec * vec * mat).
Variable nlp_hess_l : vec -> vec -> double -> vec -> option mat.
Variable nlp_fg : vec -> vec -> option (double * vec).
Variable qpsol : ConicIn -> Z * ConicOut.
Variable callback : SqpmethodMemory -> bool.

Let nx := nx_ self.
Let ng := ng_ self.

Local Abbreviation eval_jac_fg := (Sqp.eval_jac_fg self nlp_jac_fg).
Local Abbreviation lagrangian_gradient := (Sqp.lagrangian_gradient self).
Local Abbreviation check_convergence := (Sqp.check_convergence self).
Local Abbreviation regularization := (Sqp.regularization self).
Local Abbreviation hessian := (Sqp.hessian self nlp_hess_l).
Local Abbreviation formulate_qp := (Sqp.formulate_qp self).
Local Abbreviation solve_QP := (Sqp.solve_QP self qpsol).
Local Abbreviation merit_update := (Sqp.merit_update self).
Local Abbreviation ls_body := (Sqp.ls_body self nlp_fg).
Local Abbreviation ls_loop := (Sqp.ls_loop self nlp_fg).
Local Abbreviation accept_candidate := (Sqp.accept_candidate self).
Local Abbreviation full_step := (Sqp.full_step self).
Local Abbreviation line_search := (Sqp.line_search self nlp_fg).
Local Abbreviation take_step := (Sqp.take_step self).
Local Abbreviation iteration_head := (Sqp.iteration_head self nlp_jac_fg callback).
Local Abbreviation iteration_tail := (Sqp.iteration_tail self nlp_hess_l nlp_fg qpsol).
Local Abbreviation iteration := (Sqp.iteration self nlp_jac_fg nlp_hess_l nlp_fg qpsol callback).
Local Abbreviation main_loop := (Sqp.main_loop self nlp_jac_fg nlp_hess_l nlp_fg qpsol callback).
Local Abbreviation solve_init := (Sqp.solve_init self).
Local Abbreviation solve := (Sqp.solve self nlp_jac_fg nlp_hess_l nlp_fg qpsol callback).
Local Abbreviation trace := (Sqp.trace self nlp_jac_fg nlp_hess_l nlp_fg qpsol callback).
Local Abbreviation candidate := (Sqp.candidate self).
Local Abbreviation armijo := (Sqp.armijo self).
Local Abbreviation evaluations_succeed := (Sqp.evaluations_succeed self nlp_fg).

(** *** What each block leaves untouched *)

Lemma eval_jac_fg_scalars (m m' : SqpmethodMemory) :
  eval_jac_fg m = Some m' -> same_scalars m m'.
Proof.
  unfold Sqp.eval_jac_fg.
  destruct nlp_jac_fg as [[[[? ?] ?] ?]|]; [|done].
  intros [= <-]. by repeat split.
Qed.

Lemma ls_body_mem (meritmax L1dir : double) (s : State) :
  exists zc, forall s',
    (ls_body meritmax L1dir s = LsBreak s' \/
     ls_body meritmax L1dir s = LsContinue s') ->
    mem s' = upd_d (set_z_cand zc) (mem s) /\ ls_iter s' = ls_iter s + 1.
Proof.
  unfold Sqp.ls_body.
  destruct nlp_fg as [[fk g]|].
  - eexists. intros s'.
    repeat match goal with |- context [if ?b then _ else _] => destruct b end;
      intros [[=]|[=]]; subst s'; simpl; split; reflexivity.
  - eexists. intros s' [[=]|[=]]; subst s'; simpl; split; reflexivity.
Qed.

Lemma ls_loop_mem (fuel : nat) (meritmax L1dir : double) (s s' : State) :
  ls_loop fuel meritmax L1dir s = Some s' ->
  exists zc, mem s' = upd_d (set_z_cand zc) (mem s).
Proof.
  revert s. induction fuel as [|fuel IH]; intros s; simpl; [done|].
  destruct (ls_body_mem meritmax L1dir s) as [zc Hzc].
  destruct (ls_body meritmax L1dir s) as [s1|s1] eqn:Hb.
  - intros [= <-]. exists zc. apply Hzc. by left.
  - intros Hl. destruct (IH _ Hl) as [zc' ->].
    destruct (Hzc s1) as [-> _]; [by right|]. by exists zc'.
Qed.

Lemma hessian_frame (m m' : SqpmethodMemory) :
  hessian m = Some m' ->
  d_nlp m' = d_nlp m /\ iter_count m' = iter_count m /\
  merit_ind m' = merit_ind m /\ sigma m' = sigma m /\
  return_status m' = return_status m /\ success m' = success m.
Proof.
  unfold Sqp.hessian, Sqp.regularization.
  repeat match goal with
         | |- context [if ?b then _ else _] => destruct b
         | |- context [match nlp_hess_l ?a ?b ?c ?e with _ => _ end] =>
             destruct (nlp_hess_l a b c e)
         end; intros [= <-]; by repeat split.
Qed.

(** How [line_search] comes to its result. *)
Lemma line_search_inv (ls_fuel : nat) (m : SqpmethodMemory) (s' : State) :
  line_search ls_fuel m = Some s' ->
  (0 < max_iter_ls_ self /\
   exists sa zc,
     s' = accept_candidate sa /\
     ls_loop ls_fuel (merit_update m).1.2 (merit_update m).2
       {| mem := (merit_update m).1.1; ls_iter := 0; ls_success := true;
          t := one |} = Some sa /\
     mem sa = upd_d (set_z_cand zc) (merit_update m).1.1) \/
  (max_iter_ls_ self <= 0 /\
   s' = full_step {| mem := m; ls_iter := 0; ls_success := true; t := one |}).
Proof.
  unfold Sqp.line_search.
  destruct (0 <? max_iter_ls_ self) eqn:Hls.
  - destruct (merit_update m) as [[m1 mm] L1dir] eqn:Hmu. simpl.
    unfold set_mem; simpl.
    destruct (ls_loop ls_fuel mm L1dir _) as [sa|] eqn:Hl; [|done].
    intros [= <-]. left. split; [lia|].
    destruct (ls_loop_mem _ _ _ _ _ Hl) as [zc Hzc].
    by exists sa, zc.
  - intros [= <-]. right. split; [lia|done].
Qed.

Lemma line_search_sigma (ls_fuel : nat) (m : SqpmethodMemory) (s' : State) :
  line_search ls_fuel m = Some s' ->
  return_status (mem s') = return_status m /\
  (sigma (mem s') = sigma m \/
   sigma (mem s')
   = fmax (sigma m) (lit 101 100 * casadi_norm_inf (nx + ng) (dlam (d m)))%dbl).
Proof.
  intros H. apply line_search_inv in H as [[_ (sa & zc & -> & _ & Hm)]|[_ ->]].
  - unfold Sqp.accept_candidate; simpl. rewrite Hm. simpl. split; [done|by right].
  - split; [done|by left].
Qed.

Lemma iteration_head_frame (s : State) :
  sigma (mem (flow_state (iteration_head s))) = sigma (mem s) /\
  iter_count (mem (flow_state (iteration_head s))) = iter_count (mem s).
Proof.
  unfold Sqp.iteration_head.
  destruct (eval_jac_fg (mem s)) as [m|] eqn:He; [|done].
  apply eval_jac_fg_scalars in He as (Hi & _ & Hs & _).
  destruct (callback _); [done|].
  unfold Sqp.check_convergence.
  repeat match goal with |- context [if ?b then _ else _] => destruct b end;
    done.
Qed.

Lemma iteration_tail_inv (ls_fuel : nat) (s : State) (fl : Flow) :
  iteration_tail ls_fuel s = Some fl ->
  (hessian (mem s) = None /\ fl = Return 1 s) \/
  (exists s', fl = Continue s' /\
     return_status (mem s') = return_status (mem s) /\
     (sigma (mem s') = sigma (mem s) \/
      exists dl, sigma (mem s')
        = fmax (sigma (mem s)) (lit 101 100 * casadi_norm_inf (nx + ng) dl)%dbl)).
Proof.
  unfold Sqp.iteration_tail.
  destruct (hessian (mem s)) as [m|] eqn:Hh.
  - apply hessian_frame in Hh as (_ & _ & _ & Hs & Hr & _).
    destruct (solve_QP _ _ _ _ _ _ _) as [dx' dlam'].
    destruct (line_search _ _) as [s'|] eqn:Hl; [|done].
    intros [= <-]. right. eexists; split; [done|].
    apply line_search_sigma in Hl as [Hr' Hl]. simpl in Hl, Hr'.
    unfold Sqp.take_step. destruct (exact_hessian_ self); simpl;
      (split; [congruence|]);
      (destruct Hl as [->| ->]; [left | right; eexists]; by rewrite Hs).
  - intros [= <-]. by left.
Qed.

(** *** The run as a sequence of states *)

Lemma trace_head (ls_fuel fuel : nat) (s : State) :
  trace ls_fuel fuel s !! 0%nat = Some s.
Proof. by destruct fuel. Qed.

(** The run's last state is the one [main_loop] returns. *)
Lemma main_loop_last (ls_fuel fuel : nat) (s : State) (code : Z) (s' : State) :
  main_loop ls_fuel fuel s = Some (code, s') ->
  last (trace ls_fuel fuel s) = Some s'.
Proof.
  revert s. induction fuel as [|fuel IH]; intros s; simpl; [done|].
  destruct (iteration ls_fuel s) as [[s1|s1|c s1]|]; try done.
  - by intros [= _ <-].
  - intros H. apply IH in H. rewrite last_cons, H. done.
  - by intros [= _ <-].
Qed.


(** *** Convergence tests *)

Lemma iteration_head_Break_inv (s s' : State) :
  iteration_head s = Break s' ->
  exists m1,
    eval_jac_fg (mem s) = Some m1 /\
    let m := upd_d (set_gLag (lagrangian_gradient m1 (gLag (d m1)))) m1 in
    (callback m = true /\
     s' = set_mem (set_return_status "User_Requested_Stop" m) s) \/
    (callback m = false /\
     exists m',
       check_convergence m
         (casadi_max_viol (nx + ng) (z (d_nlp m)) (lbz (d_nlp m)) (ubz (d_nlp m)))
         (casadi_norm_inf nx (gLag (d m)))
         (casadi_norm_inf nx (dx (d m))) = Some m' /\
       s' = set_mem m' s).
Proof.
  unfold Sqp.iteration_head.
  destruct (eval_jac_fg (mem s)) as [m1|]; [|done].
  intros H. exists m1. split; [done|]. simpl.
  destruct (callback _) eqn:Hcb.
  - left. by injection H as <-.
  - right. split; [done|].
    destruct (check_convergence _ _ _ _) as [m'|]; [|done].
    injection H as <-. by exists m'.
Qed.

Lemma check_convergence_succeeded (m m' : SqpmethodMemory)
    (pr_inf du_inf dx_norminf : double) :
  check_convergence m pr_inf du_inf dx_norminf = Some m' ->
  return_status m' = "Solve_Succeeded" ->
  min_iter_ self <= iter_count m /\
  (pr_inf <? tol_pr_ self)%dbl = true /\ (du_inf <? tol_du_ self)%dbl = true /\
  m' = set_success true (set_return_status "Solve_Succeeded" m).
Proof.
  unfold Sqp.check_convergence.
  destruct (min_iter_ self <=? iter_count m) eqn:H1; simpl.
  2: { repeat match goal with |- context [if ?b then _ else _] => destruct b end;
         try done; by intros [= <-]. }
  destruct (pr_inf <? tol_pr_ self)%dbl; simpl.
  2: { repeat match goal with |- context [if ?b then _ else _] => destruct b end;
         try done; by intros [= <-]. }
  destruct (du_inf <? tol_du_ self)%dbl; simpl.
  2: { repeat match goal with |- context [if ?b then _ else _] => destruct b end;
         try done; by intros [= <-]. }
  intros [= <-] _. repeat split; [lia|done..].
Qed.

Lemma iteration_Break_inv (ls_fuel : nat) (s s' : State) :
  iteration ls_fuel s = Some (Break s') -> iteration_head s = Break s'.
Proof.
  unfold Sqp.iteration.
  destruct (iteration_head s) as [s1|s1|c s1]; try by intros [= <-].
  intros H. by apply iteration_tail_inv in H as [[_ ?]|(? & ? & _)].
Qed.

(** The only [return] inside the loop is [return 1], after a failed
    [nlp_jac_fg] or a failed [nlp_hess_l]. *)
Lemma iteration_Return_inv (ls_fuel : nat) (s s' : State) (code : Z) :
  iteration ls_fuel s = Some (Return code s') ->
  code = 1 /\
  ((eval_jac_fg (mem s) = None /\ s' = s) \/
   (iteration_head s = Continue s' /\ hessian (mem s') = None)).
Proof.
  unfold Sqp.iteration.
  destruct (iteration_head s) as [s1|s1|c s1] eqn:Hh; try done.
  - intros H. apply iteration_tail_inv in H as [[Hn [= -> ->]]|(? & ? & _)];
      [|done]. split; [done|]. by right.
  - intros [= -> ->]. unfold Sqp.iteration_head in Hh.
    destruct (eval_jac_fg (mem s)).
    + destruct (callback _); [done|]. by destruct (check_convergence _ _ _ _).
    + injection Hh as <- <-. split; [done|]. by left.
Qed.

(** A run that breaks out with "Solve_Succeeded" passed the first test on
    the iterate it returns. *)
Lemma main_loop_succeeded (ls_fuel fuel : nat) (s sfin : State) :
  main_loop ls_fuel fuel s = Some (0, sfin) ->
  return_status (mem sfin) = "Solve_Succeeded" ->
  let m := mem sfin in
  min_iter_ self <= iter_count m /\
  (casadi_max_viol (nx + ng) (z (d_nlp m)) (lbz (d_nlp m)) (ubz (d_nlp m))
     <? tol_pr_ self)%dbl = true /\
  (casadi_norm_inf nx (gLag (d m)) <? tol_du_ self)%dbl = true /\
  success m = true.
Proof.
  revert s. induction fuel as [|fuel IH]; intros s; simpl; [done|].
  destruct (iteration ls_fuel s) as [[s1|s1|c s1]|] eqn:Hit; try done.
  - intros [= <-] Hst.
    apply iteration_Break_inv, iteration_head_Break_inv in Hit
      as (m1 & _ & [[_ ->]|[_ (m' & Hc & ->)]]); [done|].
    simpl in Hst.
    by apply check_convergence_succeeded in Hc as (? & ? & ? & ->).
  - apply IH.
  - intros [= -> <-]. by apply iteration_Return_inv in Hit as [[=] _].
Qed.

(** C3.  Once [nlp_jac_fg] has succeeded and the callback has not asked
    to stop, the three tests are applied in this order: (1) iter_count >=
    min_iter, pr_inf < tol_pr and du_inf < tol_du end the loop with
    "Solve_Succeeded" and success = true; (2) otherwise iter_count >=
    max_iter ends it with "Maximum_Iterations_Exceeded" and
    SOLVER_RET_LIMITED; (3) otherwise iter_count >= 1, iter_count >=
    min_iter and norm_inf(dx) <= min_step_size end it with
    "Search_Direction_Becomes_Too_Small"; otherwise the pass goes on.
    Every such end makes [solve]'s loop return 0.  And a run ending with
    code 0 and "Solve_Succeeded" has pr_inf < tol_pr and du_inf < tol_du
    on the iterate it returns. *)
Theorem convergence_tests_in_order (s : State) (m1 : SqpmethodMemory) :
  eval_jac_fg (mem s) = Some m1 ->
  let m := upd_d (set_gLag (lagrangian_gradient m1 (gLag (d m1)))) m1 in
  let pr_inf :=
    casadi_max_viol (nx + ng) (z (d_nlp m)) (lbz (d_nlp m)) (ubz (d_nlp m)) in
  let du_inf := casadi_norm_inf nx (gLag (d m)) in
  let dx_norminf := casadi_norm_inf nx (dx (d m)) in
  let k := iter_count (mem s) in
  let test1 :=
    (min_iter_ self <=? k) && (pr_inf <? tol_pr_ self)%dbl
      && (du_inf <? tol_du_ self)%dbl in
  let test2 := max_iter_ self <=? k in
  let test3 :=
    (1 <=? k) && (min_iter_ self <=? k)
      && (dx_norminf <=? min_step_size_ self)%dbl in
  callback m = false ->
  (test1 = true ->
   forall ls_fuel fuel,
     main_loop ls_fuel (S fuel) s
     = Some (0, set_mem (set_success true
                           (set_return_status "Solve_Succeeded" m)) s)) /\
  (test1 = false -> test2 = true ->
   forall ls_fuel fuel,
     main_loop ls_fuel (S fuel) s
     = Some (0, set_mem (set_unified_return_status SOLVER_RET_LIMITED
                           (set_return_status "Maximum_Iterations_Exceeded" m)) s)) /\
  (test1 = false -> test2 = false -> test3 = true ->
   forall ls_fuel fuel,
     main_loop ls_fuel (S fuel) s
     = Some (0, set_mem (set_return_status
                           "Search_Direction_Becomes_Too_Small" m) s)) /\
  (test1 = false -> test2 = false -> test3 = false ->
   iteration_head s = Continue (set_mem m s)) /\
  (forall ls_fuel fuel sfin,
     main_loop ls_fuel fuel s = Some (0, sfin) ->
     return_status (mem sfin) = "Solve_Succeeded" ->
     (casadi_max_viol (nx + ng) (z (d_nlp (mem sfin))) (lbz (d_nlp (mem sfin)))
        (ubz (d_nlp (mem sfin))) <? tol_pr_ self)%dbl = true /\
     (casadi_norm_inf nx (gLag (d (mem sfin))) <? tol_du_ self)%dbl = true).
Proof.
  intros He m pr_inf du_inf dx_norminf k test1 test2 test3 Hcb.
  assert (Hk : iter_count m = k).
  { apply eval_jac_fg_scalars in He as (Hi & _). exact Hi. }
  assert (Hhead : iteration_head s
                  = match check_convergence m pr_inf du_inf dx_norminf with
                    | Some m' => Break (set_mem m' s)
                    | None => Continue (set_mem m s)
                    end).
  { unfold Sqp.iteration_head. rewrite He. fold m. by rewrite Hcb. }
  assert (Hcc : check_convergence m pr_inf du_inf dx_norminf
                = if test1 then
                    Some (set_success true (set_return_status "Solve_Succeeded" m))
                  else if test2 then
                    Some (set_unified_return_status SOLVER_RET_LIMITED
                            (set_return_status "Maximum_Iterations_Exceeded" m))
                  else if test3 then
                    Some (set_return_status "Search_Direction_Becomes_Too_Small" m)
                  else None).
  { unfold Sqp.check_convergence. by rewrite Hk. }
  rewrite Hcc in Hhead.
  repeat split.
  - intros H1 ls_fuel fuel. simpl. unfold Sqp.iteration.
    by rewrite Hhead, H1.
  - intros H1 H2 ls_fuel fuel. simpl. unfold Sqp.iteration.
    by rewrite Hhead, H1, H2.
  - intros H1 H2 H3 ls_fuel fuel. simpl. unfold Sqp.iteration.
    by rewrite Hhead, H1, H2, H3.
  - intros H1 H2 H3. by rewrite Hhead, H1, H2, H3.
  - by eapply main_loop_succeeded.
  - by eapply main_loop_succeeded.
Qed.

(** *** The line search *)

(** The three ways a pass of the backtracking loop can go. *)
Lemma ls_body_cases (meritmax L1dir : double) (s : State) :
  let x := take nx (candidate s) in
  let v := p (d_nlp (mem s)) in
  (exists fk g s',
      nlp_fg x v = Some (fk, g) /\ armijo meritmax L1dir s fk g = true /\
      ls_body meritmax L1dir s = LsBreak s' /\
      t s' = t s /\ ls_success s' = ls_success s /\ ls_iter s' = ls_iter s + 1) \/
  (exists fk g s',
      nlp_fg x v = Some (fk, g) /\ armijo meritmax L1dir s fk g = false /\
      ls_body meritmax L1dir s = LsBreak s' /\
      t s' = t s /\ ls_success s' = false /\ ls_iter s' = max_iter_ls_ self /\
      ls_iter s' = ls_iter s + 1) \/
  (exists s',
      (nlp_fg x v = None \/
       exists fk g, nlp_fg x v = Some (fk, g) /\
                    armijo meritmax L1dir s fk g = false /\
                    ls_iter s + 1 <> max_iter_ls_ self) /\
      ls_body meritmax L1dir s = LsContinue s' /\
      t s' = (beta_ self * t s)%dbl /\ ls_success s' = ls_success s /\
      ls_iter s' = ls_iter s + 1).
Proof.
  intros x v. subst x v. unfold Sqp.ls_body, Sqp.armijo, Sqp.candidate.
  fold nx ng.
  destruct (nlp_fg _ _) as [[fk g]|].
  - destruct (_ <=? _)%dbl eqn:Ha.
    + left. by eexists fk, g, _.
    + destruct (ls_iter s + 1 =? max_iter_ls_ self) eqn:Hi.
      * right; left. eexists fk, g, _.
        repeat split; simpl; try done; lia.
      * right; right. eexists. split; [|done].
        right. exists fk, g. repeat split; try done. lia.
  - right; right. eexists. split; [by left|done].
Qed.


(** *** Evaluation failures *)

(** C7.  A failing [nlp_jac_fg] makes the loop return 1 at once; so does a
    failing [nlp_hess_l] when the pass reaches the exact-Hessian step.  A
    failing [nlp_fg] on a line-search candidate does not end anything:
    the pass multiplies t by beta, leaves ls_success alone, and the
    backtracking loop goes round again. *)
Theorem evaluation_failure_disposition :
  (forall (ls_fuel fuel : nat) (s : State),
      nlp_jac_fg (take nx (z (d_nlp (mem s)))) (p (d_nlp (mem s))) = None ->
      main_loop ls_fuel (S fuel) s = Some (1, s)) /\
  (forall (ls_fuel fuel : nat) (s s1 : State),
      iteration_head s = Continue s1 ->
      exact_hessian_ self = true ->
      nlp_hess_l (take nx (z (d_nlp (mem s1)))) (p (d_nlp (mem s1))) one
        (drop nx (lam (d_nlp (mem s1)))) = None ->
      main_loop ls_fuel (S fuel) s = Some (1, s1)) /\
  (forall (fuel : nat) (meritmax L1dir : double) (s : State),
      nlp_fg (take nx (candidate s)) (p (d_nlp (mem s))) = None ->
      exists s',
        ls_body meritmax L1dir s = LsContinue s' /\
        t s' = (beta_ self * t s)%dbl /\
        ls_iter s' = ls_iter s + 1 /\
        ls_success s' = ls_success s /\
        ls_loop (S fuel) meritmax L1dir s = ls_loop fuel meritmax L1dir s').
Proof.
  split; [|split].
  - intros ls_fuel fuel s Hj. simpl.
    unfold Sqp.iteration, Sqp.iteration_head, Sqp.eval_jac_fg.
    fold nx. by rewrite Hj.
  - intros ls_fuel fuel s s1 Hh Hex Hl. simpl.
    unfold Sqp.iteration. rewrite Hh.
    unfold Sqp.iteration_tail, Sqp.hessian. fold nx. by rewrite Hex, Hl.
  - intros fuel meritmax L1dir s Hf.
    destruct (ls_body_cases meritmax L1dir s)
      as [(fk & g & s' & Hs & _)
         |[(fk & g & s' & Hs & _)
          |(s' & _ & Hb & ? & ? & ?)]]; try congruence.
    exists s'. repeat split; try done. simpl. by rewrite Hb.
Qed.

(** With every evaluation succeeding the loop stops by the time [ls_iter]
    reaches [max_iter_ls]. *)
Lemma ls_loop_terminates (k : nat) (meritmax L1dir : double) (s : State) :
  evaluations_succeed k meritmax L1dir s ->
  ls_iter s + Z.of_nat k = max_iter_ls_ self -> (0 < k)%nat ->
  exists s', ls_loop k meritmax L1dir s = Some s' /\
             ls_iter s < ls_iter s' <= max_iter_ls_ self.
Proof.
  revert s. induction k as [|k IH]; intros s Hok Hk Hpos; [lia|].
  simpl in Hok |- *. destruct Hok as [[r Hev] Hok].
  destruct (ls_body_cases meritmax L1dir s)
    as [(fk & g & s' & _ & _ & Hb & _ & _ & Hi)
       |[(fk & g & s' & _ & _ & Hb & _ & _ & _ & Hi)
        |(s' & Hwhy & Hb & _ & _ & Hi)]]; rewrite Hb in Hok |- *.
  - exists s'. split; [done|lia].
  - exists s'. split; [done|lia].
  - destruct Hwhy as [Hn|(fk & g & _ & _ & Hne)];
      [fold nx in Hev; congruence|].
    destruct k as [|k]; [lia|].
    destruct (IH s') as (s'' & Hl & Hbd); [done|lia|lia|].
    exists s''. split; [done|lia].
Qed.

(** C10.  If every [nlp_fg] evaluation the loop makes succeeds, the
    backtracking loop entered with ls_iter = 0 stops within max_iter_ls
    passes (ls_iter goes up by one in each pass).  The bound needs the evaluations to succeed:
    a pass whose [nlp_fg] fails also raises ls_iter but skips the test
    against max_iter_ls, and once ls_iter has reached max_iter_ls a later
    pass can leave the loop only through the Armijo test; with [nlp_fg]
    failing every time the loop never stops. *)
Theorem line_search_bound_needs_evaluation_success
    (meritmax L1dir : double) :
  (forall s : State,
      evaluations_succeed (Z.to_nat (max_iter_ls_ self)) meritmax L1dir s ->
      ls_iter s = 0 -> 0 < max_iter_ls_ self ->
      exists s',
        ls_loop (Z.to_nat (max_iter_ls_ self)) meritmax L1dir s = Some s' /\
        0 < ls_iter s' <= max_iter_ls_ self) /\
  (forall s : State,
      nlp_fg (take nx (candidate s)) (p (d_nlp (mem s))) = None ->
      exists s', ls_body meritmax L1dir s = LsContinue s' /\
                 ls_iter s' = ls_iter s + 1) /\
  (forall s s' : State,
      max_iter_ls_ self <= ls_iter s ->
      ls_body meritmax L1dir s = LsBreak s' ->
      exists fk g,
        nlp_fg (take nx (candidate s)) (p (d_nlp (mem s))) = Some (fk, g) /\
        armijo meritmax L1dir s fk g = true) /\
  (forall (fuel : nat) (s : State),
      (forall x v, nlp_fg x v = None) ->
      ls_loop fuel meritmax L1dir s = None).
Proof.
  split; [|split; [|split]].
  - intros s Hok H0 Hpos.
    destruct (ls_loop_terminates (Z.to_nat (max_iter_ls_ self)) meritmax L1dir s)
      as (s' & Hl & Hb); [done|lia|lia|].
    exists s'. split; [done|lia].
  - intros s Hf.
    destruct (ls_body_cases meritmax L1dir s)
      as [(fk & g & s' & Hs & _)
         |[(fk & g & s' & Hs & _)
          |(s' & _ & Hb & _ & _ & ?)]]; try congruence.
    by exists s'.
  - intros s s' Hge Hb.
    destruct (ls_body_cases meritmax L1dir s)
      as [(fk & g & s1 & Hs & Ha & _)
         |[(fk & g & s1 & _ & _ & _ & _ & _ & Hm & Hi)
          |(s1 & _ & Hc & _)]]; [by exists fk, g|lia|congruence].
  - intros fuel s Hnone. revert s.
    induction fuel as [|fuel IH]; intros s; simpl; [done|].
    destruct (ls_body_cases meritmax L1dir s)
      as [(fk & g & s1 & Hs & _)
         |[(fk & g & s1 & Hs & _)
          |(s1 & _ & -> & _)]]; try (rewrite Hnone in Hs; done).
    apply IH.
Qed.

(** *** The merit memory *)

(** C5.  In a pass with the line search enabled the current merit value
    L1merit = f + sigma*l1_infeas is written to merit_mem[merit_ind]
    (nothing else in merit_mem changes), the cursor becomes
    (merit_ind + 1) mod merit_memsize, and meritmax is [casadi_vfmax] over
    merit_mem+1 of length min(merit_memsize, iter_count) - 1 seeded with
    merit_mem[0], i.e. the [fmax]-fold of merit_mem[0] with
    merit_mem[1 .. min(merit_memsize, iter_count) - 1]. *)
Theorem merit_memory_update (m : SqpmethodMemory) :
  0 <= merit_ind m < merit_memsize_ self ->
  length (merit_mem (d m)) = Z.to_nat (merit_memsize_ self) ->
  let sigma' :=
    fmax (sigma m) (lit 101 100 * casadi_norm_inf (nx + ng) (dlam (d m)))%dbl in
  let l1_infeas :=
    casadi_max_viol (nx + ng) (z (d_nlp m)) (lbz (d_nlp m)) (ubz (d_nlp m)) in
  let L1merit := (f (d_nlp m) + sigma' * l1_infeas)%dbl in
  let m' := (merit_update m).1.1 in
  let meritmax := (merit_update m).1.2 in
  let k := Z.min (merit_memsize_ self) (iter_count m) in
  merit_mem (d m') !! Z.to_nat (merit_ind m) = Some L1merit /\
  (forall j : nat, j <> Z.to_nat (merit_ind m) ->
                   merit_mem (d m') !! j = merit_mem (d m) !! j) /\
  merit_ind m' = (merit_ind m + 1) mod merit_memsize_ self /\
  0 <= merit_ind m' < merit_memsize_ self /\
  meritmax
  = casadi_vfmax (drop 1 (merit_mem (d m'))) (k - 1)
      (default zero (merit_mem (d m') !! 0%nat)) /\
  meritmax
  = foldl fmax (default zero (merit_mem (d m') !! 0%nat))
      (take (Z.to_nat (k - 1)) (drop 1 (merit_mem (d m')))) /\
  (1 <= iter_count m ->
   Forall (fun x => is_nan x = false) (merit_mem (d m')) ->
   Forall (fun x => (x <=? meritmax)%dbl = true)
     (take (Z.to_nat k) (merit_mem (d m'))) /\
   meritmax ∈ take (Z.to_nat k) (merit_mem (d m'))).
Proof.
  intros Hind Hlen sigma' l1_infeas L1merit m' meritmax k.
  assert (Hrem : Z.rem (merit_ind m + 1) (merit_memsize_ self)
                 = (merit_ind m + 1) mod merit_memsize_ self)
    by (apply Z.rem_mod_nonneg; lia).
  subst m' meritmax. unfold Sqp.merit_update. simpl. fold nx ng.
  split; [|split; [|split; [|split; [|split; [|split]]]]].
  - apply list_lookup_insert_eq. lia.
  - intros j Hj. by apply list_lookup_insert_ne.
  - exact Hrem.
  - rewrite Hrem. apply Z.mod_pos_bound. lia.
  - reflexivity.
  - reflexivity.
  - intros Hk Hnan. unfold casadi_vfmax.
    remember (<[Z.to_nat (merit_ind m) := _]> (merit_mem (d m))) as mm eqn:Emm.
    assert (Hmm : length mm = Z.to_nat (merit_memsize_ self))
      by (subst mm; by rewrite length_insert).
    clear Emm. destruct mm as [|a mm']; [simpl in Hmm; lia|].
    apply Forall_cons in Hnan as [Ha Hrest].
    replace (Z.to_nat k) with (S (Z.to_nat (k - 1))) by (subst k; lia).
    simpl. rewrite drop_0.
    destruct (foldl_fmax_max (take (Z.to_nat (k - 1)) mm') a Ha)
      as (_ & Hall & Hin); [by apply Forall_take|].
    by split.
Qed.

(** The cursor stays inside the merit memory in every pass of a run. *)
Lemma merit_update_inv (m : SqpmethodMemory) :
  merit_inv self m -> merit_inv self (merit_update m).1.1.
Proof.
  intros [Hind Hlen]. unfold merit_inv, Sqp.merit_update. simpl.
  rewrite length_insert, Z.rem_mod_nonneg by lia.
  split; [apply Z.mod_pos_bound; lia | done].
Qed.

Lemma iteration_head_merit (s : State) :
  merit_inv self (mem s) -> merit_inv self (mem (flow_state (iteration_head s))).
Proof.
  unfold Sqp.iteration_head, Sqp.eval_jac_fg, merit_inv.
  destruct (nlp_jac_fg _ _) as [[[[? ?] ?] ?]|]; [|done].
  destruct (callback _); [done|].
  unfold Sqp.check_convergence.
  repeat match goal with |- context [if ?b then _ else _] => destruct b end;
    done.
Qed.

Lemma hessian_merit (m m' : SqpmethodMemory) :
  hessian m = Some m' -> merit_inv self m -> merit_inv self m'.
Proof.
  unfold Sqp.hessian, Sqp.regularization, merit_inv.
  repeat match goal with
         | |- context [if ?b then _ else _] => destruct b
         | |- context [match nlp_hess_l ?a ?b ?c ?e with _ => _ end] =>
             destruct (nlp_hess_l a b c e)
         end; intros [= <-]; done.
Qed.

Lemma line_search_merit (ls_fuel : nat) (m : SqpmethodMemory) (s' : State) :
  line_search ls_fuel m = Some s' ->
  merit_inv self m -> merit_inv self (mem (take_step s')).
Proof.
  intros H Hinv.
  apply line_search_inv in H as [[_ (sa & zc & -> & _ & Hm)]|[_ ->]].
  - apply merit_update_inv in Hinv.
    unfold merit_inv, Sqp.take_step, Sqp.accept_candidate in *.
    rewrite Hm. by destruct (exact_hessian_ self).
  - unfold merit_inv, Sqp.take_step, Sqp.full_step in *.
    by destruct (exact_hessian_ self).
Qed.

Lemma iteration_merit (ls_fuel : nat) (s : State) (fl : Flow) :
  iteration ls_fuel s = Some fl ->
  merit_inv self (mem s) -> merit_inv self (mem (flow_state fl)).
Proof.
  unfold Sqp.iteration. intros H Hinv.
  apply iteration_head_merit in Hinv.
  destruct (iteration_head s) as [s1|s1|c s1]; simpl in Hinv;
    try by injection H as <-.
  unfold Sqp.iteration_tail in H.
  destruct (hessian (mem s1)) as [mh|] eqn:Hh; [|by injection H as <-].
  apply (hessian_merit _ _ Hh) in Hinv.
  destruct (solve_QP _ _ _ _ _ _ _) as [dx' dlam'].
  destruct (line_search _ _) as [s'|] eqn:Hl; [|done].
  injection H as <-. simpl.
  apply (line_search_merit _ _ _ Hl). exact Hinv.
Qed.

Lemma trace_merit_inv (ls_fuel fuel : nat) (s a : State) :
  merit_inv self (mem s) -> a ∈ trace ls_fuel fuel s -> merit_inv self (mem a).
Proof.
  revert s. induction fuel as [|fuel IH]; intros s Hinv; simpl.
  - intros ->%list_elem_of_singleton. done.
  - intros [->|Hin]%elem_of_cons; [done|].
    destruct (iteration ls_fuel s) as [[s1|s1|c s1]|] eqn:Hit.
    + apply list_elem_of_singleton in Hin as ->.
      by apply (iteration_merit _ _ _ Hit).
    + apply (IH s1); [|done]. by apply (iteration_merit _ _ _ Hit).
    + apply list_elem_of_singleton in Hin as ->.
      by apply (iteration_merit _ _ _ Hit).
    + by apply elem_of_nil in Hin.
Qed.

(** *** Applying the step *)


(** *** Return codes and the QP flag *)

Lemma check_convergence_status (m m' : SqpmethodMemory)
    (pr_inf du_inf dx_norminf : double) :
  check_convergence m pr_inf du_inf dx_norminf = Some m' ->
  return_status m' = "Solve_Succeeded" \/
  return_status m' = "Maximum_Iterations_Exceeded" \/
  return_status m' = "Search_Direction_Becomes_Too_Small".
Proof.
  unfold Sqp.check_convergence.
  repeat match goal with |- context [if ?b then _ else _] => destruct b end;
    try done; intros [= <-]; simpl; auto.
Qed.

Lemma iteration_head_Break_status (s s' : State) :
  iteration_head s = Break s' ->
  return_status (mem s') = "User_Requested_Stop" \/
  return_status (mem s') = "Solve_Succeeded" \/
  return_status (mem s') = "Maximum_Iterations_Exceeded" \/
  return_status (mem s') = "Search_Direction_Becomes_Too_Small".
Proof.
  intros H.
  apply iteration_head_Break_inv in H
    as (m1 & _ & [[_ ->]|[_ (m' & Hc & ->)]]); [by left|].
  right. by eapply check_convergence_status.
Qed.

Lemma hessian_None (m : SqpmethodMemory) :
  hessian m = None ->
  exact_hessian_ self = true /\
  nlp_hess_l (take nx (z (d_nlp m))) (p (d_nlp m)) one
    (drop nx (lam (d_nlp m))) = None.
Proof.
  unfold Sqp.hessian. fold nx.
  destruct (exact_hessian_ self).
  - by destruct (nlp_hess_l _ _ _ _).
  - by destruct (iter_count m =? 0).
Qed.

(** Where the result of the main loop comes from. *)
Lemma main_loop_result (ls_fuel fuel : nat) (s sfin : State) (code : Z) :
  main_loop ls_fuel fuel s = Some (code, sfin) ->
  exists s0,
    s0 ∈ trace ls_fuel fuel s /\
    ((code = 0 /\ iteration_head s0 = Break sfin) \/
     (code = 1 /\ eval_jac_fg (mem s0) = None /\ sfin = s0) \/
     (code = 1 /\ iteration_head s0 = Continue sfin /\
      hessian (mem sfin) = None)).
Proof.
  revert s. induction fuel as [|fuel IH]; intros s; simpl; [done|].
  destruct (iteration ls_fuel s) as [[s1|s1|c s1]|] eqn:Hit; try done.
  - intros [= <- <-]. exists s. split; [by left|].
    left. split; [done|]. by eapply iteration_Break_inv.
  - intros H. apply IH in H as (s0 & Hin & Hcase).
    exists s0. split; [by right|done].
  - intros [= <- <-]. exists s. split; [by left|].
    apply iteration_Return_inv in Hit as [-> [[? ->]|[? ?]]]; auto.
Qed.

Lemma solve_QP_flag_irrelevant (qpsol' : ConicIn -> Z * ConicOut)
    (H : mat) (g lb ub : vec) (A : mat) (x_opt dl : vec) :
  (forall q, (qpsol' q).2 = (qpsol q).2) ->
  Sqp.solve_QP self qpsol' H g lb ub A x_opt dl
  = solve_QP H g lb ub A x_opt dl.
Proof. intros Hq. unfold Sqp.solve_QP. by rewrite Hq. Qed.

Lemma main_loop_flag_irrelevant (qpsol' : ConicIn -> Z * ConicOut)
    (ls_fuel fuel : nat) (s : State) :
  (forall q, (qpsol' q).2 = (qpsol q).2) ->
  Sqp.main_loop self nlp_jac_fg nlp_hess_l nlp_fg qpsol' callback ls_fuel fuel s
  = main_loop ls_fuel fuel s.
Proof.
  intros Hq. revert s. induction fuel as [|fuel IH]; intros s; simpl; [done|].
  assert (Hit : Sqp.iteration self nlp_jac_fg nlp_hess_l nlp_fg qpsol' callback
                  ls_fuel s = iteration ls_fuel s).
  { unfold Sqp.iteration. destruct (iteration_head s); try reflexivity.
    unfold Sqp.iteration_tail. destruct (hessian _); [|reflexivity].
    by rewrite solve_QP_flag_irrelevant. }
  rewrite Hit. by destruct (iteration ls_fuel s) as [[s1|s1|c s1]|].
Qed.

(** C9.  The flag returned by the QP subsolver is dropped: two subsolvers
    that write the same outputs give the same [solve], whatever flags they
    return, and the pass from the Hessian step to the end of the step
    leaves return_status as it was.  [solve] returns 0 or 1 only: every
    [break] (user stop, success, iteration limit, stall) gives 0 with the
    corresponding return_status, and 1 comes only from a failed
    [nlp_jac_fg] or a failed [nlp_hess_l] at a state of the run. *)
Theorem qp_flag_dropped_and_return_codes :
  (forall (qpsol' : ConicIn -> Z * ConicOut) (ls_fuel fuel : nat)
          (m : SqpmethodMemory),
      (forall q, (qpsol' q).2 = (qpsol q).2) ->
      Sqp.solve self nlp_jac_fg nlp_hess_l nlp_fg qpsol' callback ls_fuel fuel m
      = solve ls_fuel fuel m) /\
  (forall (ls_fuel : nat) (s s' : State),
      iteration_tail ls_fuel s = Some (Continue s') ->
      return_status (mem s') = return_status (mem s)) /\
  (forall (ls_fuel fuel : nat) (s s' : State),
      iteration_head s = Break s' ->
      main_loop ls_fuel (S fuel) s = Some (0, s')) /\
  (forall (ls_fuel fuel : nat) (m mfin : SqpmethodMemory) (code : Z),
      solve ls_fuel fuel m = Some (code, mfin) ->
      exists s0,
        s0 ∈ trace ls_fuel fuel (solve_init m) /\
        ((code = 0 /\
          (return_status mfin = "User_Requested_Stop" \/
           return_status mfin = "Solve_Succeeded" \/
           return_status mfin = "Maximum_Iterations_Exceeded" \/
           return_status mfin = "Search_Direction_Becomes_Too_Small")) \/
         (code = 1 /\
          nlp_jac_fg (take nx (z (d_nlp (mem s0)))) (p (d_nlp (mem s0))) = None) \/
         (code = 1 /\ exact_hessian_ self = true /\
          exists s1,
            iteration_head s0 = Continue s1 /\
            nlp_hess_l (take nx (z (d_nlp (mem s1)))) (p (d_nlp (mem s1))) one
              (drop nx (lam (d_nlp (mem s1)))) = None))).
Proof.
  split; [|split; [|split]].
  - intros qpsol' ls_fuel fuel m Hq. unfold Sqp.solve.
    by rewrite main_loop_flag_irrelevant.
  - intros ls_fuel s s' H.
    by apply iteration_tail_inv in H as [[_ [=]]|(s1 & [= <-] & ? & _)].
  - intros ls_fuel fuel s s' Hh. simpl. unfold Sqp.iteration. by rewrite Hh.
  - intros ls_fuel fuel m mfin code. unfold Sqp.solve.
    destruct (main_loop ls_fuel fuel (solve_init m)) as [[c sfin]|] eqn:Hm;
      [|done].
    intros [= -> <-].
    apply main_loop_result in Hm
      as (s0 & Hin & [[-> Hb]|[(-> & Hj & ->)|(-> & Hh & Hn)]]);
      exists s0; (split; [done|]).
    + left. split; [done|]. by apply (iteration_head_Break_status s0).
    + right; left. split; [done|].
      unfold Sqp.eval_jac_fg in Hj. fold nx in Hj.
      by destruct (nlp_jac_fg _ _) as [[[[? ?] ?] ?]|].
    + right; right. apply hessian_None in Hn as [? ?]. split; [done|].
      split; [done|]. by exists sfin.
Qed.

(** *** The Hessian step *)

(** The regularization block as written: [reg] is never positive and
    [casadi_regularize] never runs. *)
Lemma regularization_never_positive (m : SqpmethodMemory) :
  regularize_ self = true ->
  reg (regularization m) = fmin zero (- casadi_lb_eig (Bk (d m)))%dbl /\
  (zero <? reg (regularization m))%dbl = false /\
  (reg (regularization m) <=? zero)%dbl = true /\
  Bk (d (regularization m)) = Bk (d m).
Proof.
  intros Hr. unfold Sqp.regularization. rewrite Hr. simpl.
  rewrite fmin_zero_not_pos. simpl.
  split; [done|]. split; [apply fmin_zero_not_pos|].
  split; [apply fmin_zero_nonpos|done].
Qed.

(** C2, as the code has it.  With the limited-memory Hessian, pass 0 forms
    the QP with the identity.  A later pass k with k rem lbfgs_memory = 0
    resets Bk to the identity and then applies [casadi_bfgs] to it before
    the QP is formed, so the QP sees the BFGS update of the identity; with
    lbfgs_memory = 1 that is every pass k >= 1.  Any other pass applies
    [casadi_bfgs] to the Bk it inherited. *)
Theorem bfgs_hessian_at_qp (m : SqpmethodMemory) :
  exact_hessian_ self = false ->
  exists m',
    hessian m = Some m' /\
    is_identity (casadi_bfgs_reset (Bk (d m))) /\
    (iter_count m = 0 ->
     is_identity (Bk (d m')) /\ length (Bk (d m')) = length (Bk (d m))) /\
    (iter_count m <> 0 -> Z.rem (iter_count m) (lbfgs_memory_ self) = 0 ->
     Bk (d m')
     = casadi_bfgs (casadi_bfgs_reset (Bk (d m))) (dx (d m)) (gLag (d m))
         (gLag_old (d m))) /\
    (iter_count m <> 0 -> lbfgs_memory_ self = 1 ->
     Bk (d m')
     = casadi_bfgs (casadi_bfgs_reset (Bk (d m))) (dx (d m)) (gLag (d m))
         (gLag_old (d m))) /\
    (iter_count m <> 0 -> Z.rem (iter_count m) (lbfgs_memory_ self) <> 0 ->
     Bk (d m')
     = casadi_bfgs (Bk (d m)) (dx (d m)) (gLag (d m)) (gLag_old (d m))).
Proof.
  intros Hex. unfold Sqp.hessian. rewrite Hex.
  destruct (iter_count m =? 0) eqn:H0.
  - eexists. split; [done|]. split; [apply bfgs_reset_is_identity|].
    split; [|repeat split; lia].
    intros _. simpl. split; [apply bfgs_reset_is_identity|].
    rewrite bfgs_reset_length. unfold mat_fill. by rewrite length_fmap.
  - eexists. split; [done|]. split; [apply bfgs_reset_is_identity|].
    split; [lia|].
    destruct (Z.rem (iter_count m) (lbfgs_memory_ self) =? 0) eqn:Hrem.
    + split; [done|]. split; [done|]. lia.
    + split; [lia|]. split; [|done].
      intros _ H1. rewrite H1, Z.rem_1_r in Hrem. done.
Qed.

(** *** Further properties of the run *)

Local Abbreviation qp_step := (SqpAux.qp_step self qpsol).

(** From formulating the QP to its solution, as one pass does it. *)
Lemma iteration_tail_unfold (ls_fuel : nat) (s : State) :
  iteration_tail ls_fuel s
  = match hessian (mem s) with
    | None => Some (Return 1 s)
    | Some mh =>
        match line_search ls_fuel (qp_step mh) with
        | None => None
        | Some s' => Some (Continue (take_step s'))
        end
    end.
Proof.
  unfold Sqp.iteration_tail, SqpAux.qp_step.
  destruct (hessian (mem s)) as [mh|]; [|done].
  by destruct (solve_QP _ _ _ _ _ _ _) as [dx' dlam'].
Qed.

(** What a pass that goes on to the Hessian step has established. *)
Lemma iteration_head_Continue_inv (s s' : State) :
  iteration_head s = Continue s' ->
  exists m1,
    eval_jac_fg (mem s) = Some m1 /\
    let m := upd_d (set_gLag (lagrangian_gradient m1 (gLag (d m1)))) m1 in
    s' = set_mem m s /\ callback m = false /\
    check_convergence m
      (casadi_max_viol (nx + ng) (z (d_nlp m)) (lbz (d_nlp m)) (ubz (d_nlp m)))
      (casadi_norm_inf nx (gLag (d m)))
      (casadi_norm_inf nx (dx (d m))) = None.
Proof.
  unfold Sqp.iteration_head.
  destruct (eval_jac_fg (mem s)) as [m1|]; [|done].
  intros H. exists m1. split; [done|]. simpl.
  destruct (callback _) eqn:Hcb; [done|].
  destruct (check_convergence _ _ _ _) as [m'|]; [done|].
  by injection H as <-.
Qed.

Lemma check_convergence_None (m : SqpmethodMemory)
    (pr_inf du_inf dx_norminf : double) :
  check_convergence m pr_inf du_inf dx_norminf = None ->
  iter_count m < max_iter_ self.
Proof.
  unfold Sqp.check_convergence.
  destruct (_ && _ && _); [done|].
  destruct (max_iter_ self <=? iter_count m) eqn:H; [done|]. lia.
Qed.

(** The evaluation of [nlp_jac_fg] writes f, gf, the constraint part of z
    and Jk, nothing else. *)
Lemma eval_jac_fg_frame (m m' : SqpmethodMemory) :
  eval_jac_fg m = Some m' ->
  same_status m m' /\ same_problem m m' /\ iter_count m' = iter_count m /\
  lam (d_nlp m') = lam (d_nlp m) /\ dx (d m') = dx (d m) /\
  Bk (d m') = Bk (d m) /\ reg m' = reg m /\
  gLag_old (d m') = gLag_old (d m) /\
  merit_ind m' = merit_ind m /\ merit_mem (d m') = merit_mem (d m) /\
  sigma m' = sigma m /\ z_cand (d m') = z_cand (d m).
Proof.
  unfold Sqp.eval_jac_fg.
  destruct (nlp_jac_fg _ _) as [[[[? ?] ?] ?]|]; [|done].
  intros [= <-]. by repeat split.
Qed.


(** The Hessian step writes Bk and reg, nothing else. *)
Lemma hessian_frame_all (m m' : SqpmethodMemory) :
  hessian m = Some m' ->
  d_nlp m' = d_nlp m /\ same_status m m' /\ iter_count m' = iter_count m /\
  merit_ind m' = merit_ind m /\ sigma m' = sigma m /\
  dx (d m') = dx (d m) /\ dlam (d m') = dlam (d m) /\ gf (d m') = gf (d m) /\
  Jk (d m') = Jk (d m) /\ gLag (d m') = gLag (d m) /\
  gLag_old (d m') = gLag_old (d m) /\ z_cand (d m') = z_cand (d m) /\
  merit_mem (d m') = merit_mem (d m).
Proof.
  unfold Sqp.hessian, Sqp.regularization.
  repeat match goal with
         | |- context [if ?b then _ else _] => destruct b
         | |- context [match nlp_hess_l ?a ?b ?c ?e with _ => _ end] =>
             destruct (nlp_hess_l a b c e)
         end; intros [= <-]; by repeat split.
Qed.

(** Formulating and solving the QP writes lbdz, ubdz, dx, dlam and the
    counter, nothing else. *)
Lemma qp_step_frame (m : SqpmethodMemory) :
  d_nlp (qp_step m) = d_nlp m /\ same_status m (qp_step m) /\
  iter_count (qp_step m) = iter_count m + 1 /\
  merit_ind (qp_step m) = merit_ind m /\ sigma (qp_step m) = sigma m /\
  reg (qp_step m) = reg m /\ Bk (d (qp_step m)) = Bk (d m) /\
  gf (d (qp_step m)) = gf (d m) /\ Jk (d (qp_step m)) = Jk (d m) /\
  gLag (d (qp_step m)) = gLag (d m) /\
  gLag_old (d (qp_step m)) = gLag_old (d m) /\
  z_cand (d (qp_step m)) = z_cand (d m) /\
  merit_mem (d (qp_step m)) = merit_mem (d m).
Proof.
  unfold SqpAux.qp_step.
  destruct (Sqp.solve_QP _ _ _ _ _ _ _ _ _) as [dx' dlam'].
  by repeat split.
Qed.

(** The line search and the step write sigma, the merit memory and its
    cursor, z_cand, lam, dx, z and gLag_old, nothing else. *)
Lemma line_search_frame (ls_fuel : nat) (m : SqpmethodMemory) (sl : State) :
  line_search ls_fuel m = Some sl ->
  let m' := mem (take_step sl) in
  same_status m m' /\ same_problem m m' /\ iter_count m' = iter_count m /\
  reg m' = reg m /\ Bk (d m') = Bk (d m) /\ f (d_nlp m') = f (d_nlp m) /\
  gf (d m') = gf (d m) /\ Jk (d m') = Jk (d m) /\
  gLag (d m') = gLag (d m) /\ dlam (d m') = dlam (d m) /\
  lbdz (d m') = lbdz (d m) /\ ubdz (d m') = ubdz (d m).
Proof.
  intros H.
  apply line_search_inv in H as [[_ (sa & zc & -> & _ & Hm)]|[_ ->]].
  - unfold Sqp.take_step, Sqp.accept_candidate. rewrite Hm.
    by destruct (exact_hessian_ self).
  - unfold Sqp.take_step, Sqp.full_step. by destruct (exact_hessian_ self).
Qed.

(** A pass that goes on to the next one. *)
Lemma iteration_Continue_inv (ls_fuel : nat) (s s' : State) :
  iteration ls_fuel s = Some (Continue s') ->
  exists s1 mh sl,
    iteration_head s = Continue s1 /\ hessian (mem s1) = Some mh /\
    line_search ls_fuel (qp_step mh) = Some sl /\ s' = take_step sl.
Proof.
  unfold Sqp.iteration.
  destruct (iteration_head s) as [s1|s1|c s1] eqn:Hh; try done.
  rewrite iteration_tail_unfold.
  destruct (hessian (mem s1)) as [mh|] eqn:Hhe; [|done].
  destruct (line_search _ _) as [sl|] eqn:Hl; [|done].
  intros [= <-]. by exists s1, mh, sl.
Qed.

(** Across a pass the status fields and the problem data stay; the counter
    goes up by one exactly when the pass goes on, which needs
    iter_count < max_iter. *)
Lemma iteration_pass (ls_fuel : nat) (s : State) (fl : Flow) :
  iteration ls_fuel s = Some fl ->
  same_problem (mem s) (mem (flow_state fl)) /\
  match fl with
  | Continue s' =>
      same_status (mem s) (mem s') /\
      iter_count (mem s') = iter_count (mem s) + 1 /\
      iter_count (mem s) < max_iter_ self
  | Break s' => iter_count (mem s') = iter_count (mem s)
  | Return code s' =>
      same_status (mem s) (mem s') /\ iter_count (mem s') = iter_count (mem s)
  end.
Proof.
  destruct fl as [s'|s'|code s']; intros H.
  - apply iteration_Break_inv in H.
    pose proof (iteration_head_frame s) as [_ Hi]. rewrite H in Hi.
    split; [|done].
    apply iteration_head_Break_inv in H
      as (m1 & He & [[_ ->]|[_ (m' & Hc & ->)]]);
      apply eval_jac_fg_frame in He as (_ & Hp & _); [done|].
    unfold Sqp.check_convergence in Hc.
    repeat match type of Hc with
           | context [if ?b then _ else _] => destruct b
           end; try done; by injection Hc as <-.
  - apply iteration_Continue_inv in H as (s1 & mh & sl & Hh & Hhe & Hl & ->).
    apply iteration_head_Continue_inv in Hh as (m1 & He & -> & _ & Hc).
    apply check_convergence_None in Hc. simpl in Hc.
    apply eval_jac_fg_frame in He as (Hs1 & Hp1 & Hi1 & _).
    apply hessian_frame_all in Hhe as (Hn & Hs2 & Hi2 & _). simpl in *.
    pose proof (qp_step_frame mh) as (Hn3 & Hs3 & Hi3 & _).
    apply line_search_frame in Hl as (Hs4 & Hp4 & Hi4 & _).
    unfold same_status, same_problem in *. rewrite Hn3, Hn in Hp4.
    simpl in *. intuition congruence || lia.
  - apply iteration_Return_inv in H as [-> [[He ->]|[Hh Hn]]]; [done|].
    apply iteration_head_Continue_inv in Hh as (m1 & He & -> & _).
    apply eval_jac_fg_frame in He as (Hs1 & Hp1 & Hi1 & _). done.
Qed.

(** *** Termination *)

Lemma evaluations_succeed_total (k : nat) (meritmax L1dir : double) (s : State) :
  (forall x v, is_Some (nlp_fg x v)) -> evaluations_succeed k meritmax L1dir s.
Proof.
  intros Hok. revert s. induction k as [|k IH]; intros s; simpl; [done|].
  split; [apply Hok|]. by destruct (ls_body meritmax L1dir s).
Qed.





(** *** Counter and status fields over a run *)

Lemma iteration_head_Break_success (s s' : State) :
  iteration_head s = Break s' ->
  success (mem s') = success (mem s) \/
  (success (mem s') = true /\ return_status (mem s') = "Solve_Succeeded").
Proof.
  intros H.
  apply iteration_head_Break_inv in H
    as (m1 & He & [[_ ->]|[_ (m' & Hc & ->)]]);
    apply eval_jac_fg_frame in He as ((_ & Hs & _) & _); [by left|].
  unfold Sqp.check_convergence in Hc.
  repeat match type of Hc with
         | context [if ?b then _ else _] => destruct b
         end; try done; injection Hc as <-; simpl; auto.
Qed.

Lemma main_loop_run (ls_fuel fuel : nat) (s sfin : State) (code : Z) :
  main_loop ls_fuel fuel s = Some (code, sfin) ->
  same_problem (mem s) (mem sfin) /\
  iter_count (mem s) <= iter_count (mem sfin)
    <= Z.max (iter_count (mem s)) (max_iter_ self) /\
  iter_count (mem sfin) < iter_count (mem s) + Z.of_nat fuel /\
  (code <> 0 -> code = 1 /\ same_status (mem s) (mem sfin)) /\
  (success (mem s) = false -> success (mem sfin) = true ->
   code = 0 /\ return_status (mem sfin) = "Solve_Succeeded").
Proof.
  revert s. induction fuel as [|fuel IH]; intros s; [done|].
  simpl. destruct (iteration ls_fuel s) as [[s1|s1|c s1]|] eqn:Hit; try done.
  - intros [= <- <-]. pose proof Hit as Hp.
    apply iteration_pass in Hp as (Hp & Hi).
    apply iteration_Break_inv, iteration_head_Break_success in Hit.
    split; [done|]. split; [lia|]. split; [lia|]. split; [done|].
    intros Hf Ht. destruct Hit as [Hs|[_ ?]]; [congruence|done].
  - intros H. apply IH in H as (Hp & Hi & Hf & Hc & Hs).
    apply iteration_pass in Hit as (Hp1 & (Hr1 & Hs1 & Hu1) & Hi1 & Hlt).
    unfold same_problem, same_status in *. simpl in Hp1.
    destruct Hp as (? & ? & ?), Hp1 as (? & ? & ?).
    split; [repeat split; congruence|]. split; [lia|]. split; [lia|].
    split.
    + intros Hne. destruct (Hc Hne) as (? & ? & ? & ?).
      repeat split; congruence.
    + intros Hfa Htr. apply Hs; congruence.
  - intros [= <- <-]. pose proof Hit as Hp.
    apply iteration_pass in Hp as (Hp & Hs & Hi).
    apply iteration_Return_inv in Hit as [-> _].
    split; [done|]. split; [lia|]. split; [lia|]. split; [done|].
    destruct Hs as (_ & Hs & _). intros Hf Ht. congruence.
Qed.

(** What a call of [solve] leaves in the fields that the statistics show. *)
Lemma solve_run (ls_fuel fuel : nat) (m mfin : SqpmethodMemory) (code : Z) :
  solve ls_fuel fuel m = Some (code, mfin) ->
  0 <= iter_count mfin <= Z.max 0 (max_iter_ self) /\
  (code <> 0 -> return_status mfin = return_status m) /\
  (code = 0 ->
   return_status mfin = "User_Requested_Stop" \/
   return_status mfin = "Solve_Succeeded" \/
   return_status mfin = "Maximum_Iterations_Exceeded" \/
   return_status mfin = "Search_Direction_Becomes_Too_Small").
Proof.
  unfold Sqp.solve.
  destruct (main_loop ls_fuel fuel (solve_init m)) as [[c sfin]|] eqn:Hm;
    [|done].
  intros [= -> <-]. pose proof Hm as Hrun.
  apply main_loop_run in Hrun as (_ & Hi & _ & Hc & _). simpl in Hi.
  split; [done|]. split.
  - intros Hne. by destruct (Hc Hne) as (_ & ? & _).
  - intros ->. apply main_loop_result in Hm
      as (s0 & _ & [[_ Hb]|[([=] & _)|([=] & _)]]).
    by apply iteration_head_Break_status in Hb.
Qed.

(** The counter along a run: the state at the head of pass number i holds
    iter_count = (count on entry) + i, every pass but the last goes on to
    the next head, and the run has as many states as the counter rose
    plus two (the first head and the final state). *)
Lemma main_loop_count (ls_fuel fuel : nat) (s sfin : State) (code : Z) :
  main_loop ls_fuel fuel s = Some (code, sfin) ->
  Z.of_nat (length (trace ls_fuel fuel s))
  = iter_count (mem sfin) - iter_count (mem s) + 2 /\
  (forall (i : nat) (a : State),
      trace ls_fuel fuel s !! i = Some a ->
      (S i < length (trace ls_fuel fuel s))%nat ->
      iter_count (mem a) = iter_count (mem s) + Z.of_nat i) /\
  (forall (i : nat) (a b : State),
      trace ls_fuel fuel s !! i = Some a ->
      trace ls_fuel fuel s !! S i = Some b ->
      (S (S i) < length (trace ls_fuel fuel s))%nat ->
      iteration ls_fuel a = Some (Continue b)).
Proof.
  revert s. induction fuel as [|fuel IH]; intros s; [done|].
  simpl. destruct (iteration ls_fuel s) as [[s1|s1|c s1]|] eqn:Hit; try done.
  - intros [= <- <-]. apply iteration_pass in Hit as (_ & Hi). simpl.
    split; [lia|]. split.
    + intros [|[|i]] a; simpl; [intros [= <-] _; lia|lia|lia].
    + intros [|i] a b; simpl; lia.
  - intros H. pose proof (IH _ H) as (Hlen & Hheads & Hnext).
    pose proof Hit as Hp. apply iteration_pass in Hp as (_ & _ & Hi & _).
    split; [lia|]. split.
    + intros [|i] a; simpl; [intros [= <-] _; lia|].
      intros Ha Hlt. rewrite (Hheads i a Ha) by lia. lia.
    + intros [|i] a b; simpl.
      * intros [= <-]. rewrite trace_head. by intros [= <-].
      * intros Ha Hb Hlt. apply (Hnext i a b Ha Hb). lia.
  - intros [= <- <-]. apply iteration_pass in Hit as (_ & _ & Hi). simpl.
    split; [lia|]. split.
    + intros [|[|i]] a; simpl; [intros [= <-] _; lia|lia|lia].
    + intros [|i] a b; simpl; lia.
Qed.

(** iter_count counts the passes that went on.  It is reset on entry; the
    state at the head of pass number i holds iter_count = i; each pass
    but the last of the run goes on to the next head; and the run has
    iter_count + 2 states (the heads and the final state), so that on
    return iter_count is exactly the number of passes that went on.  It
    lies between 0 and max(0, max_iter) and below the number of passes
    allowed; the problem data (p, lbz, ubz) are those of the call. *)
Theorem iter_count_bounds (ls_fuel fuel : nat) (m mfin : SqpmethodMemory)
    (code : Z) :
  solve ls_fuel fuel m = Some (code, mfin) ->
  let run := trace ls_fuel fuel (solve_init m) in
  (forall (i : nat) (a : State),
      run !! i = Some a -> (S i < length run)%nat ->
      iter_count (mem a) = Z.of_nat i) /\
  (forall (i : nat) (a b : State),
      run !! i = Some a -> run !! S i = Some b ->
      (S (S i) < length run)%nat ->
      iteration ls_fuel a = Some (Continue b)) /\
  Z.of_nat (length run) = iter_count mfin + 2 /\
  0 <= iter_count mfin <= Z.max 0 (max_iter_ self) /\
  iter_count mfin < Z.of_nat fuel /\
  same_problem m mfin.
Proof.
  unfold Sqp.solve.
  destruct (main_loop ls_fuel fuel (solve_init m)) as [[c sfin]|] eqn:Hm;
    [|done].
  intros [= -> <-].
  pose proof (main_loop_count _ _ _ _ _ Hm) as (Hlen & Hheads & Hnext).
  apply main_loop_run in Hm as (Hp & Hi & Hf & _).
  simpl in *. split.
  - intros i a Ha Hlt. by rewrite (Hheads i a Ha Hlt).
  - split; [exact Hnext|]. split; [lia|]. done.
Qed.

(** A failed evaluation leaves the status fields stale: when [solve]
    returns non-zero, the code is 1 and return_status, success and
    unified_return_status are what the memory held on entry. *)
Theorem failure_leaves_status (ls_fuel fuel : nat) (m mfin : SqpmethodMemory)
    (code : Z) :
  solve ls_fuel fuel m = Some (code, mfin) -> code <> 0 ->
  code = 1 /\ same_status m mfin.
Proof.
  unfold Sqp.solve.
  destruct (main_loop ls_fuel fuel (solve_init m)) as [[c sfin]|] eqn:Hm;
    [|done].
  intros [= -> <-] Hne. apply main_loop_run in Hm as (_ & _ & _ & Hc & _).
  destruct (Hc Hne) as [-> Hs]. split; [done|exact Hs].
Qed.

Lemma main_loop_success_kept (ls_fuel fuel : nat) (s sfin : State) (code : Z) :
  main_loop ls_fuel fuel s = Some (code, sfin) ->
  success (mem s) = true -> success (mem sfin) = true.
Proof.
  revert s. induction fuel as [|fuel IH]; intros s; [done|].
  simpl. destruct (iteration ls_fuel s) as [[s1|s1|c s1]|] eqn:Hit; try done.
  - intros [= <- <-] Hs.
    apply iteration_Break_inv, iteration_head_Break_success in Hit
      as [Hk|[Ht _]]; congruence.
  - intros H Hs. apply (IH _ H).
    apply iteration_pass in Hit as (_ & (_ & Hk & _) & _). congruence.
  - intros [= <- <-] Hs.
    apply iteration_pass in Hit as (_ & (_ & Hk & _) & _). congruence.
Qed.

(** [solve] never clears the success flag and sets it only together with
    "Solve_Succeeded": a memory entered with success = true is returned
    with success = true whatever the outcome of the call, and on return
    success is true exactly when it was true on entry or the call returns
    0 with return_status "Solve_Succeeded". *)
Theorem success_flag (ls_fuel fuel : nat) (m mfin : SqpmethodMemory) (code : Z) :
  solve ls_fuel fuel m = Some (code, mfin) ->
  (success m = true -> success mfin = true) /\
  (success mfin = true <->
   success m = true \/
   (code = 0 /\ return_status mfin = "Solve_Succeeded")).
Proof.
  unfold Sqp.solve.
  destruct (main_loop ls_fuel fuel (solve_init m)) as [[c sfin]|] eqn:Hm;
    [|done].
  intros [= -> <-].
  assert (Hkept : success m = true -> success (mem sfin) = true)
    by (intros Hs; by apply (main_loop_success_kept _ _ _ _ _ Hm)).
  split; [exact Hkept|]. split.
  - intros Ht. destruct (success m) eqn:Hs; [by left|right].
    apply main_loop_run in Hm as (_ & _ & _ & _ & Hset). by apply Hset.
  - intros [Hs|[-> Hst]]; [by apply Hkept|].
    by apply main_loop_succeeded in Hm as (_ & _ & _ & ?).
Qed.

Lemma check_convergence_causes (m m' : SqpmethodMemory)
    (pr_inf du_inf dx_norminf : double) :
  check_convergence m pr_inf du_inf dx_norminf = Some m' ->
  let conv := (min_iter_ self <=? iter_count m) && (pr_inf <? tol_pr_ self)%dbl
                && (du_inf <? tol_du_ self)%dbl in
  d_nlp m' = d_nlp m /\ d m' = d m /\ iter_count m' = iter_count m /\
  (return_status m' = "Maximum_Iterations_Exceeded" ->
   conv = false /\ max_iter_ self <= iter_count m /\
   unified_return_status m' = SOLVER_RET_LIMITED) /\
  (return_status m' = "Search_Direction_Becomes_Too_Small" ->
   conv = false /\ 1 <= iter_count m < max_iter_ self /\
   min_iter_ self <= iter_count m /\
   (dx_norminf <=? min_step_size_ self)%dbl = true).
Proof.
  unfold Sqp.check_convergence.
  destruct (_ && _ && _) eqn:Hc; simpl.
  { intros [= <-]. by repeat split. }
  destruct (max_iter_ self <=? iter_count m) eqn:H2.
  { intros [= <-]. repeat split; try done. lia. }
  destruct (1 <=? iter_count m) eqn:H3; simpl; [|done].
  destruct (min_iter_ self <=? iter_count m) eqn:H4; simpl; [|done].
  destruct (dx_norminf <=? min_step_size_ self)%dbl eqn:H5; [|done].
  intros [= <-]. repeat split; try done; lia.
Qed.

(** Each terminal status names its cause.  On return 0: "User_Requested_Stop"
    means the callback said stop on the memory returned (but for the
    status); "Maximum_Iterations_Exceeded" means the convergence test
    failed with iter_count = max(0, max_iter) and SOLVER_RET_LIMITED was
    stored; "Search_Direction_Becomes_Too_Small" means the convergence test
    failed, 1 <= iter_count < max_iter, iter_count >= min_iter and the
    inf-norm of the last step is <= min_step_size. *)
Theorem termination_causes (ls_fuel fuel : nat) (m mfin : SqpmethodMemory) :
  solve ls_fuel fuel m = Some (0, mfin) ->
  let pr_inf :=
    casadi_max_viol (nx + ng) (z (d_nlp mfin)) (lbz (d_nlp mfin))
      (ubz (d_nlp mfin)) in
  let du_inf := casadi_norm_inf nx (gLag (d mfin)) in
  let dx_norminf := casadi_norm_inf nx (dx (d mfin)) in
  let conv :=
    (min_iter_ self <=? iter_count mfin) && (pr_inf <? tol_pr_ self)%dbl
      && (du_inf <? tol_du_ self)%dbl in
  (return_status mfin = "User_Requested_Stop" ->
   exists m0, callback m0 = true /\
              mfin = set_return_status "User_Requested_Stop" m0) /\
  (return_status mfin = "Maximum_Iterations_Exceeded" ->
   conv = false /\ iter_count mfin = Z.max 0 (max_iter_ self) /\
   unified_return_status mfin = SOLVER_RET_LIMITED) /\
  (return_status mfin = "Search_Direction_Becomes_Too_Small" ->
   conv = false /\ 1 <= iter_count mfin < max_iter_ self /\
   min_iter_ self <= iter_count mfin /\
   (dx_norminf <=? min_step_size_ self)%dbl = true).
Proof.
  unfold Sqp.solve.
  destruct (main_loop ls_fuel fuel (solve_init m)) as [[c sfin]|] eqn:Hm;
    [|done].
  intros [= -> <-]. pose proof Hm as Hrun.
  apply main_loop_run in Hrun as (_ & Hi & _). simpl in Hi.
  apply main_loop_result in Hm
    as (s0 & _ & [[_ Hb]|[([=] & _)|([=] & _)]]).
  apply iteration_head_Break_inv in Hb
    as (m1 & _ & [[Hcb ->]|[_ (m' & Hc & ->)]]); simpl.
  - split; [intros _; by eexists|]. by split.
  - pose proof (check_convergence_status _ _ _ _ _ Hc) as Hst3.
    apply check_convergence_causes in Hc as (Hn & Hd & Hic & Hmax & Hsmall).
    simpl in *. rewrite Hn, Hd, Hic.
    split; [|split].
    + intros Hst. rewrite Hst in Hst3. by destruct Hst3 as [|[|]].
    + intros Hst. destruct (Hmax Hst) as (? & ? & ?).
      repeat split; try done. lia.
    + exact Hsmall.
Qed.

(** *** The backtracking loop as a whole *)

(** How the loop reaches its exit: after [k] retries it is in a state that
    differs from the entry state in z_cand, ls_iter and t only, and the
    pass from there breaks. *)
Lemma ls_loop_exit (fuel : nat) (meritmax L1dir : double) (s s' : State) :
  ls_loop fuel meritmax L1dir s = Some s' ->
  exists (k : nat) (s_last : State),
    (k < fuel)%nat /\
    ls_iter s_last = ls_iter s + Z.of_nat k /\
    t s_last = Nat.iter k (mul (beta_ self)) (t s) /\
    ls_success s_last = ls_success s /\
    (forall zc, upd_d (set_z_cand zc) (mem s_last)
                = upd_d (set_z_cand zc) (mem s)) /\
    ls_body meritmax L1dir s_last = LsBreak s'.
Proof.
  revert s. induction fuel as [|fuel IH]; intros s; simpl; [done|].
  destruct (ls_body meritmax L1dir s) as [s1|s1] eqn:Hb.
  - intros [= <-]. exists 0%nat, s. repeat split; try done; lia.
  - intros Hl. apply IH in Hl as (k & s_last & Hk & Hi & Ht & Hs & Hm & Hbr).
    destruct (ls_body_cases meritmax L1dir s)
      as [(? & ? & ? & _ & _ & Hc & _)
         |[(? & ? & ? & _ & _ & Hc & _)
          |(s1' & _ & Hc & Ht1 & Hs1 & Hi1)]]; try congruence.
    assert (s1' = s1) as -> by congruence.
    destruct (ls_body_mem meritmax L1dir s) as [zc1 Hzc].
    destruct (Hzc s1) as [Hm1 _]; [by right|].
    exists (S k), s_last. repeat split; try done; try lia.
    + rewrite Nat.iter_succ_r. by rewrite Ht, Ht1.
    + congruence.
    + intros zc. rewrite Hm, Hm1. done.
Qed.

(** The loop returns the same state whatever (sufficient) number of
    passes it is allowed. *)
Lemma ls_loop_fuel (k k' : nat) (meritmax L1dir : double) (s s1 s2 : State) :
  ls_loop k meritmax L1dir s = Some s1 ->
  ls_loop k' meritmax L1dir s = Some s2 -> s1 = s2.
Proof.
  revert k' s. induction k as [|k IH]; intros k' s; [done|].
  destruct k' as [|k']; [done|]. simpl.
  destruct (ls_body meritmax L1dir s) as [s'|s']; [congruence|apply IH].
Qed.

(** With the line search enabled, a line search that ends has made
    ls_iter >= 1 trials and its step size is t = beta * (beta * ... * 1),
    ls_iter - 1 factors: exactly one backtrack per trial but the last.
    If none of the first max_iter_ls evaluations of nlp_fg fails, then
    ls_iter <= max_iter_ls; nothing bounds it otherwise. *)
Theorem backtracking_step_size (ls_fuel : nat) (m : SqpmethodMemory)
    (sl : State) :
  line_search ls_fuel m = Some sl -> 0 < max_iter_ls_ self ->
  1 <= ls_iter sl /\
  t sl = beta_pow self (Z.to_nat (ls_iter sl - 1)) /\
  (evaluations_succeed (Z.to_nat (max_iter_ls_ self))
     (merit_update m).1.2 (merit_update m).2
     {| mem := (merit_update m).1.1; ls_iter := 0; ls_success := true;
        t := one |} ->
   ls_iter sl <= max_iter_ls_ self).
Proof.
  intros H Hpos.
  apply line_search_inv in H as [[_ (sa & zc & -> & Hl & _)]|[? _]]; [|lia].
  pose proof Hl as Hl0.
  apply ls_loop_exit in Hl as (k & s_last & Hk & Hi & Ht & _ & _ & Hb).
  destruct (ls_body_mem (merit_update m).1.2 (merit_update m).2 s_last)
    as [zc' Hzc].
  destruct (Hzc sa) as [_ Hia]; [by left|].
  assert (Hta : t sa = t s_last).
  { destruct (ls_body_cases (merit_update m).1.2 (merit_update m).2 s_last)
      as [(? & ? & s1 & _ & _ & Hc & ? & _)
         |[(? & ? & s1 & _ & _ & Hc & ? & _)
          |(s1 & _ & Hc & _)]]; congruence. }
  simpl in Hi, Ht.
  change (ls_iter (accept_candidate sa)) with (ls_iter sa).
  change (t (accept_candidate sa)) with (t sa).
  split; [lia|]. split.
  - rewrite Hta, Ht. unfold beta_pow. f_equal. lia.
  - intros Hok.
    destruct (ls_loop_terminates (Z.to_nat (max_iter_ls_ self))
                (merit_update m).1.2 (merit_update m).2 _ Hok)
      as (s' & Hl' & Hle); [simpl; lia|lia|].
    rewrite (ls_loop_fuel _ _ _ _ _ _ _ Hl0 Hl'). lia.
Qed.

(** With the line search enabled, it only ever ends on a candidate that
    [nlp_fg] evaluated successfully: either the Armijo test passed on it
    and ls_success is true, or the test failed on it, ls_success is false
    and ls_iter = max_iter_ls. *)
Theorem line_search_verdict (ls_fuel : nat) (m : SqpmethodMemory) (sl : State) :
  line_search ls_fuel m = Some sl -> 0 < max_iter_ls_ self ->
  let meritmax := (merit_update m).1.2 in
  let L1dir := (merit_update m).2 in
  exists (s_last : State) (fk : double) (g : vec),
    t s_last = t sl /\
    (forall zc, upd_d (set_z_cand zc) (mem s_last)
                = upd_d (set_z_cand zc) (merit_update m).1.1) /\
    nlp_fg (take nx (candidate s_last)) (p (d_nlp m)) = Some (fk, g) /\
    ((ls_success sl = true /\ armijo meritmax L1dir s_last fk g = true) \/
     (ls_success sl = false /\ armijo meritmax L1dir s_last fk g = false /\
      ls_iter sl = max_iter_ls_ self)).
Proof.
  intros H Hpos meritmax L1dir.
  apply line_search_inv in H as [[_ (sa & zc & -> & Hl & _)]|[? _]]; [|lia].
  apply ls_loop_exit in Hl as (k & s_last & _ & _ & _ & Hs & Hm & Hb).
  simpl in Hs, Hm.
  assert (Hp : p (d_nlp (mem s_last)) = p (d_nlp m)).
  { change (p (d_nlp (mem s_last)))
      with (p (d_nlp (upd_d (set_z_cand []) (mem s_last)))).
    by rewrite Hm. }
  change (ls_success (accept_candidate sa)) with (ls_success sa).
  change (ls_iter (accept_candidate sa)) with (ls_iter sa).
  change (t (accept_candidate sa)) with (t sa).
  destruct (ls_body_cases meritmax L1dir s_last)
    as [(fk & g & s1 & Hev & Ha & Hc & Ht & Hsu & _)
       |[(fk & g & s1 & Hev & Ha & Hc & Ht & Hsu & Hi & _)
        |(s1 & _ & Hc & _)]]; fold meritmax L1dir in Hb; try congruence;
    assert (s1 = sa) as -> by congruence;
    exists s_last, fk, g; rewrite <- Hp;
    (split; [done|]); (split; [done|]); (split; [done|]).
  - left. split; [congruence|done].
  - right. done.
Qed.

(** *** What a run never touches *)

(** A property kept by every pass holds at every state of a run. *)
Lemma trace_invariant (P : State -> Prop) (ls_fuel fuel : nat) (s a : State) :
  P s ->
  (forall b fl, P b -> iteration ls_fuel b = Some fl -> P (flow_state fl)) ->
  a ∈ trace ls_fuel fuel s -> P a.
Proof.
  intros Hs Hstep. revert s Hs.
  induction fuel as [|fuel IH]; intros s Hs; simpl.
  - by intros ->%list_elem_of_singleton.
  - intros [->|Hin]%elem_of_cons; [done|].
    destruct (iteration ls_fuel s) as [[s1|s1|c s1]|] eqn:Hit.
    + apply list_elem_of_singleton in Hin as ->. apply (Hstep s _ Hs Hit).
    + apply (IH s1); [|done]. apply (Hstep s _ Hs Hit).
    + apply list_elem_of_singleton in Hin as ->. apply (Hstep s _ Hs Hit).
    + by apply elem_of_nil in Hin.
Qed.

(** The fields that only the Hessian step or only the line search write,
    across the part of a pass before the Hessian step. *)
Lemma iteration_head_untouched (s : State) :
  let m' := mem (flow_state (iteration_head s)) in
  reg m' = reg (mem s) /\ merit_ind m' = merit_ind (mem s) /\
  merit_mem (d m') = merit_mem (d (mem s)) /\
  z_cand (d m') = z_cand (d (mem s)) /\
  gLag_old (d m') = gLag_old (d (mem s)) /\ Bk (d m') = Bk (d (mem s)).
Proof.
  unfold Sqp.iteration_head, Sqp.eval_jac_fg.
  destruct (nlp_jac_fg _ _) as [[[[? ?] ?] ?]|]; [|done].
  destruct (callback _); [done|].
  unfold Sqp.check_convergence.
  repeat match goal with |- context [if ?b then _ else _] => destruct b end;
    done.
Qed.

Lemma iteration_cases (ls_fuel : nat) (s : State) (fl : Flow) :
  iteration ls_fuel s = Some fl ->
  fl = iteration_head s \/
  exists s1,
    iteration_head s = Continue s1 /\
    ((hessian (mem s1) = None /\ fl = Return 1 s1) \/
     (exists mh sl, hessian (mem s1) = Some mh /\
                    line_search ls_fuel (qp_step mh) = Some sl /\
                    fl = Continue (take_step sl))).
Proof.
  unfold Sqp.iteration.
  destruct (iteration_head s) as [s1|s1|c s1] eqn:Hh;
    try (intros [= <-]; by left).
  rewrite iteration_tail_unfold. intros H. right. exists s1. split; [done|].
  destruct (hessian (mem s1)) as [mh|]; [|left; by injection H as <-].
  destruct (line_search _ _) as [sl|] eqn:Hl; [|done].
  injection H as <-. right. by exists mh, sl.
Qed.

Lemma line_search_disabled (nlp_fg' : vec -> vec -> option (double * vec))
    (ls_fuel ls_fuel' : nat) (m : SqpmethodMemory) :
  max_iter_ls_ self <= 0 ->
  Sqp.line_search self nlp_fg' ls_fuel' m = line_search ls_fuel m /\
  line_search ls_fuel m
  = Some (full_step {| mem := m; ls_iter := 0; ls_success := true; t := one |}).
Proof.
  intros H. unfold Sqp.line_search.
  by replace (0 <? max_iter_ls_ self) with false by lia.
Qed.

Lemma main_loop_ls_disabled (nlp_fg' : vec -> vec -> option (double * vec))
    (ls_fuel ls_fuel' fuel : nat) (s : State) :
  max_iter_ls_ self <= 0 ->
  Sqp.main_loop self nlp_jac_fg nlp_hess_l nlp_fg' qpsol callback ls_fuel' fuel s
  = main_loop ls_fuel fuel s.
Proof.
  intros Hls. revert s. induction fuel as [|fuel IH]; intros s; simpl; [done|].
  assert (Hit : Sqp.iteration self nlp_jac_fg nlp_hess_l nlp_fg' qpsol callback
                  ls_fuel' s = iteration ls_fuel s).
  { unfold Sqp.iteration. destruct (iteration_head s); try reflexivity.
    unfold Sqp.iteration_tail. destruct (hessian _); [|reflexivity].
    destruct (solve_QP _ _ _ _ _ _ _) as [dx' dlam'].
    by rewrite (proj1 (line_search_disabled nlp_fg' ls_fuel ls_fuel' _ Hls)). }
  rewrite Hit. by destruct (iteration ls_fuel s) as [[s1|s1|c s1]|].
Qed.

(** With max_iter_ls <= 0 the line search is off for good: [solve] does
    not depend on [nlp_fg] (it is never evaluated) nor on the line-search
    fuel, and throughout the run sigma stays 0, the merit cursor stays 0,
    and the merit memory and z_cand keep their contents from before the
    call. *)
Theorem line_search_off (ls_fuel fuel : nat) (m : SqpmethodMemory) :
  max_iter_ls_ self <= 0 ->
  (forall (nlp_fg' : vec -> vec -> option (double * vec)) (ls_fuel' : nat),
      Sqp.solve self nlp_jac_fg nlp_hess_l nlp_fg' qpsol callback ls_fuel' fuel m
      = solve ls_fuel fuel m) /\
  (forall a, a ∈ trace ls_fuel fuel (solve_init m) ->
             sigma (mem a) = zero /\ merit_ind (mem a) = 0 /\
             merit_mem (d (mem a)) = merit_mem (d m) /\
             z_cand (d (mem a)) = z_cand (d m)).
Proof.
  intros Hls. split.
  - intros nlp_fg' ls_fuel'. unfold Sqp.solve.
    by rewrite (main_loop_ls_disabled nlp_fg' ls_fuel ls_fuel').
  - intros a.
    apply (trace_invariant
             (fun a => sigma (mem a) = zero /\ merit_ind (mem a) = 0 /\
                       merit_mem (d (mem a)) = merit_mem (d m) /\
                       z_cand (d (mem a)) = z_cand (d m))); [done|].
    intros b fl (Hs & Hi & Hmm & Hz) Hit.
    pose proof (iteration_head_untouched b) as (_ & Hi1 & Hmm1 & Hz1 & _).
    pose proof (iteration_head_frame b) as [Hs1 _].
    apply iteration_cases in Hit
      as [->|(s1 & Hh & [[_ ->]|(mh & sl & Hhe & Hl & ->)])];
      rewrite ?Hh in *; simpl in *;
      [by rewrite Hs1, Hi1, Hmm1, Hz1 .. |].
    apply hessian_frame_all in Hhe
      as (_ & _ & _ & Hi2 & Hs2 & _ & _ & _ & _ & _ & _ & Hz2 & Hmm2).
    pose proof (qp_step_frame mh)
      as (_ & _ & _ & Hi3 & Hs3 & _ & _ & _ & _ & _ & _ & Hz3 & Hmm3).
    destruct (line_search_disabled nlp_fg ls_fuel ls_fuel (qp_step mh) Hls)
      as [_ Hl'].
    rewrite Hl' in Hl. injection Hl as <-.
    unfold Sqp.take_step, Sqp.full_step.
    destruct (exact_hessian_ self); simpl;
      rewrite ?Hs3, ?Hi3, ?Hmm3, ?Hz3, ?Hs2, ?Hi2, ?Hmm2, ?Hz2,
        ?Hs1, ?Hi1, ?Hmm1, ?Hz1; done.
Qed.

Lemma hessian_limited (nlp_hess_l' : vec -> vec -> double -> vec -> option mat)
    (m : SqpmethodMemory) :
  exact_hessian_ self = false ->
  Sqp.hessian self nlp_hess_l' m = hessian m /\
  exists m', hessian m = Some m' /\ reg m' = reg m.
Proof.
  intros Hex. unfold Sqp.hessian. rewrite Hex. split; [done|].
  destruct (iter_count m =? 0); [by eexists|].
  destruct (Z.rem (iter_count m) (lbfgs_memory_ self) =? 0); by eexists.
Qed.

Lemma main_loop_limited
    (nlp_hess_l' : vec -> vec -> double -> vec -> option mat)
    (ls_fuel fuel : nat) (s : State) :
  exact_hessian_ self = false ->
  Sqp.main_loop self nlp_jac_fg nlp_hess_l' nlp_fg qpsol callback ls_fuel fuel s
  = main_loop ls_fuel fuel s.
Proof.
  intros Hex. revert s. induction fuel as [|fuel IH]; intros s; simpl; [done|].
  assert (Hit : Sqp.iteration self nlp_jac_fg nlp_hess_l' nlp_fg qpsol callback
                  ls_fuel s = iteration ls_fuel s).
  { unfold Sqp.iteration. destruct (iteration_head s); try reflexivity.
    unfold Sqp.iteration_tail.
    by rewrite (proj1 (hessian_limited nlp_hess_l' _ Hex)). }
  rewrite Hit. by destruct (iteration ls_fuel s) as [[s1|s1|c s1]|].
Qed.

(** With the limited-memory Hessian, [nlp_hess_l] is never evaluated:
    [solve] does not depend on it, reg stays 0 throughout the run, and a
    non-zero return can only come from a failed [nlp_jac_fg] at a state of
    the run. *)
Theorem limited_memory_never_evaluates_hessian (ls_fuel fuel : nat)
    (m : SqpmethodMemory) :
  exact_hessian_ self = false ->
  (forall nlp_hess_l' : vec -> vec -> double -> vec -> option mat,
      Sqp.solve self nlp_jac_fg nlp_hess_l' nlp_fg qpsol callback ls_fuel fuel m
      = solve ls_fuel fuel m) /\
  (forall a, a ∈ trace ls_fuel fuel (solve_init m) -> reg (mem a) = zero) /\
  (forall (code : Z) (mfin : SqpmethodMemory),
      solve ls_fuel fuel m = Some (code, mfin) -> code <> 0 ->
      exists s0,
        s0 ∈ trace ls_fuel fuel (solve_init m) /\
        nlp_jac_fg (take nx (z (d_nlp (mem s0)))) (p (d_nlp (mem s0))) = None).
Proof.
  intros Hex. split; [|split].
  - intros nlp_hess_l'. unfold Sqp.solve. by rewrite main_loop_limited.
  - intros a. apply (trace_invariant (fun a => reg (mem a) = zero)); [done|].
    intros b fl Hr Hit.
    pose proof (iteration_head_untouched b) as (Hr1 & _).
    apply iteration_cases in Hit
      as [->|(s1 & Hh & [[_ ->]|(mh & sl & Hhe & Hl & ->)])];
      rewrite ?Hh in *; cbn [flow_state] in *; [congruence..|].
    destruct (hessian_limited nlp_hess_l (mem s1) Hex) as [_ (m' & Hm' & Hr2)].
    assert (m' = mh) as -> by congruence.
    pose proof (qp_step_frame mh) as (_ & _ & _ & _ & _ & Hr3 & _).
    apply line_search_frame in Hl as (_ & _ & _ & Hr4 & _).
    congruence.
  - intros code mfin. unfold Sqp.solve.
    destruct (main_loop ls_fuel fuel (solve_init m)) as [[c sfin]|] eqn:Hm;
      [|done].
    intros [= -> <-] Hne.
    apply main_loop_result in Hm
      as (s0 & Hin & [[-> _]|[(_ & Hj & _)|(_ & _ & Hn)]]); [done| |].
    + exists s0. split; [done|].
      unfold Sqp.eval_jac_fg in Hj. fold nx in Hj.
      by destruct (nlp_jac_fg _ _) as [[[[? ?] ?] ?]|].
    + apply hessian_None in Hn as [? _]. congruence.
Qed.

Lemma line_search_gLag_old (ls_fuel : nat) (m : SqpmethodMemory) (sl : State) :
  line_search ls_fuel m = Some sl -> exact_hessian_ self = true ->
  gLag_old (d (mem (take_step sl))) = gLag_old (d m).
Proof.
  intros H Hex.
  apply line_search_inv in H as [[_ (sa & zc & -> & _ & Hm)]|[_ ->]].
  - unfold Sqp.take_step, Sqp.accept_candidate. rewrite Hm, Hex. done.
  - unfold Sqp.take_step, Sqp.full_step. by rewrite Hex.
Qed.

(** With the exact Hessian, the QP of a pass is solved with the matrix
    [nlp_hess_l] returned in that pass, entry for entry, whether or not
    regularize is set: in every pass that goes on, the subsolver is
    called on an input whose slot CONIC_H is that matrix, the step dx of
    the pass is the subsolver's answer on that input, and the pass
    depends on the subsolver through that one call only.  Also, reg is
    never positive at any state of a run and gLag_old is never written. *)
Theorem exact_hessian_passed_as_returned (ls_fuel fuel : nat)
    (m : SqpmethodMemory) :
  exact_hessian_ self = true ->
  (forall m0 m',
      hessian m0 = Some m' ->
      nlp_hess_l (take nx (z (d_nlp m0))) (p (d_nlp m0)) one
        (drop nx (lam (d_nlp m0))) = Some (Bk (d m'))) /\
  (forall s s' : State,
      iteration ls_fuel s = Some (Continue s') ->
      exists (s1 : State) (mh : SqpmethodMemory) (B : mat),
        iteration_head s = Continue s1 /\
        hessian (mem s1) = Some mh /\
        nlp_hess_l (take nx (z (d_nlp (mem s1)))) (p (d_nlp (mem s1))) one
          (drop nx (lam (d_nlp (mem s1)))) = Some B /\
        let arg := SqpAux.qp_input self (formulate_qp mh) in
        CONIC_H arg = B /\
        dx (d (qp_step mh))
        = casadi_copy (CONIC_X (qpsol arg).2) nx (dx (d (formulate_qp mh))) /\
        (forall qpsol' : ConicIn -> Z * ConicOut,
            qpsol' arg = qpsol arg ->
            Sqp.iteration self nlp_jac_fg nlp_hess_l nlp_fg qpsol' callback
              ls_fuel s
            = iteration ls_fuel s)) /\
  (forall a, a ∈ trace ls_fuel fuel (solve_init m) ->
             (zero <? reg (mem a))%dbl = false /\
             gLag_old (d (mem a)) = gLag_old (d m)).
Proof.
  intros Hex.
  assert (Hstep : forall m0 m',
             hessian m0 = Some m' ->
             nlp_hess_l (take nx (z (d_nlp m0))) (p (d_nlp m0)) one
               (drop nx (lam (d_nlp m0))) = Some (Bk (d m')) /\
             (zero <? reg m')%dbl = (zero <? reg m0)%dbl \/
             nlp_hess_l (take nx (z (d_nlp m0))) (p (d_nlp m0)) one
               (drop nx (lam (d_nlp m0))) = Some (Bk (d m')) /\
             (zero <? reg m')%dbl = false).
  { intros m0 m'. unfold Sqp.hessian. rewrite Hex. fold nx.
    destruct (nlp_hess_l _ _ _ _) as [H|]; [|done].
    intros [= <-]. unfold Sqp.regularization.
    destruct (regularize_ self); [|by left]. simpl.
    rewrite fmin_zero_not_pos. right. split; [done|apply fmin_zero_not_pos]. }
  assert (Hret : forall m0 m',
             hessian m0 = Some m' ->
             nlp_hess_l (take nx (z (d_nlp m0))) (p (d_nlp m0)) one
               (drop nx (lam (d_nlp m0))) = Some (Bk (d m')))
    by (intros m0 m' Hh; by destruct (Hstep m0 m' Hh) as [[? _]|[? _]]).
  split; [exact Hret|]. split.
  - intros s s' Hit.
    apply iteration_Continue_inv in Hit as (s1 & mh & sl & Hh & Hhe & Hl & ->).
    exists s1, mh, (Bk (d mh)).
    split; [done|]. split; [done|]. split; [by apply Hret|].
    cbn zeta. split; [done|]. split; [done|].
    intros qpsol' Hq. unfold Sqp.iteration. rewrite Hh.
    unfold Sqp.iteration_tail. rewrite Hhe. unfold Sqp.solve_QP.
    cbn zeta.
    repeat match goal with
           | |- context [qpsol' ?a] =>
               change (qpsol' a)
                 with (qpsol' (SqpAux.qp_input self (formulate_qp mh)))
           | |- context [qpsol ?a] =>
               progress change (qpsol a)
                 with (qpsol (SqpAux.qp_input self (formulate_qp mh)))
           end.
    by rewrite Hq.
  - intros a.
    apply (trace_invariant
             (fun a => (zero <? reg (mem a))%dbl = false /\
                       gLag_old (d (mem a)) = gLag_old (d m))); [done|].
    intros b fl [Hr Hg] Hit.
    pose proof (iteration_head_untouched b) as (Hr1 & _ & _ & _ & Hg1 & _).
    apply iteration_cases in Hit
      as [->|(s1 & Hh & [[_ ->]|(mh & sl & Hhe & Hl & ->)])];
      rewrite ?Hh in *; cbn [flow_state] in *; [split; congruence..|].
    pose proof (Hstep _ _ Hhe) as Hreg.
    apply hessian_frame_all in Hhe
      as (_ & _ & _ & _ & _ & _ & _ & _ & _ & _ & Hg2 & _).
    pose proof (qp_step_frame mh)
      as (_ & _ & _ & _ & _ & Hr3 & _ & _ & _ & _ & Hg3 & _).
    pose proof (line_search_gLag_old _ _ _ Hl Hex) as Hg4.
    apply line_search_frame in Hl as (_ & _ & _ & Hr4 & _).
    split; [|congruence].
    rewrite Hr4, Hr3. destruct Hreg as [[_ ->]|[_ ->]]; [congruence|done].
Qed.

(** With the line search on and a merit memory of positive size, the merit
    cursor follows the pass counter: merit_ind = iter_count mod
    merit_memsize at every state of a run, so pass k writes slot
    (k - 1) mod merit_memsize. *)
Theorem merit_cursor_follows_iter_count (ls_fuel fuel : nat)
    (m : SqpmethodMemory) (a : State) :
  0 < max_iter_ls_ self -> 0 < merit_memsize_ self ->
  a ∈ trace ls_fuel fuel (solve_init m) ->
  merit_ind (mem a) = iter_count (mem a) mod merit_memsize_ self.
Proof.
  intros Hls HM.
  apply (trace_invariant
           (fun a => merit_ind (mem a)
                     = iter_count (mem a) mod merit_memsize_ self)).
  { simpl. by rewrite Z.mod_0_l by lia. }
  intros b fl Hinv Hit.
  pose proof (iteration_head_untouched b) as (_ & Hm1 & _).
  pose proof (iteration_head_frame b) as [_ Hi1].
  apply iteration_cases in Hit
    as [->|(s1 & Hh & [[_ ->]|(mh & sl & Hhe & Hl & ->)])];
    rewrite ?Hh in *; cbn [flow_state] in *; [congruence..|].
  apply hessian_frame_all in Hhe as (_ & _ & Hi2 & Hm2 & _).
  pose proof (qp_step_frame mh) as (_ & _ & Hi3 & Hm3 & _).
  pose proof (line_search_frame _ _ _ Hl) as (_ & _ & Hi4 & _).
  apply line_search_inv in Hl as [[_ (sa & zc & -> & _ & Hm)]|[? _]]; [|lia].
  rewrite Hi4, Hi3, Hi2, Hi1.
  assert (Hmi : merit_ind (mem (take_step (accept_candidate sa)))
                = Z.rem (merit_ind (qp_step mh) + 1) (merit_memsize_ self)).
  { unfold Sqp.take_step, Sqp.accept_candidate. rewrite Hm.
    by destruct (exact_hessian_ self). }
  rewrite Hmi, Hm3, Hm2, Hm1, Hinv.
  rewrite Z.rem_mod_nonneg
    by (pose proof (Z.mod_pos_bound (iter_count (mem b)) _ HM); lia).
  by rewrite Zplus_mod_idemp_l.
Qed.

(** *** The QP subproblem *)

Lemma lookup_fill (x : vec) (n : nat) (alpha : double) (i : nat) :
  (i < n)%nat -> casadi_fill x n alpha !! i = Some alpha.
Proof.
  intros Hi. unfold casadi_fill.
  rewrite lookup_app_l by (rewrite length_replicate; lia).
  by apply lookup_replicate_2.
Qed.

(** The QP is formed around the current point: over the nx+ng stacked
    slots the step bounds are lbz - z and ubz - z (computed as
    bound + (-1)*z), the dual warm start is the current lam, and over the
    nx primal slots the primal warm start is 0. *)
Theorem qp_bounds_and_warm_start (m : SqpmethodMemory) :
  let m' := formulate_qp m in
  (forall (i : nat) (l u zi : double),
      (i < nx + ng)%nat ->
      lbz (d_nlp m) !! i = Some l -> ubz (d_nlp m) !! i = Some u ->
      z (d_nlp m) !! i = Some zi ->
      lbdz (d m') !! i = Some (l + - one * zi)%dbl /\
      ubdz (d m') !! i = Some (u + - one * zi)%dbl) /\
  (forall (i : nat) (li : double),
      (i < nx + ng)%nat -> lam (d_nlp m) !! i = Some li ->
      dlam (d m') !! i = Some li) /\
  (forall i : nat, (i < nx)%nat -> dx (d m') !! i = Some zero) /\
  d_nlp m' = d_nlp m /\ Bk (d m') = Bk (d m) /\ gf (d m') = gf (d m) /\
  Jk (d m') = Jk (d m).
Proof.
  intros m'. subst m'. unfold Sqp.formulate_qp. simpl. fold nx ng.
  split; [|split; [|split]]; [| | |done].
  - intros i l u zi Hi Hl Hu Hz. split.
    + apply lookup_axpy; [done|done|]. by apply lookup_copy.
    + apply lookup_axpy; [done|done|]. by apply lookup_copy.
  - intros i li Hi Hl. by apply lookup_copy.
  - intros i Hi. by apply lookup_fill.
Qed.

(** [solve_QP] addresses the stacked vectors consistently: the input and
    output slots of the subsolver name the same nx | ng split of dx and
    dlam, so a subsolver that returns its warm start unchanged leaves dx
    and dlam exactly as they were, whatever their lengths. *)
Theorem solve_QP_slots_round_trip (H : mat) (g lb ub : vec) (A : mat)
    (x_opt dl : vec) :
  (forall q, (qpsol q).2
             = {| CONIC_X := CONIC_X0 q; CONIC_LAM_X := CONIC_LAM_X0 q;
                  CONIC_LAM_A := CONIC_LAM_A0 q |}) ->
  solve_QP H g lb ub A x_opt dl = (x_opt, dl).
Proof.
  intros Hecho. unfold Sqp.solve_QP. rewrite Hecho. simpl.
  unfold casadi_copy. by rewrite !take_drop.
Qed.

(** A stop request wins over everything that follows it in the pass: once
    [nlp_jac_fg] has succeeded and the callback says stop, the loop ends
    with return 0 and "User_Requested_Stop" even if the convergence test
    would pass; success, unified_return_status and iter_count are left as
    they were, and no Hessian, QP or line search is run (Bk, dx, lam are
    those at the start of the pass). *)
Theorem stop_request_wins (s : State) (m1 : SqpmethodMemory)
    (ls_fuel fuel : nat) :
  eval_jac_fg (mem s) = Some m1 ->
  callback (upd_d (set_gLag (lagrangian_gradient m1 (gLag (d m1)))) m1) = true ->
  exists sfin,
    main_loop ls_fuel (S fuel) s = Some (0, sfin) /\
    return_status (mem sfin) = "User_Requested_Stop" /\
    success (mem sfin) = success (mem s) /\
    unified_return_status (mem sfin) = unified_return_status (mem s) /\
    iter_count (mem sfin) = iter_count (mem s) /\
    Bk (d (mem sfin)) = Bk (d (mem s)) /\ dx (d (mem sfin)) = dx (d (mem s)) /\
    lam (d_nlp (mem sfin)) = lam (d_nlp (mem s)).
Proof.
  intros He Hcb. eexists. split.
  - simpl. unfold Sqp.iteration, Sqp.iteration_head. rewrite He.
    simpl. by rewrite Hcb.
  - apply eval_jac_fg_frame in He
      as ((_ & Hs & Hu) & _ & Hi & Hl & Hd & HB & _). simpl. done.
Qed.

(** *** The penalty parameter over a run *)

Local Abbreviation sigma_step :=
  (SqpAux.sigma_step self nlp_jac_fg nlp_hess_l nlp_fg qpsol callback).

Lemma iteration_sigma (ls_fuel : nat) (s : State) (fl : Flow) :
  iteration ls_fuel s = Some fl -> sigma_step ls_fuel s (flow_state fl).
Proof.
  intros Hit. exists fl. split; [done|]. split; [done|].
  pose proof (iteration_head_frame s) as [Hs _].
  destruct fl as [s'|s'|c s'].
  - apply iteration_Break_inv in Hit. by rewrite Hit in Hs.
  - apply iteration_Continue_inv in Hit as (s1 & mh & sl & Hh & Hhe & Hl & ->).
    exists s1, mh. split; [done|]. split; [done|].
    rewrite Hh in Hs. cbn [flow_state] in *.
    apply hessian_frame_all in Hhe as (_ & _ & _ & _ & Hs2 & _).
    pose proof (qp_step_frame mh) as (_ & _ & _ & _ & Hs3 & _).
    pose proof (line_search_frame _ _ _ Hl)
      as (_ & _ & _ & _ & _ & _ & _ & _ & _ & Hdl & _).
    split; [exact Hdl|]. rewrite <- Hs, <- Hs2, <- Hs3. fold nx ng.
    apply line_search_inv in Hl as [[Hpos (sa & zc & -> & _ & Hm)]|[Hle ->]].
    + replace (0 <? max_iter_ls_ self) with true by lia.
      unfold Sqp.take_step, Sqp.accept_candidate. rewrite Hm.
      by destruct (exact_hessian_ self).
    + replace (0 <? max_iter_ls_ self) with false by lia.
      unfold Sqp.take_step, Sqp.full_step. by destruct (exact_hessian_ self).
  - apply iteration_Return_inv in Hit as [-> [[He ->]|[Hh Hn]]]; [done|].
    by rewrite Hh in Hs.
Qed.

Lemma trace_step (ls_fuel fuel : nat) (s : State) (i : nat) (a b : State) :
  trace ls_fuel fuel s !! i = Some a ->
  trace ls_fuel fuel s !! S i = Some b ->
  sigma_step ls_fuel a b.
Proof.
  revert s i. induction fuel as [|fuel IH]; intros s i; simpl.
  - by destruct i.
  - destruct i as [|i]; simpl.
    + intros [= <-].
      destruct (iteration ls_fuel s) as [[s'|s'|c s']|] eqn:Hit; simpl;
        try done; try rewrite trace_head; intros [= <-];
        apply (iteration_sigma _ _ _ Hit).
    + destruct (iteration ls_fuel s) as [[s'|s'|c s']|]; simpl;
        try done; try apply IH; by destruct i.
Qed.

Lemma sigma_step_order (ls_fuel : nat) (a b : State) :
  sigma_step ls_fuel a b -> is_nan (sigma (mem a)) = false ->
  is_nan (sigma (mem b)) = false /\ (sigma (mem a) <=? sigma (mem b))%dbl = true.
Proof.
  intros (fl & _ & _ & Hfl) Ha.
  assert (Hsame : sigma (mem b) = sigma (mem a) ->
                  is_nan (sigma (mem b)) = false /\
                  (sigma (mem a) <=? sigma (mem b))%dbl = true).
  { intros ->. split; [done | by apply leb_refl]. }
  destruct fl as [s'|s'|c s']; [by apply Hsame| |by apply Hsame].
  destruct Hfl as (s1 & mh & _ & _ & _ & Hsig).
  destruct (0 <? max_iter_ls_ self); [|by apply Hsame].
  rewrite Hsig. split; [by apply fmax_not_nan | by apply fmax_ge_l].
Qed.

Lemma trace_sigma_not_nan (ls_fuel fuel : nat) (s : State) (i : nat) (a : State) :
  is_nan (sigma (mem s)) = false ->
  trace ls_fuel fuel s !! i = Some a -> is_nan (sigma (mem a)) = false.
Proof.
  intros Hs. revert a. induction i as [|i IH]; intros a.
  - rewrite trace_head. by intros [= <-].
  - intros Hb.
    destruct (trace ls_fuel fuel s !! i) as [a0|] eqn:Ha.
    + by apply (sigma_step_order ls_fuel a0 a); [eapply trace_step | apply IH].
    + apply lookup_ge_None in Ha. apply lookup_lt_Some in Hb. lia.
Qed.

Lemma trace_sigma_le (ls_fuel fuel : nat) (s : State) (k i : nat) (a b : State) :
  is_nan (sigma (mem s)) = false ->
  trace ls_fuel fuel s !! i = Some a ->
  trace ls_fuel fuel s !! (i + k)%nat = Some b ->
  (sigma (mem a) <=? sigma (mem b))%dbl = true.
Proof.
  intros Hs Ha. revert b. induction k as [|k IH]; intros b.
  - rewrite Nat.add_0_r, Ha. intros [= <-].
    apply leb_refl. by eapply trace_sigma_not_nan.
  - replace (i + S k)%nat with (S (i + k)) by lia. intros Hb.
    destruct (trace ls_fuel fuel s !! (i + k)%nat) as [c|] eqn:Hc.
    + eapply leb_trans; [by apply IH|].
      apply (sigma_step_order ls_fuel c b); [by eapply trace_step|].
      by eapply trace_sigma_not_nan.
    + apply lookup_ge_None in Hc. apply lookup_lt_Some in Hb. lia.
Qed.

(** C6.  Within one [solve], [sigma] is 0 on entry.  From one state of
    the run to the next, that is across one pass of the main loop, its
    only update is the one of the line search: a pass that goes on with
    the line search enabled sets
    [sigma := fmax(sigma, 1.01 * norm_inf(nx+ng, dlam))] with [dlam] the
    multipliers the QP of that very pass returned, and every other pass
    (line search disabled, or the pass that ends the run) leaves sigma as
    it is.  Hence along the states of the run (loop heads, then the final
    state, which is the memory [solve] returns) [sigma] never decreases. *)
Theorem sigma_monotone (ls_fuel fuel : nat) (m : SqpmethodMemory) :
  let run := trace ls_fuel fuel (solve_init m) in
  (exists s0, run !! 0%nat = Some s0 /\ sigma (mem s0) = zero) /\
  (forall (i : nat) (a b : State),
      run !! i = Some a -> run !! S i = Some b -> sigma_step ls_fuel a b) /\
  (forall (i j : nat) (a b : State),
      (i <= j)%nat -> run !! i = Some a -> run !! j = Some b ->
      (sigma (mem a) <=? sigma (mem b))%dbl = true) /\
  (forall (code : Z) (mfin : SqpmethodMemory),
      solve ls_fuel fuel m = Some (code, mfin) ->
      exists sfin, last run = Some sfin /\ mem sfin = mfin).
Proof.
  intros run. split; [|split; [|split]].
  - exists (solve_init m). subst run. by rewrite trace_head.
  - intros i a b. apply trace_step.
  - intros i j a b Hij Ha Hb.
    replace j with (i + (j - i))%nat in Hb by lia.
    by apply (trace_sigma_le ls_fuel fuel (solve_init m) (j - i) i a b).
  - intros code mfin. unfold Sqp.solve.
    destruct (main_loop ls_fuel fuel (solve_init m)) as [[c s']|] eqn:Hm;
      [|done].
    intros [= -> <-]. exists s'. split; [|done]. by eapply main_loop_last.
Qed.

End SolveFacts.

(** ** The one-variable instance *)

Section Instances.

Import Example.

(** [ls_mem] is the memory the line search of pass 0 works on: stepping
    from it gives the second state of the limited-memory run. *)
Lemma ls_mem_in_run :
  Sqp.take_step bfgs_opts <$> Sqp.line_search bfgs_opts sq_fg 3 ls_mem
  = bfgs_run !! 1%nat.
Proof. by vm_compute. Qed.

(** C1 (the code at a failing input).  With the exact Hessian and
    [regularize] on, the Hessian [[2]] returned by [nlp_hess_l] has
    Gershgorin lower bound 2 > 0, and the run ends with reg = -2: reg is
    negative, not 0, and Bk was left as returned. *)
Theorem regularize_reg_negative_on_positive_definite_hessian :
  casadi_lb_eig [[of_Z 2]] = of_Z 2 /\
  (zero <? casadi_lb_eig [[of_Z 2]])%dbl = true /\
  exists mfin,
    Sqp.solve reg_opts sq_jac_fg sq_hess_l sq_fg (qp1 0) no_stop 3 2 mem0
    = Some (0, mfin) /\
    return_status mfin = "Solve_Succeeded" /\
    reg mfin = of_Z (-2) /\
    (reg mfin <? zero)%dbl = true /\
    (zero <=? reg mfin)%dbl = false /\
    Bk (d mfin) = [[of_Z 2]].
Proof.
  split; [by vm_compute|]. split; [by vm_compute|].
  eexists. split; [by vm_compute|]. by vm_compute.
Qed.

(** C2 (counterexample).  Limited-memory Hessian, lbfgs_memory = 1: in
    pass 1 the Bk handed to the QP is [[2]], the BFGS update of the
    identity, and pass 2 starts with that Bk; neither is the identity. *)
Lemma lbfgs_memory_one_qp_hessian_not_identity :
  exact_hessian_ bfgs_opts = false /\ lbfgs_memory_ bfgs_opts = 1 /\
  exists s1 s1' m1 s2,
    bfgs_run !! 1%nat = Some s1 /\ iter_count (mem s1) = 1 /\
    Sqp.iteration_head bfgs_opts sq_jac_fg no_stop s1 = Continue s1' /\
    Sqp.hessian bfgs_opts sq_hess_l (mem s1') = Some m1 /\
    Bk (d m1) = [[of_Z 2]] /\ ~ is_identity (Bk (d m1)) /\
    bfgs_run !! 2%nat = Some s2 /\ iter_count (mem s2) = 2 /\
    ~ is_identity (Bk (d (mem s2))).
Proof.
  split; [done|]. split; [done|].
  assert (Hnot : ~ is_identity [[of_Z 2]]).
  { intros H. specialize (H 0%nat 0%nat [of_Z 2] (of_Z 2) eq_refl eq_refl).
    by vm_compute in H. }
  eexists _, _, _, _.
  split; [by vm_compute|]. split; [by vm_compute|].
  split; [by vm_compute|]. split; [by vm_compute|].
  split; [by vm_compute|]. split; [exact Hnot|].
  split; [by vm_compute|]. split; [by vm_compute|exact Hnot].
Qed.

Lemma bfgs_hessian_at_qp_witness :
  exact_hessian_ bfgs_opts = false /\
  exists m', Sqp.hessian bfgs_opts sq_hess_l mem0 = Some m'.
Proof.
  split; [reflexivity|].
  destruct (bfgs_hessian_at_qp bfgs_opts sq_hess_l mem0 eq_refl)
    as (m' & H & _).
  by exists m'.
Defined.

Lemma convergence_tests_in_order_witness :
  exists s m1 sfin,
    lb_run !! 1%nat = Some s /\
    Sqp.eval_jac_fg exact_opts sq_jac_fg (mem s) = Some m1 /\
    Sqp.main_loop exact_opts sq_jac_fg sq_hess_l sq_fg (qp1 0) no_stop 3 1 s
    = Some (0, sfin) /\
    return_status (mem sfin) = "Solve_Succeeded" /\ success (mem sfin) = true.
Proof.
  eassert (Hs : lb_run !! 1%nat = Some _) by (vm_compute; reflexivity).
  match type of Hs with _ = Some ?s0 => set (s := s0) in Hs end.
  eassert (He : Sqp.eval_jac_fg exact_opts sq_jac_fg (mem s) = Some _)
    by (vm_compute; reflexivity).
  match type of He with _ = Some ?m0 => set (m1 := m0) in He end.
  destruct (convergence_tests_in_order exact_opts sq_jac_fg sq_hess_l sq_fg
              (qp1 0) no_stop s m1 He eq_refl) as (H1 & _).
  eexists s, m1, _. split; [exact Hs|]. split; [exact He|].
  split; [apply H1; vm_compute; reflexivity|]. split; reflexivity.
Defined.


Lemma merit_memory_update_witness :
  0 <= merit_ind ls_mem < merit_memsize_ ls1_opts /\
  length (merit_mem (d ls_mem)) = Z.to_nat (merit_memsize_ ls1_opts) /\
  merit_mem (d (Sqp.merit_update ls1_opts ls_mem).1.1) !! 0%nat = Some one /\
  merit_ind (Sqp.merit_update ls1_opts ls_mem).1.1 = 1 /\
  (Sqp.merit_update ls1_opts ls_mem).1.2 = one.
Proof.
  assert (H1 : 0 <= merit_ind ls_mem < merit_memsize_ ls1_opts)
    by (cbv; split; [intros H; discriminate H | reflexivity]).
  assert (H2 : length (merit_mem (d ls_mem)) = Z.to_nat (merit_memsize_ ls1_opts))
    by reflexivity.
  split; [exact H1|]. split; [exact H2|].
  destruct (merit_memory_update ls1_opts ls_mem H1 H2)
    as (Hw & _ & Hi & _ & Hm & _).
  split; [etransitivity; [exact Hw | vm_compute; reflexivity]|].
  split; [etransitivity; [exact Hi | reflexivity]|].
  etransitivity; [exact Hm | vm_compute; reflexivity].
Defined.

Lemma sigma_monotone_witness :
  exists a a1 b,
    lb_run !! 0%nat = Some a /\ lb_run !! 1%nat = Some a1 /\
    lb_run !! 2%nat = Some b /\
    sigma (mem a) = zero /\
    sigma (mem a1)
    = fmax (sigma (mem a))
        (lit 101 100 * casadi_norm_inf 1 (dlam (d (mem a1))))%dbl /\
    sigma (mem b) = lit 101 100 /\
    (sigma (mem a) <=? sigma (mem b))%dbl = true.
Proof.
  eassert (Ha : lb_run !! 0%nat = Some _) by (vm_compute; reflexivity).
  eassert (Ha1 : lb_run !! 1%nat = Some _) by (vm_compute; reflexivity).
  eassert (Hb : lb_run !! 2%nat = Some _) by (vm_compute; reflexivity).
  eexists _, _, _. split; [exact Ha|]. split; [exact Ha1|]. split; [exact Hb|].
  split; [reflexivity|].
  destruct (sigma_monotone exact_opts sq_jac_fg sq_hess_l sq_fg (qp1 0) no_stop
              3 3 mem_lb) as (_ & Hstep & Hle & _).
  split; [|split; [vm_compute; reflexivity|]].
  - destruct (Hstep 0%nat _ _ Ha Ha1) as (fl & Hit & _ & Hfl).
    destruct fl as [s'|s'|c s'];
      [vm_compute in Hit; discriminate Hit| |vm_compute in Hit; discriminate Hit].
    destruct Hfl as (s1 & mh & _ & _ & Hdl & Hsig).
    rewrite <- Hdl in Hsig. exact Hsig.
  - apply (Hle 0%nat 2%nat); [lia | exact Ha | exact Hb].
Defined.

Lemma evaluation_failure_disposition_witness :
  Sqp.candidate ls1_opts ls_entry = [of_Z (-1)] /\
  sq_fg_fail_at_m1 (take 1 (Sqp.candidate ls1_opts ls_entry))
    (p (d_nlp (mem ls_entry))) = None /\
  exists s',
    Sqp.ls_body ls1_opts sq_fg_fail_at_m1 one zero ls_entry = LsContinue s' /\
    t s' = (lit 8 10 * one)%dbl /\ ls_iter s' = 1 /\ ls_success s' = true.
Proof.
  assert (Hf : sq_fg_fail_at_m1 (take 1 (Sqp.candidate ls1_opts ls_entry))
                 (p (d_nlp (mem ls_entry))) = None)
    by (vm_compute; reflexivity).
  split; [vm_compute; reflexivity|]. split; [exact Hf|].
  destruct (proj2 (proj2 (evaluation_failure_disposition ls1_opts sq_jac_fg
                            sq_hess_l sq_fg_fail_at_m1 (qp1 0) no_stop))
              0%nat one zero ls_entry Hf) as (s' & Hb & Ht & Hi & Hs & _).
  exists s'. split; [exact Hb|]. split; [exact Ht|]. split; [exact Hi|exact Hs].
Defined.


Lemma qp1_flag_outputs (flag flag' : Z) (q : ConicIn) :
  (qp1 flag' q).2 = (qp1 flag q).2.
Proof.
  unfold qp1.
  destruct (CONIC_H q) as [|[|? []] []], (CONIC_G q) as [|? []],
    (CONIC_LBX q) as [|? []], (CONIC_UBX q) as [|? []]; reflexivity.
Defined.

Lemma qp_flag_dropped_and_return_codes_witness :
  (forall q, (qp1 7 q).2 = (qp1 0 q).2) /\
  Sqp.solve exact_opts sq_jac_fg sq_hess_l sq_fg (qp1 7) no_stop 3 3 mem_lb
  = Sqp.solve exact_opts sq_jac_fg sq_hess_l sq_fg (qp1 0) no_stop 3 3 mem_lb.
Proof.
  split; [apply qp1_flag_outputs|].
  apply (proj1 (qp_flag_dropped_and_return_codes exact_opts sq_jac_fg sq_hess_l
                  sq_fg (qp1 0) no_stop)).
  apply qp1_flag_outputs.
Defined.

Lemma line_search_bound_needs_evaluation_success_witness :
  Sqp.evaluations_succeed bfgs_opts sq_fg (Z.to_nat (max_iter_ls_ bfgs_opts))
    one zero ls_entry /\
  ls_iter ls_entry = 0 /\ 0 < max_iter_ls_ bfgs_opts /\
  exists s',
    Sqp.ls_loop bfgs_opts sq_fg (Z.to_nat (max_iter_ls_ bfgs_opts)) one zero
      ls_entry = Some s' /\
    0 < ls_iter s' <= max_iter_ls_ bfgs_opts.
Proof.
  assert (Hok : Sqp.evaluations_succeed bfgs_opts sq_fg
                  (Z.to_nat (max_iter_ls_ bfgs_opts)) one zero ls_entry)
    by (vm_compute; repeat split; eexists; reflexivity).
  split; [exact Hok|]. split; [reflexivity|]. split; [reflexivity|].
  exact (proj1 (line_search_bound_needs_evaluation_success bfgs_opts sq_fg
                  one zero) ls_entry Hok eq_refl eq_refl).
Defined.

(** The bound of C10 is lost after a failed evaluation: with
    max_iter_ls = 1 and [nlp_fg] failing on the first candidate, the loop
    runs a second pass and accepts at ls_iter = 2. *)
Lemma line_search_exceeds_bound_after_failure :
  max_iter_ls_ ls1_opts = 1 /\
  exists s',
    Sqp.ls_loop ls1_opts sq_fg_fail_at_m1 2 one (of_Z (-4)) ls_entry = Some s' /\
    ls_iter s' = 2 /\ ls_success s' = true /\ t s' = lit 8 10.
Proof.
  split; [reflexivity|]. eexists. split; [vm_compute; reflexivity|].
  by vm_compute.
Qed.

(** *** Instances for the further properties *)

Import Example2.


Lemma iter_count_bounds_witness :
  exists mfin,
    Sqp.solve bfgs_opts sq_jac_fg sq_hess_l sq_fg (qp1 0) no_stop 3 5 mem0
    = Some (0, mfin) /\
    iter_count mfin = 2 /\
    Z.of_nat (length (Sqp.trace bfgs_opts sq_jac_fg sq_hess_l sq_fg (qp1 0)
                        no_stop 3 5 (Sqp.solve_init bfgs_opts mem0)))
    = iter_count mfin + 2 /\
    0 <= iter_count mfin <= Z.max 0 (max_iter_ bfgs_opts).
Proof.
  eassert (H : Sqp.solve bfgs_opts sq_jac_fg sq_hess_l sq_fg (qp1 0) no_stop
                 3 5 mem0 = Some (0, _)) by (vm_compute; reflexivity).
  eexists. split; [exact H|]. split; [vm_compute; reflexivity|].
  destruct (iter_count_bounds _ _ _ _ _ _ _ _ _ _ _ H)
    as (_ & _ & Hlen & Hb & _).
  split; [exact Hlen|exact Hb].
Defined.

Lemma failure_leaves_status_witness :
  exists mfin,
    Sqp.solve exact_opts jac_fail sq_hess_l sq_fg (qp1 0) no_stop 3 5 mem_stale
    = Some (1, mfin) /\
    1 <> 0 /\
    return_status mfin = "Solve_Succeeded" /\ success mfin = true.
Proof.
  eassert (H : Sqp.solve exact_opts jac_fail sq_hess_l sq_fg (qp1 0) no_stop
                 3 5 mem_stale = Some (1, _)) by (vm_compute; reflexivity).
  assert (Hne : 1 <> 0) by discriminate.
  eexists. split; [exact H|]. split; [exact Hne|].
  destruct (failure_leaves_status _ _ _ _ _ _ _ _ _ _ _ H Hne)
    as (_ & Hr & Hs & _).
  split; [exact Hr|exact Hs].
Defined.

Lemma success_flag_witness :
  exists mfin,
    Sqp.solve limit_opts sq_jac_fg sq_hess_l sq_fg (qp1 0) no_stop 3 5 mem_stale
    = Some (0, mfin) /\
    success mem_stale = true /\
    return_status mfin = "Maximum_Iterations_Exceeded" /\
    success mfin = true.
Proof.
  eassert (H : Sqp.solve limit_opts sq_jac_fg sq_hess_l sq_fg (qp1 0) no_stop
                 3 5 mem_stale = Some (0, _)) by (vm_compute; reflexivity).
  eexists. split; [exact H|]. split; [reflexivity|]. split; [reflexivity|].
  exact (proj1 (success_flag _ _ _ _ _ _ _ _ _ _ _ H) eq_refl).
Defined.

Lemma termination_causes_witness :
  exists mfin,
    Sqp.solve limit_opts sq_jac_fg sq_hess_l sq_fg (qp1 0) no_stop 3 5 mem0
    = Some (0, mfin) /\
    return_status mfin = "Maximum_Iterations_Exceeded" /\
    iter_count mfin = Z.max 0 (max_iter_ limit_opts) /\
    unified_return_status mfin = SOLVER_RET_LIMITED.
Proof.
  eassert (H : Sqp.solve limit_opts sq_jac_fg sq_hess_l sq_fg (qp1 0) no_stop
                 3 5 mem0 = Some (0, _)) by (vm_compute; reflexivity).
  eexists. split; [exact H|]. split; [reflexivity|].
  destruct (termination_causes _ _ _ _ _ _ _ _ _ _ H) as (_ & Hmax & _).
  destruct (Hmax eq_refl) as (_ & Hi & Hu). split; [exact Hi|exact Hu].
Defined.

Lemma backtracking_step_size_witness :
  exists sl,
    Sqp.line_search bfgs_opts sq_fg 3 ls_mem = Some sl /\
    0 < max_iter_ls_ bfgs_opts /\
    ls_iter sl = 2 /\ t sl = beta_pow bfgs_opts 1 /\
    ls_iter sl <= max_iter_ls_ bfgs_opts.
Proof.
  eassert (H : Sqp.line_search bfgs_opts sq_fg 3 ls_mem = Some _)
    by (vm_compute; reflexivity).
  eexists. split; [exact H|]. split; [reflexivity|]. split; [reflexivity|].
  destruct (backtracking_step_size _ _ _ _ _ H eq_refl) as (_ & Ht & Hle).
  split; [exact Ht|]. apply Hle.
  apply evaluations_succeed_total. intros x v. by eexists.
Defined.

Lemma line_search_verdict_witness :
  exists sl,
    Sqp.line_search bfgs_opts sq_fg 3 ls_mem = Some sl /\
    0 < max_iter_ls_ bfgs_opts /\
    ls_success sl = true /\
    exists s_last fk g,
      t s_last = t sl /\
      sq_fg (take 1 (Sqp.candidate bfgs_opts s_last)) (p (d_nlp ls_mem))
      = Some (fk, g) /\
      Sqp.armijo bfgs_opts (Sqp.merit_update bfgs_opts ls_mem).1.2
        (Sqp.merit_update bfgs_opts ls_mem).2 s_last fk g = true.
Proof.
  eassert (H : Sqp.line_search bfgs_opts sq_fg 3 ls_mem = Some _)
    by (vm_compute; reflexivity).
  eexists. split; [exact H|]. split; [reflexivity|]. split; [reflexivity|].
  destruct (line_search_verdict _ _ _ _ _ H eq_refl)
    as (s_last & fk & g & Ht & _ & Hev & [[_ Ha]|[Hf _]]).
  - exists s_last, fk, g. split; [exact Ht|]. split; [exact Hev|exact Ha].
  - discriminate Hf.
Defined.

Lemma line_search_off_witness :
  max_iter_ls_ nols_opts <= 0 /\
  Sqp.solve nols_opts sq_jac_fg sq_hess_l sq_fg_fail_at_m1 (qp1 0) no_stop 0 5 mem0
  = Sqp.solve nols_opts sq_jac_fg sq_hess_l sq_fg (qp1 0) no_stop 3 5 mem0.
Proof.
  assert (H : max_iter_ls_ nols_opts <= 0) by (intros Hgt; discriminate Hgt).
  split; [exact H|].
  exact (proj1 (line_search_off nols_opts sq_jac_fg sq_hess_l sq_fg (qp1 0)
                  no_stop 3 5 mem0 H) sq_fg_fail_at_m1 0%nat).
Defined.

Lemma limited_memory_never_evaluates_hessian_witness :
  exact_hessian_ bfgs_opts = false /\
  Sqp.solve bfgs_opts sq_jac_fg (fun _ _ _ _ => None) sq_fg (qp1 0) no_stop 3 5 mem0
  = Sqp.solve bfgs_opts sq_jac_fg sq_hess_l sq_fg (qp1 0) no_stop 3 5 mem0.
Proof.
  split; [reflexivity|].
  exact (proj1 (limited_memory_never_evaluates_hessian bfgs_opts sq_jac_fg
                  sq_hess_l sq_fg (qp1 0) no_stop 3 5 mem0 eq_refl)
           (fun _ _ _ _ => None)).
Defined.

Lemma exact_hessian_passed_as_returned_witness :
  exact_hessian_ reg_opts = true /\
  exists s' s1 mh,
    Sqp.iteration reg_opts sq_jac_fg sq_hess_l sq_fg (qp1 0) no_stop 3
      (Sqp.solve_init reg_opts mem0) = Some (Continue s') /\
    Sqp.iteration_head reg_opts sq_jac_fg no_stop (Sqp.solve_init reg_opts mem0)
    = Continue s1 /\
    Sqp.hessian reg_opts sq_hess_l (mem s1) = Some mh /\
    CONIC_H (SqpAux.qp_input reg_opts (Sqp.formulate_qp reg_opts mh))
    = [[of_Z 2]].
Proof.
  split; [reflexivity|].
  eassert (Hit : Sqp.iteration reg_opts sq_jac_fg sq_hess_l sq_fg (qp1 0)
                   no_stop 3 (Sqp.solve_init reg_opts mem0)
                 = Some (Continue _)) by (vm_compute; reflexivity).
  destruct (proj1 (proj2 (exact_hessian_passed_as_returned reg_opts sq_jac_fg
                            sq_hess_l sq_fg (qp1 0) no_stop 3 5 mem0 eq_refl))
              _ _ Hit) as (s1 & mh & B & Hh & Hhe & HB & HH & _).
  eexists _, s1, mh. split; [exact Hit|]. split; [exact Hh|].
  split; [exact Hhe|].
  unfold sq_hess_l in HB. injection HB as <-. exact HH.
Defined.

Lemma merit_cursor_follows_iter_count_witness :
  exists a,
    0 < max_iter_ls_ bfgs_opts /\ 0 < merit_memsize_ bfgs_opts /\
    bfgs_run !! 2%nat = Some a /\ iter_count (mem a) = 2 /\
    merit_ind (mem a) = iter_count (mem a) mod merit_memsize_ bfgs_opts.
Proof.
  eassert (Ha : bfgs_run !! 2%nat = Some _) by (vm_compute; reflexivity).
  eexists. split; [reflexivity|]. split; [reflexivity|].
  split; [exact Ha|]. split; [reflexivity|].
  apply (merit_cursor_follows_iter_count bfgs_opts sq_jac_fg sq_hess_l sq_fg
           (qp1 0) no_stop 3 3 mem0); [reflexivity|reflexivity|].
  exact (list_elem_of_lookup_2 _ _ _ Ha).
Defined.

Lemma qp_bounds_and_warm_start_witness :
  lbdz (d (Sqp.formulate_qp exact_opts mem_lb)) !! 0%nat
  = Some (lit 1 2 + - one * one)%dbl /\
  dx (d (Sqp.formulate_qp exact_opts mem_lb)) !! 0%nat = Some zero.
Proof.
  destruct (qp_bounds_and_warm_start exact_opts mem_lb) as (Hb & _ & Hx & _).
  split.
  - refine (proj1 (Hb 0%nat (lit 1 2) inf one _ eq_refl eq_refl eq_refl)).
    simpl. lia.
  - apply (Hx 0%nat). simpl. lia.
Defined.

Lemma solve_QP_slots_round_trip_witness :
  (forall q, (qp_echo q).2
             = {| CONIC_X := CONIC_X0 q; CONIC_LAM_X := CONIC_LAM_X0 q;
                  CONIC_LAM_A := CONIC_LAM_A0 q |}) /\
  Sqp.solve_QP exact_opts qp_echo [[one]] [one] [zero; zero] [one; one] [[one]]
    [lit 1 2] [one; of_Z 2]
  = ([lit 1 2], [one; of_Z 2]).
Proof.
  assert (H : forall q, (qp_echo q).2
                        = {| CONIC_X := CONIC_X0 q; CONIC_LAM_X := CONIC_LAM_X0 q;
                             CONIC_LAM_A := CONIC_LAM_A0 q |})
    by (intros q; reflexivity).
  split; [exact H|].
  exact (solve_QP_slots_round_trip exact_opts qp_echo _ _ _ _ _ _ _ H).
Defined.

Lemma stop_request_wins_witness :
  exists m1 sfin,
    Sqp.eval_jac_fg exact_opts sq_jac_fg
      (mem (Sqp.solve_init exact_opts (upd_nlp (set_z [zero]) mem0))) = Some m1 /\
    Sqp.main_loop exact_opts sq_jac_fg sq_hess_l sq_fg (qp1 0) always_stop 3 1
      (Sqp.solve_init exact_opts (upd_nlp (set_z [zero]) mem0)) = Some (0, sfin) /\
    return_status (mem sfin) = "User_Requested_Stop" /\
    success (mem sfin) = false.
Proof.
  eassert (He : Sqp.eval_jac_fg exact_opts sq_jac_fg
                  (mem (Sqp.solve_init exact_opts (upd_nlp (set_z [zero]) mem0)))
                = Some _) by (vm_compute; reflexivity).
  destruct (stop_request_wins exact_opts sq_jac_fg sq_hess_l sq_fg (qp1 0)
              always_stop _ _ 3%nat 0%nat He eq_refl)
    as (sfin & Hm & Hr & Hs & _).
  eexists _, sfin. split; [exact He|]. split; [exact Hm|].
  split; [exact Hr|]. rewrite Hs. reflexivity.
Defined.

End Instances.

(** ** The plugin registry of [integrator.cpp] *)

Section RegistryFacts.

Variable Function : Type.
Variable Node : Type.
Variable WITH_DL : bool.
Variable FunctionInternal_loadPlugin :
  string -> Integrator.Exception + Integrator.RegFcn Function Node.

Local Abbreviation Plugin := (Integrator.Plugin Function Node).
Local Abbreviation name := (Integrator.name Function Node).
Local Abbreviation creator := (Integrator.creator Function Node).
Local Abbreviation registerPlugin := (Integrator.registerPlugin Function Node).
Local Abbreviation loadPlugin :=
  (Integrator.loadPlugin Function Node WITH_DL FunctionInternal_loadPlugin).
Local Abbreviation Integrator_new :=
  (Integrator.Integrator_new Function Node WITH_DL FunctionInternal_loadPlugin).
Local Abbreviation well_keyed := (Integrator.well_keyed Function Node).

(** What a registration that went through did. *)
Lemma registerPlugin_inr (flag : Z) (pl : Plugin)
    (solvers solvers' : gmap string Plugin) :
  registerPlugin (flag, pl) solvers = inr solvers' ->
  flag = 0 /\ solvers !! name pl = None /\
  solvers' = <[name pl := pl]> solvers.
Proof.
  unfold Integrator.registerPlugin. simpl.
  destruct (flag =? 0) eqn:Hf; simpl; [|done].
  destruct (solvers !! name pl) eqn:Hl; [done|].
  intros [= <-]. split; [lia|]. by split.
Qed.

(** Inserting a plugin under its own free name keeps the registry's
    entries and its keying. *)
Lemma insert_fresh_keeps (pl : Plugin) (solvers : gmap string Plugin) :
  solvers !! name pl = None ->
  solvers ⊆ <[name pl := pl]> solvers /\
  (well_keyed solvers -> well_keyed (<[name pl := pl]> solvers)).
Proof.
  intros Hl. split; [by apply insert_subseteq|].
  intros Hwk k pl0. destruct (decide (k = name pl)) as [->|Hne].
  - rewrite lookup_insert_eq. by intros [= <-].
  - rewrite lookup_insert_ne by done. apply Hwk.
Qed.

(** A successful registration is an insertion under a fresh name: the flag
    was 0, the name was free, the plugin is now found under its name, every
    other entry is as before, and registering under that name again is
    refused with "already in use". *)
Theorem registerPlugin_inserts_fresh (flag : Z) (pl : Plugin)
    (solvers solvers' : gmap string Plugin) :
  registerPlugin (flag, pl) solvers = inr solvers' ->
  flag = 0 /\ solvers !! name pl = None /\
  solvers' !! name pl = Some pl /\
  (forall k, k <> name pl -> solvers' !! k = solvers !! k) /\
  (forall pl', name pl' = name pl ->
               registerPlugin (0, pl') solvers'
               = inl (Integrator.Solver_in_use (name pl))).
Proof.
  intros H. apply registerPlugin_inr in H as (Hf & Hl & ->).
  split; [done|]. split; [done|].
  split; [apply lookup_insert_eq|].
  split; [intros k Hk; by apply lookup_insert_ne|].
  intros pl' Hn. unfold Integrator.registerPlugin. simpl.
  rewrite Hn. by rewrite lookup_insert_eq.
Qed.

(** Registration never replaces or removes a plugin: it fails when the
    flag is not 0 or the name is taken, and when it succeeds the old
    registry is contained in the new one and plugins stay filed under
    their own names. *)
Theorem registerPlugin_never_overwrites (regfcn : Z * Plugin)
    (solvers : gmap string Plugin) :
  (regfcn.1 <> 0 ->
   registerPlugin regfcn solvers = inl Integrator.Registration_failed) /\
  (regfcn.1 = 0 -> is_Some (solvers !! name regfcn.2) ->
   registerPlugin regfcn solvers
   = inl (Integrator.Solver_in_use (name regfcn.2))) /\
  (forall solvers',
      registerPlugin regfcn solvers = inr solvers' ->
      solvers ⊆ solvers' /\ (well_keyed solvers -> well_keyed solvers')).
Proof.
  unfold Integrator.registerPlugin.
  destruct regfcn as [flag pl]. simpl. split; [|split].
  - intros Hf. by replace (flag =? 0) with false by lia.
  - intros -> [pl0 Hl]. simpl. by rewrite Hl.
  - intros solvers' H.
    apply (registerPlugin_inr flag pl) in H as (_ & Hl & ->).
    by apply insert_fresh_keeps.
Qed.

(** Constructing an integrator by name: whenever it yields a node, the name
    is registered afterwards and the node was made by the creator of the
    plugin found under that name; a name that is already registered is
    used as it is, without loading; the registry is never shrunk or
    overwritten, also when the construction throws. *)
Theorem Integrator_new_uses_registered (nm : string) (f g : Function)
    (solvers solvers' : gmap string Plugin) (res : Integrator.Exception + Node) :
  Integrator_new nm f g solvers = (res, solvers') ->
  solvers ⊆ solvers' /\
  (well_keyed solvers -> well_keyed solvers') /\
  (forall node, res = inr node ->
                exists pl, solvers' !! nm = Some pl /\ node = creator pl f g) /\
  (forall pl, solvers !! nm = Some pl ->
              res = inr (creator pl f g) /\ solvers' = solvers).
Proof.
  unfold Integrator.Integrator_new.
  destruct (solvers !! nm) as [pl|] eqn:Hl.
  - intros [= <- <-]. split; [done|]. split; [done|]. split.
    + intros node [= <-]. by exists pl.
    + by intros pl0 [= <-].
  - destruct (loadPlugin nm solvers) as [e|solvers1] eqn:Hload.
    + intros [= <- <-]. split; [done|]. split; [done|]. by split.
    + assert (Hsub : solvers ⊆ solvers1 /\
                     (well_keyed solvers -> well_keyed solvers1)).
      { unfold Integrator.loadPlugin in Hload.
        destruct WITH_DL; [|done].
        destruct (FunctionInternal_loadPlugin nm) as [e|[flag pl]]; [done|].
        apply registerPlugin_inr in Hload as (_ & Hfree & ->).
        by apply insert_fresh_keeps. }
      destruct Hsub as [Hsub Hwk].
      destruct (solvers1 !! nm) as [pl|] eqn:Hl1; intros [= <- <-];
        (split; [done|]); (split; [done|]); (split; [|done]).
      * intros node [= <-]. by exists pl.
      * done.
Qed.

(** Registering and then constructing: after a successful registration of
    a plugin, constructing an integrator by that plugin's name yields the
    node its creator makes and leaves the registry alone, whether or not
    dynamic loading is available. *)
Theorem register_then_construct (flag : Z) (pl : Plugin) (f g : Function)
    (solvers solvers' : gmap string Plugin) :
  registerPlugin (flag, pl) solvers = inr solvers' ->
  Integrator_new (name pl) f g solvers' = (inr (creator pl f g), solvers').
Proof.
  intros H. apply registerPlugin_inr in H as (_ & _ & ->).
  unfold Integrator.Integrator_new. by rewrite lookup_insert_eq.
Qed.

(** Constructing under a name that is not registered.  Without WITH_DL it
    throws "WITH_DL option needed" and registers nothing.  With WITH_DL
    the loaded registration function decides: an exception of the loader
    or a non-zero flag is passed on with the registry untouched; a plugin
    that registers under the requested name is inserted and used; a plugin
    that registers under another, free name is inserted all the same, yet
    the construction throws because the requested name is still missing;
    and a plugin whose own name is taken is refused. *)
Theorem Integrator_new_unregistered (nm : string) (f g : Function)
    (solvers : gmap string Plugin) :
  solvers !! nm = None ->
  (WITH_DL = false ->
   Integrator_new nm f g solvers = (inl Integrator.WITH_DL_needed, solvers)) /\
  (forall e, WITH_DL = true -> FunctionInternal_loadPlugin nm = inl e ->
             Integrator_new nm f g solvers = (inl e, solvers)) /\
  (forall flag pl,
      WITH_DL = true -> FunctionInternal_loadPlugin nm = inr (flag, pl) ->
      flag <> 0 ->
      Integrator_new nm f g solvers
      = (inl Integrator.Registration_failed, solvers)) /\
  (forall pl,
      WITH_DL = true -> FunctionInternal_loadPlugin nm = inr (0, pl) ->
      name pl = nm ->
      Integrator_new nm f g solvers
      = (inr (creator pl f g), <[nm := pl]> solvers)) /\
  (forall pl,
      WITH_DL = true -> FunctionInternal_loadPlugin nm = inr (0, pl) ->
      name pl <> nm -> solvers !! name pl = None ->
      Integrator_new nm f g solvers
      = (inl Integrator.Solver_not_found, <[name pl := pl]> solvers)) /\
  (forall pl,
      WITH_DL = true -> FunctionInternal_loadPlugin nm = inr (0, pl) ->
      is_Some (solvers !! name pl) ->
      Integrator_new nm f g solvers
      = (inl (Integrator.Solver_in_use (name pl)), solvers)).
Proof.
  intros Hnone.
  unfold Integrator.Integrator_new, Integrator.loadPlugin,
    Integrator.registerPlugin.
  rewrite Hnone. repeat split.
  - by intros ->.
  - intros e -> ->. done.
  - intros flag pl -> -> Hf. simpl.
    by replace (flag =? 0) with false by lia.
  - intros pl -> -> Hn. simpl. rewrite Hn, Hnone.
    by rewrite lookup_insert_eq.
  - intros pl -> -> Hn Hfree. simpl. rewrite Hfree.
    by rewrite lookup_insert_ne, Hnone.
  - intros pl -> -> [pl0 Hl]. simpl. by rewrite Hl.
Qed.

End RegistryFacts.

(** *** Instances for the registry *)

Section RegistryInstances.

Import IntegratorExample.

Local Abbreviation Node := (string * string * string)%type.
Local Abbreviation registerPlugin := (Integrator.registerPlugin string Node).
Local Abbreviation Integrator_new :=
  (Integrator.Integrator_new string Node true load_idas).

(** The registry after [cvodes] has registered. *)
Local Abbreviation reg1 := (<[ "cvodes" := cvodes ]> (∅ : gmap string (Integrator.Plugin string Node))).

Lemma registerPlugin_inserts_fresh_witness :
  registerPlugin (0, cvodes) ∅ = inr reg1 /\
  reg1 !! "cvodes" = Some cvodes /\
  registerPlugin (0, cvodes) reg1 = inl (Integrator.Solver_in_use "cvodes").
Proof.
  assert (H : registerPlugin (0, cvodes) ∅ = inr reg1) by reflexivity.
  split; [exact H|].
  destruct (registerPlugin_inserts_fresh string Node 0 cvodes ∅ reg1 H)
    as (_ & _ & Hl & _ & Hagain).
  split; [exact Hl|]. exact (Hagain cvodes eq_refl).
Defined.

Lemma registerPlugin_never_overwrites_witness :
  registerPlugin (0, idas) reg1 = inr (<[ "idas" := idas ]> reg1) /\
  reg1 ⊆ <[ "idas" := idas ]> reg1.
Proof.
  assert (H : registerPlugin (0, idas) reg1 = inr (<[ "idas" := idas ]> reg1))
    by reflexivity.
  split; [exact H|].
  destruct (registerPlugin_never_overwrites string Node (0, idas) reg1)
    as (_ & _ & Hsub).
  exact (proj1 (Hsub _ H)).
Defined.

Lemma Integrator_new_uses_registered_witness :
  Integrator_new "idas" "f" "g" reg1
  = (inr ("idas", "f", "g"), <[ "idas" := idas ]> reg1) /\
  reg1 ⊆ <[ "idas" := idas ]> reg1 /\
  exists pl, (<[ "idas" := idas ]> reg1) !! "idas" = Some pl /\
             ("idas", "f", "g") = Integrator.creator string Node pl "f" "g".
Proof.
  assert (H : Integrator_new "idas" "f" "g" reg1
              = (inr ("idas", "f", "g"), <[ "idas" := idas ]> reg1))
    by reflexivity.
  split; [exact H|].
  destruct (Integrator_new_uses_registered string Node true load_idas
              "idas" "f" "g" reg1 _ _ H) as (Hsub & _ & Hnode & _).
  split; [exact Hsub|]. exact (Hnode _ eq_refl).
Defined.

Lemma register_then_construct_witness :
  registerPlugin (0, cvodes) ∅ = inr reg1 /\
  Integrator.Integrator_new string Node false load_idas "cvodes" "f" "g" reg1
  = (inr ("cvodes", "f", "g"), reg1).
Proof.
  assert (H : registerPlugin (0, cvodes) ∅ = inr reg1) by reflexivity.
  split; [exact H|].
  exact (register_then_construct string Node false load_idas 0 cvodes
           "f" "g" ∅ reg1 H).
Defined.

Lemma Integrator_new_unregistered_witness :
  reg1 !! "kinsol" = None /\
  Integrator_new "kinsol" "f" "g" reg1
  = (inl Integrator.Solver_not_found, <[ "idas" := idas ]> reg1).
Proof.
  assert (H : reg1 !! "kinsol" = None) by reflexivity.
  split; [exact H|].
  destruct (Integrator_new_unregistered string Node true load_idas
              "kinsol" "f" "g" reg1 H) as (_ & _ & _ & _ & Hother & _).
  apply (Hother idas eq_refl eq_refl); [discriminate|reflexivity].
Defined.

End RegistryInstances.

(** ** Set-up of the solver object *)

Section SetupFacts.

Variable Function : Type.
Variable Sparsity : Type.
Variable GenericType : Type.
Variable Nlpsol : Type.
Variable to_int : GenericType -> option Z.
Variable to_double : GenericType -> option double.
Variable to_bool : GenericType -> option bool.
Variable to_string : GenericType -> option string.
Variable to_dict : GenericType -> option (gmap string GenericType).
Variable Nlpsol_init : gmap string GenericType -> string + Nlpsol.
Variable nx_ : Nlpsol -> Z.
Variable create_function :
  string -> list string -> list string -> list (string * list string) -> Function.
Variable sparsity_out : Function -> Z -> Sparsity.
Variable Sparsity_dense : Z -> Z -> Sparsity.
Variable conic :
  string -> string -> Sparsity -> Sparsity -> gmap string GenericType ->
  string + Function.

Variable calc_f_ calc_g_ calc_lam_x_ calc_lam_p_ : Nlpsol -> bool.
Variable Nlpsol_serialize_body :
  Nlpsol -> list (string * Setup.Packed Function Sparsity).
Variable Nlpsol_deserialize :
  list (string * Setup.Packed Function Sparsity) ->
  option (Nlpsol * list (string * Setup.Packed Function Sparsity)).
Variable GenericType_string : string -> GenericType.
Variable GenericType_int : Z -> GenericType.

Local Abbreviation Dict := (gmap string GenericType).
Local Abbreviation Members := (Setup.Members Function Sparsity).
Local Abbreviation Locals := (Setup.Locals GenericType).
Local Abbreviation read_option :=
  (Setup.read_option Function Sparsity GenericType
     to_int to_double to_bool to_string to_dict).
Local Abbreviation read_options :=
  (Setup.read_options Function Sparsity GenericType
     to_int to_double to_bool to_string to_dict).
Local Abbreviation read_by_key :=
  (Setup.read_by_key Function Sparsity GenericType
     to_int to_double to_bool to_string to_dict).
Local Abbreviation read_as := (Setup.read_as GenericType).
Local Abbreviation codegen_declarations :=
  (Setup.codegen_declarations Function Sparsity Nlpsol
     calc_f_ calc_g_ calc_lam_x_ calc_lam_p_).
Local Abbreviation serialize_body :=
  (Setup.serialize_body Function Sparsity Nlpsol Nlpsol_serialize_body).
Local Abbreviation deserialize :=
  (Setup.deserialize Function Sparsity Nlpsol Nlpsol_deserialize).
Local Abbreviation get_stats :=
  (Setup.get_stats GenericType GenericType_string GenericType_int).
Local Abbreviation converts :=
  (Setup.converts GenericType to_int to_double to_bool to_string to_dict).
Local Abbreviation init :=
  (Setup.init Function Sparsity GenericType Nlpsol
     to_int to_double to_bool to_string to_dict
     Nlpsol_init nx_ create_function sparsity_out Sparsity_dense conic).

Lemma read_as_insert_eq {A : Type} (conv : GenericType -> option A)
    (key : string) (default : A) (v : GenericType) (opts : Dict) :
  read_as conv key default (<[key := v]> opts) = conv v.
Proof. unfold Setup.read_as. by rewrite lookup_insert_eq. Qed.

Lemma read_as_insert_ne {A : Type} (conv : GenericType -> option A)
    (key key' : string) (default : A) (v : GenericType) (opts : Dict) :
  key' <> key ->
  read_as conv key default (<[key' := v]> opts) = read_as conv key default opts.
Proof. intros Hne. unfold Setup.read_as. by rewrite lookup_insert_ne. Qed.

Lemma read_as_absent {A : Type} (conv : GenericType -> option A)
    (key : string) (default : A) (opts : Dict) :
  opts !! key = None -> read_as conv key default opts = Some default.
Proof. intros Hn. unfold Setup.read_as. by rewrite Hn. Qed.

(** Case analysis on what is read under each key of [m], in the order of
    [read_by_key]; [tac] closes the case of a conversion that throws. *)
Local Ltac read_all m tac :=
  try (destruct (Setup.read_as _ _ "max_iter" _ m); cbn [mbind option_bind]; [|tac]);
  try (destruct (Setup.read_as _ _ "min_iter" _ m); cbn [mbind option_bind]; [|tac]);
  try (destruct (Setup.read_as _ _ "max_iter_ls" _ m); cbn [mbind option_bind]; [|tac]);
  try (destruct (Setup.read_as _ _ "c1" _ m); cbn [mbind option_bind]; [|tac]);
  try (destruct (Setup.read_as _ _ "beta" _ m); cbn [mbind option_bind]; [|tac]);
  try (destruct (Setup.read_as _ _ "merit_memory" _ m); cbn [mbind option_bind]; [|tac]);
  try (destruct (Setup.read_as _ _ "lbfgs_memory" _ m); cbn [mbind option_bind]; [|tac]);
  try (destruct (Setup.read_as _ _ "tol_pr" _ m); cbn [mbind option_bind]; [|tac]);
  try (destruct (Setup.read_as _ _ "tol_du" _ m); cbn [mbind option_bind]; [|tac]);
  try (destruct (Setup.read_as _ _ "hessian_approximation" _ m); cbn [mbind option_bind]; [|tac]);
  try (destruct (Setup.read_as _ _ "min_step_size" _ m); cbn [mbind option_bind]; [|tac]);
  try (destruct (Setup.read_as _ _ "qpsol" _ m); cbn [mbind option_bind]; [|tac]);
  try (destruct (Setup.read_as _ _ "qpsol_options" _ m); cbn [mbind option_bind]; [|tac]);
  try (destruct (Setup.read_as _ _ "regularize" _ m); cbn [mbind option_bind]; [|tac]);
  try (destruct (Setup.read_as _ _ "print_header" _ m); cbn [mbind option_bind]; [|tac]);
  try (destruct (Setup.read_as _ _ "print_iteration" _ m); cbn [mbind option_bind]; [|tac]);
  try (destruct (Setup.read_as _ _ "print_status" _ m); cbn [mbind option_bind]; [|tac]).

Local Ltac read_key Hnone v m :=
  unfold Setup.read_by_key;
  rewrite read_as_insert_eq;
  rewrite !read_as_insert_ne by done;
  rewrite (read_as_absent _ _ _ _ Hnone);
  cbv beta iota; cbn [fst snd];
  match goal with
  | |- context [mbind _ (?c v)] => destruct (c v); cbn [mbind option_bind]
  end;
  read_all m ltac:(reflexivity);
  reflexivity.

(** The loop over the dictionary reads each recognised key on its own. *)
Lemma read_options_by_key (opts : Dict) (st : Members * Locals) :
  read_options opts st = read_by_key opts st.
Proof.
  unfold Setup.read_options.
  apply (map_fold_weak_ind (fun r m => r = read_by_key m st)).
  - unfold Setup.read_by_key.
    rewrite !read_as_absent by apply lookup_empty.
    by destruct st as [[] []].
  - intros key v m r Hnone ->.
    unfold Setup.read_option. destruct st as [this loc].
    destruct (String.eqb_spec key "max_iter") as [->|?]; [read_key Hnone v m|].
    destruct (String.eqb_spec key "min_iter") as [->|?]; [read_key Hnone v m|].
    destruct (String.eqb_spec key "max_iter_ls") as [->|?]; [read_key Hnone v m|].
    destruct (String.eqb_spec key "c1") as [->|?]; [read_key Hnone v m|].
    destruct (String.eqb_spec key "beta") as [->|?]; [read_key Hnone v m|].
    destruct (String.eqb_spec key "merit_memory") as [->|?]; [read_key Hnone v m|].
    destruct (String.eqb_spec key "lbfgs_memory") as [->|?]; [read_key Hnone v m|].
    destruct (String.eqb_spec key "tol_pr") as [->|?]; [read_key Hnone v m|].
    destruct (String.eqb_spec key "tol_du") as [->|?]; [read_key Hnone v m|].
    destruct (String.eqb_spec key "hessian_approximation") as [->|?]; [read_key Hnone v m|].
    destruct (String.eqb_spec key "min_step_size") as [->|?]; [read_key Hnone v m|].
    destruct (String.eqb_spec key "qpsol") as [->|?]; [read_key Hnone v m|].
    destruct (String.eqb_spec key "qpsol_options") as [->|?]; [read_key Hnone v m|].
    destruct (String.eqb_spec key "regularize") as [->|?]; [read_key Hnone v m|].
    destruct (String.eqb_spec key "print_header") as [->|?]; [read_key Hnone v m|].
    destruct (String.eqb_spec key "print_iteration") as [->|?]; [read_key Hnone v m|].
    destruct (String.eqb_spec key "print_status") as [->|?]; [read_key Hnone v m|].
    replace (read_by_key (<[key := v]> m) (this, loc))
      with (read_by_key m (this, loc))
      by (unfold Setup.read_by_key; by rewrite !read_as_insert_ne by done).
    by destruct (read_by_key m (this, loc)) as [[? ?]|].
Qed.

(** Projections of updated members. *)
Local Ltac members_cbn :=
  cbn [fst snd Setup.set_sqpmethod_prob
       Setup.hessian_approximation Setup.qpsol_plugin Setup.qpsol_options
              Setup.qpsol_ Setup.set_qpsol_ Setup.exact_hessian_
       Setup.set_exact_hessian_ Setup.max_iter_ Setup.set_max_iter_
       Setup.min_iter_ Setup.set_min_iter_ Setup.lbfgs_memory_
       Setup.set_lbfgs_memory_ Setup.tol_pr_ Setup.set_tol_pr_ Setup.tol_du_
       Setup.set_tol_du_ Setup.min_step_size_ Setup.set_min_step_size_
       Setup.c1_ Setup.set_c1_ Setup.beta_ Setup.set_beta_ Setup.max_iter_ls_
       Setup.set_max_iter_ls_ Setup.merit_memsize_ Setup.set_merit_memsize_
       Setup.print_header_ Setup.set_print_header_ Setup.print_iteration_
       Setup.set_print_iteration_ Setup.print_status_ Setup.set_print_status_
       Setup.Hsp_ Setup.set_Hsp_ Setup.Asp_ Setup.set_Asp_ Setup.regularize_
       Setup.set_regularize_ Setup.p_ Setup.set_p_].

(** The members and locals that [init] enters the option loop with. *)
Local Abbreviation with_defaults this :=
  (Setup.set_print_status_ Function Sparsity true
     (Setup.set_print_iteration_ _ _ true
        (Setup.set_print_header_ _ _ true
           (Setup.set_min_step_size_ _ _ (lit 1 10000000000)
              (Setup.set_regularize_ _ _ false
                 (Setup.set_tol_du_ _ _ (lit 1 1000000)
                    (Setup.set_tol_pr_ _ _ (lit 1 1000000)
                       (Setup.set_lbfgs_memory_ _ _ 10
                          (Setup.set_merit_memsize_ _ _ 4
                             (Setup.set_beta_ _ _ (lit 8 10)
                                (Setup.set_c1_ _ _ (lit 1 10000)
                                   (Setup.set_max_iter_ls_ _ _ 3
                                      (Setup.set_max_iter_ _ _ 50
                                         (Setup.set_min_iter_ _ _ 0 this)))))))))))))).
Local Abbreviation default_locals :=
  ({| Setup.hessian_approximation := "exact";
      Setup.qpsol_plugin := "qpoases";
      Setup.qpsol_options := ∅ |} : Locals).

(** [init] from the end of the option loop on. *)
Lemma init_after_options (this : Members) (opts : Dict) (base : Nlpsol)
    (this1 : Members) (loc : Locals) :
  Nlpsol_init opts = inr base ->
  read_by_key opts (with_defaults this, default_locals) = Some (this1, loc) ->
  let exact := String.eqb (Setup.hessian_approximation _ loc) "exact" in
  let jac := create_function "nlp_jac_fg" ["x"; "p"]
               ["f"; "grad:f:x"; "g"; "jac:g:x"] [] in
  let hess := create_function "nlp_hess_l" ["x"; "p"; "lam:f"; "lam:g"]
                ["sym:hess:gamma:x:x"] [("gamma", ["f"; "g"])] in
  let H := if exact then sparsity_out hess 0
           else Sparsity_dense (nx_ base) (nx_ base) in
  let A := sparsity_out jac 3 in
  init this opts
  = if String.eqb (Setup.qpsol_plugin _ loc) "" then inl Setup.Qpsol_not_set
    else
      match conic "qpsol" (Setup.qpsol_plugin _ loc) H A
              (Setup.qpsol_options _ loc) with
      | inl what => inl (Setup.Conic_exception what)
      | inr q =>
          inr (base,
               Setup.set_sqpmethod_prob _ _
                 (Setup.set_qpsol_ _ _ q
                    (Setup.set_Hsp_ _ _ H
                       (Setup.set_Asp_ _ _ A
                          (Setup.set_exact_hessian_ _ _ exact this1)))),
               (if negb (Setup.max_iter_ls_ _ _ this1 =? 0)
                then [("nlp_fg",
                       create_function "nlp_fg" ["x"; "p"] ["f"; "g"] [])]
                else [])
               ++ [("nlp_jac_fg", jac)]
               ++ (if exact then [("nlp_hess_l", hess)] else []))
      end.
Proof.
  intros Hb Hr. unfold Setup.init. rewrite Hb, read_options_by_key, Hr.
  cbn zeta.
  destruct (String.eqb (Setup.hessian_approximation _ loc) "exact");
    members_cbn; rewrite <- ?app_assoc, ?app_nil_r; reflexivity.
Qed.

(** What [init] has in hand when it succeeds. *)
Lemma init_inr (this : Members) (opts : Dict) (base : Nlpsol) (o : Members)
    (fs : list (string * Function)) :
  init this opts = inr (base, o, fs) ->
  exists this1 loc q,
    Nlpsol_init opts = inr base /\
    read_by_key opts (with_defaults this, default_locals) = Some (this1, loc) /\
    Setup.qpsol_plugin _ loc <> "" /\
    let exact := String.eqb (Setup.hessian_approximation _ loc) "exact" in
    let jac := create_function "nlp_jac_fg" ["x"; "p"]
                 ["f"; "grad:f:x"; "g"; "jac:g:x"] [] in
    let hess := create_function "nlp_hess_l" ["x"; "p"; "lam:f"; "lam:g"]
                  ["sym:hess:gamma:x:x"] [("gamma", ["f"; "g"])] in
    let H := if exact then sparsity_out hess 0
             else Sparsity_dense (nx_ base) (nx_ base) in
    let A := sparsity_out jac 3 in
    conic "qpsol" (Setup.qpsol_plugin _ loc) H A (Setup.qpsol_options _ loc)
    = inr q /\
    o = Setup.set_sqpmethod_prob _ _
          (Setup.set_qpsol_ _ _ q
             (Setup.set_Hsp_ _ _ H
                (Setup.set_Asp_ _ _ A
                   (Setup.set_exact_hessian_ _ _ exact this1)))) /\
    fs = (if negb (Setup.max_iter_ls_ _ _ this1 =? 0)
          then [("nlp_fg", create_function "nlp_fg" ["x"; "p"] ["f"; "g"] [])]
          else [])
         ++ [("nlp_jac_fg", jac)]
         ++ (if exact then [("nlp_hess_l", hess)] else []).
Proof.
  intros H.
  destruct (Nlpsol_init opts) as [w|base0] eqn:Hb;
    [unfold Setup.init in H; by rewrite Hb in H|].
  destruct (read_by_key opts (with_defaults this, default_locals))
    as [[this1 loc]|] eqn:Hr;
    [|unfold Setup.init in H; by rewrite Hb, read_options_by_key, Hr in H].
  rewrite (init_after_options this opts base0 this1 loc Hb Hr) in H.
  cbn zeta in H.
  destruct (String.eqb_spec (Setup.qpsol_plugin _ loc) "") as [He|Hne];
    [done|].
  match type of H with context [conic ?a ?b ?c ?d ?e] =>
    destruct (conic a b c d e) as [w|q] eqn:Hq end; [done|].
  injection H as <- <- <-. by exists this1, loc, q.
Qed.

(** What a successful pass of the key-by-key reading read. *)
Lemma read_by_key_Some (opts : Dict) (this this1 : Members) (loc loc1 : Locals) :
  read_by_key opts (this, loc) = Some (this1, loc1) ->
  read_as to_int "max_iter" (Setup.max_iter_ _ _ this) opts
  = Some (Setup.max_iter_ _ _ this1) /\
  read_as to_int "min_iter" (Setup.min_iter_ _ _ this) opts
  = Some (Setup.min_iter_ _ _ this1) /\
  read_as to_int "max_iter_ls" (Setup.max_iter_ls_ _ _ this) opts
  = Some (Setup.max_iter_ls_ _ _ this1) /\
  read_as to_double "c1" (Setup.c1_ _ _ this) opts
  = Some (Setup.c1_ _ _ this1) /\
  read_as to_double "beta" (Setup.beta_ _ _ this) opts
  = Some (Setup.beta_ _ _ this1) /\
  read_as to_int "merit_memory" (Setup.merit_memsize_ _ _ this) opts
  = Some (Setup.merit_memsize_ _ _ this1) /\
  read_as to_int "lbfgs_memory" (Setup.lbfgs_memory_ _ _ this) opts
  = Some (Setup.lbfgs_memory_ _ _ this1) /\
  read_as to_double "tol_pr" (Setup.tol_pr_ _ _ this) opts
  = Some (Setup.tol_pr_ _ _ this1) /\
  read_as to_double "tol_du" (Setup.tol_du_ _ _ this) opts
  = Some (Setup.tol_du_ _ _ this1) /\
  read_as to_string "hessian_approximation" (Setup.hessian_approximation _ loc) opts
  = Some (Setup.hessian_approximation _ loc1) /\
  read_as to_double "min_step_size" (Setup.min_step_size_ _ _ this) opts
  = Some (Setup.min_step_size_ _ _ this1) /\
  read_as to_string "qpsol" (Setup.qpsol_plugin _ loc) opts
  = Some (Setup.qpsol_plugin _ loc1) /\
  read_as to_dict "qpsol_options" (Setup.qpsol_options _ loc) opts
  = Some (Setup.qpsol_options _ loc1) /\
  read_as to_bool "regularize" (Setup.regularize_ _ _ this) opts
  = Some (Setup.regularize_ _ _ this1) /\
  read_as to_bool "print_header" (Setup.print_header_ _ _ this) opts
  = Some (Setup.print_header_ _ _ this1) /\
  read_as to_bool "print_iteration" (Setup.print_iteration_ _ _ this) opts
  = Some (Setup.print_iteration_ _ _ this1) /\
  read_as to_bool "print_status" (Setup.print_status_ _ _ this) opts
  = Some (Setup.print_status_ _ _ this1) /\
  Setup.qpsol_ _ _ this1 = Setup.qpsol_ _ _ this /\
  Setup.exact_hessian_ _ _ this1 = Setup.exact_hessian_ _ _ this /\
  Setup.Hsp_ _ _ this1 = Setup.Hsp_ _ _ this /\
  Setup.Asp_ _ _ this1 = Setup.Asp_ _ _ this /\
  Setup.p_ _ _ this1 = Setup.p_ _ _ this.
Proof.
  unfold Setup.read_by_key. cbn [fst snd].
  read_all opts ltac:(done).
  intros [= <- <-]. cbn. repeat split.
Qed.

(** The options as [init] reads them.  When [init] succeeds, every member
    that has an option holds the value given under the option's key,
    converted by the conversion of the option's type, or the default when
    the key is absent: max_iter 50, min_iter 0, max_iter_ls 3, c1 1e-4,
    beta 0.8, merit_memory 4, lbfgs_memory 10, tol_pr and tol_du 1e-6,
    min_step_size 1e-10, regularize false, the three print flags true; the
    exact Hessian is used exactly when "hessian_approximation", by default
    "exact", is the string "exact"; the QP solver is the one [conic] makes
    for the plugin named by "qpsol", by default "qpoases" and never the
    empty string, with the options under "qpsol_options".  No other key of
    the dictionary is looked at. *)
Theorem init_reads_options (this : Members) (opts : Dict) (base : Nlpsol)
    (o : Members) (fs : list (string * Function)) :
  init this opts = inr (base, o, fs) ->
  read_as to_int "max_iter" 50 opts = Some (Setup.max_iter_ _ _ o) /\
  read_as to_int "min_iter" 0 opts = Some (Setup.min_iter_ _ _ o) /\
  read_as to_int "max_iter_ls" 3 opts = Some (Setup.max_iter_ls_ _ _ o) /\
  read_as to_double "c1" (lit 1 10000) opts = Some (Setup.c1_ _ _ o) /\
  read_as to_double "beta" (lit 8 10) opts = Some (Setup.beta_ _ _ o) /\
  read_as to_int "merit_memory" 4 opts = Some (Setup.merit_memsize_ _ _ o) /\
  read_as to_int "lbfgs_memory" 10 opts = Some (Setup.lbfgs_memory_ _ _ o) /\
  read_as to_double "tol_pr" (lit 1 1000000) opts = Some (Setup.tol_pr_ _ _ o) /\
  read_as to_double "tol_du" (lit 1 1000000) opts = Some (Setup.tol_du_ _ _ o) /\
  read_as to_double "min_step_size" (lit 1 10000000000) opts
  = Some (Setup.min_step_size_ _ _ o) /\
  read_as to_bool "regularize" false opts = Some (Setup.regularize_ _ _ o) /\
  read_as to_bool "print_header" true opts = Some (Setup.print_header_ _ _ o) /\
  read_as to_bool "print_iteration" true opts
  = Some (Setup.print_iteration_ _ _ o) /\
  read_as to_bool "print_status" true opts = Some (Setup.print_status_ _ _ o) /\
  (exists h, read_as to_string "hessian_approximation" "exact" opts = Some h /\
             Setup.exact_hessian_ _ _ o = String.eqb h "exact") /\
  (exists plugin qopts,
      read_as to_string "qpsol" "qpoases" opts = Some plugin /\
      plugin <> "" /\
      read_as to_dict "qpsol_options" ∅ opts = Some qopts /\
      conic "qpsol" plugin (Setup.Hsp_ _ _ o) (Setup.Asp_ _ _ o) qopts
      = inr (Setup.qpsol_ _ _ o)).
Proof.
  intros H. apply init_inr in H as (this1 & loc & q & _ & Hr & Hne & Hq & -> & _).
  apply read_by_key_Some in Hr.
  cbn in Hr.
  destruct Hr as (? & ? & ? & ? & ? & ? & ? & ? & ? & Hh & ? & Hp & Hqo & ? & ?
                  & ? & ? & _).
  cbn. repeat (split; [done|]). split.
  - by eexists.
  - by exists (Setup.qpsol_plugin _ loc), (Setup.qpsol_options _ loc).
Qed.

(** [init] overwrites the whole object: nothing of what the members held
    before, from an earlier configuration or from no initialisation at
    all, reaches the result, be it the object built or the exception. *)
Theorem init_overwrites_object (this this' : Members) (opts : Dict) :
  init this opts = init this' opts.
Proof.
  unfold Setup.init.
  destruct (Nlpsol_init opts) as [w|base]; [done|].
  rewrite !read_options_by_key.
  unfold Setup.read_by_key. members_cbn.
  read_all opts ltac:(reflexivity).
  match goal with
  | |- context [String.eqb ?h "exact"] => destruct (String.eqb h "exact")
  end; members_cbn; reflexivity.
Qed.

Lemma read_as_present {A : Type} (conv : GenericType -> option A)
    (key : string) (default : A) (opts : Dict) (v : GenericType) :
  opts !! key = Some v -> read_as conv key default opts = conv v.
Proof. intros Hl. unfold Setup.read_as. by rewrite Hl. Qed.

Lemma read_as_None {A : Type} (conv : GenericType -> option A)
    (key : string) (default : A) (opts : Dict) :
  read_as conv key default opts = None ->
  exists v, opts !! key = Some v /\ conv v = None.
Proof.
  unfold Setup.read_as. destruct (opts !! key) as [v|]; [|done]. by exists v.
Qed.

Local Ltac read_fails k :=
  match goal with
  | H : Setup.read_as _ _ k _ _ = None |- _ =>
      let v := fresh "v" in
      let Hl := fresh "Hl" in
      let Hc := fresh "Hc" in
      intros _; apply read_as_None in H as (v & Hl & Hc);
      eexists k, _, v; split;
      [unfold Setup.options_;
       repeat (first [apply list_elem_of_here | apply list_elem_of_further])
      |split; [exact Hl|];
       cbn [Setup.converts]; apply bool_decide_eq_false;
       rewrite Hc; by intros [? ?]]
  end.

Local Ltac conv_fails opts Hl Hc :=
  cbn [Setup.converts] in Hc; apply bool_decide_eq_false in Hc;
  unfold Setup.read_by_key;
  rewrite (read_as_present _ _ _ _ _ Hl);
  match goal with
  | |- context [mbind _ (?c ?v)] =>
      destruct (c v) eqn:?; [exfalso; apply Hc; by eexists|]
  end;
  read_all opts ltac:(reflexivity); reflexivity.

(** The option loop throws exactly when the dictionary holds, under a key
    of the option table, a value that does not convert to the type the
    table gives for the key. *)
Lemma read_by_key_None (opts : Dict) (st : Members * Locals) :
  read_by_key opts st = None <->
  exists key ty v, (key, ty) ∈ Setup.options_ /\ opts !! key = Some v /\
                   converts ty v = false.
Proof.
  split.
  - unfold Setup.read_by_key.
    destruct (Setup.read_as _ _ "max_iter" _ opts) eqn:?; cbn [mbind option_bind];
      [|read_fails "max_iter"].
    destruct (Setup.read_as _ _ "min_iter" _ opts) eqn:?; cbn [mbind option_bind];
      [|read_fails "min_iter"].
    destruct (Setup.read_as _ _ "max_iter_ls" _ opts) eqn:?; cbn [mbind option_bind];
      [|read_fails "max_iter_ls"].
    destruct (Setup.read_as _ _ "c1" _ opts) eqn:?; cbn [mbind option_bind];
      [|read_fails "c1"].
    destruct (Setup.read_as _ _ "beta" _ opts) eqn:?; cbn [mbind option_bind];
      [|read_fails "beta"].
    destruct (Setup.read_as _ _ "merit_memory" _ opts) eqn:?; cbn [mbind option_bind];
      [|read_fails "merit_memory"].
    destruct (Setup.read_as _ _ "lbfgs_memory" _ opts) eqn:?; cbn [mbind option_bind];
      [|read_fails "lbfgs_memory"].
    destruct (Setup.read_as _ _ "tol_pr" _ opts) eqn:?; cbn [mbind option_bind];
      [|read_fails "tol_pr"].
    destruct (Setup.read_as _ _ "tol_du" _ opts) eqn:?; cbn [mbind option_bind];
      [|read_fails "tol_du"].
    destruct (Setup.read_as _ _ "hessian_approximation" _ opts) eqn:?; cbn [mbind option_bind];
      [|read_fails "hessian_approximation"].
    destruct (Setup.read_as _ _ "min_step_size" _ opts) eqn:?; cbn [mbind option_bind];
      [|read_fails "min_step_size"].
    destruct (Setup.read_as _ _ "qpsol" _ opts) eqn:?; cbn [mbind option_bind];
      [|read_fails "qpsol"].
    destruct (Setup.read_as _ _ "qpsol_options" _ opts) eqn:?; cbn [mbind option_bind];
      [|read_fails "qpsol_options"].
    destruct (Setup.read_as _ _ "regularize" _ opts) eqn:?; cbn [mbind option_bind];
      [|read_fails "regularize"].
    destruct (Setup.read_as _ _ "print_header" _ opts) eqn:?; cbn [mbind option_bind];
      [|read_fails "print_header"].
    destruct (Setup.read_as _ _ "print_iteration" _ opts) eqn:?; cbn [mbind option_bind];
      [|read_fails "print_iteration"].
    destruct (Setup.read_as _ _ "print_status" _ opts) eqn:?; cbn [mbind option_bind];
      [|read_fails "print_status"].
    done.
  - intros (key & ty & v & Hin & Hl & Hc).
    unfold Setup.options_ in Hin.
    repeat (apply elem_of_cons in Hin as [[= -> ->]|Hin]; [conv_fails opts Hl Hc|]).
    by apply elem_of_nil in Hin.
Qed.

(** The errors of the options.  Once the base class is initialised,
    [init] throws for a badly typed option exactly when the dictionary
    holds, under one of the keys of [options_], a value that does not
    convert to the type the table declares for that key; and it throws
    "'qpsol' option has not been set" exactly when all such values convert
    and the value under "qpsol" is the empty string, so never when the key
    is absent. *)
Theorem init_option_errors (this : Members) (opts : Dict) (base : Nlpsol) :
  Nlpsol_init opts = inr base ->
  (init this opts = inl Setup.Bad_option_type <->
   exists key ty v, (key, ty) ∈ Setup.options_ /\ opts !! key = Some v /\
                    converts ty v = false) /\
  (init this opts = inl Setup.Qpsol_not_set <->
   (forall key ty v, (key, ty) ∈ Setup.options_ -> opts !! key = Some v ->
                     converts ty v = true) /\
   exists v, opts !! "qpsol" = Some v /\ to_string v = Some "").
Proof.
  intros Hb.
  destruct (read_by_key opts (with_defaults this, default_locals))
    as [[this1 loc]|] eqn:Hr.
  - rewrite (init_after_options this opts base this1 loc Hb Hr). cbn zeta.
    assert (Hall : forall key ty v, (key, ty) ∈ Setup.options_ ->
                     opts !! key = Some v -> converts ty v = true).
    { intros key ty v Hin Hl. destruct (converts ty v) eqn:Hc; [done|].
      assert (Hn : exists key ty v, (key, ty) ∈ Setup.options_ /\
                     opts !! key = Some v /\ converts ty v = false)
        by (by exists key, ty, v).
      by rewrite (proj2 (read_by_key_None opts _) Hn) in Hr. }
    apply read_by_key_Some in Hr as Hk.
    destruct Hk as (_ & _ & _ & _ & _ & _ & _ & _ & _ & _ & _ & Hp & _).
    cbn in Hp. split.
    + split.
      * destruct (String.eqb _ ""); [done|].
        by match goal with |- context [conic ?a ?b ?c ?d ?e] =>
             destruct (conic a b c d e) end.
      * intros (key & ty & v & Hin & Hl & Hc).
        by rewrite (Hall key ty v Hin Hl) in Hc.
    + destruct (String.eqb_spec (Setup.qpsol_plugin _ loc) "") as [He|Hne].
      * split; [|done]. intros _. split; [done|].
        unfold Setup.read_as in Hp. rewrite He in Hp.
        destruct (opts !! "qpsol") as [v|]; [by exists v|done].
      * split.
        -- by match goal with |- context [conic ?a ?b ?c ?d ?e] =>
                destruct (conic a b c d e) end.
        -- intros (_ & v & Hl & Hs). unfold Setup.read_as in Hp.
           rewrite Hl, Hs in Hp. congruence.
  - unfold Setup.init. rewrite Hb, read_options_by_key, Hr. split.
    + split; [intros _|done]. by apply read_by_key_None in Hr.
    + split; [done|]. intros [Hall _].
      apply read_by_key_None in Hr as (key & ty & v & Hin & Hl & Hc).
      by rewrite (Hall key ty v Hin Hl) in Hc.
Qed.

(** The generated code depends on what [init] made.  For an object that
    [init] built, with its oracle functions entered in the table, and with
    "nlp_grad" in the table whenever one of the four calc flags of the
    base class is set, [codegen_declarations] finds every function it
    asks for, and the dependencies it adds are, in order, the functions
    [init] created, "nlp_grad" if a calc flag is set, and the QP solver. *)
Theorem codegen_declarations_after_init (this : Members) (opts : Dict)
    (base : Nlpsol) (o : Members) (fs : list (string * Function))
    (functions : gmap string Function) :
  init this opts = inr (base, o, fs) ->
  (forall n f, (n, f) ∈ fs -> functions !! n = Some f) ->
  (calc_f_ base || calc_g_ base || calc_lam_x_ base || calc_lam_p_ base = true ->
   is_Some (functions !! "nlp_grad")) ->
  exists grad,
    codegen_declarations functions base o
    = Some (fs.*2 ++ grad ++ [Setup.qpsol_ _ _ o]) /\
    if calc_f_ base || calc_g_ base || calc_lam_x_ base || calc_lam_p_ base
    then exists f, functions !! "nlp_grad" = Some f /\ grad = [f]
    else grad = [].
Proof.
  intros H Hfs Hgrad.
  apply init_inr in H as (this1 & loc & q & _ & _ & _ & _ & -> & ->).
  unfold Setup.codegen_declarations. members_cbn.
  assert (Hjac : functions !! "nlp_jac_fg"
                 = Some (create_function "nlp_jac_fg" ["x"; "p"]
                           ["f"; "grad:f:x"; "g"; "jac:g:x"] [])).
  { apply Hfs, elem_of_app. right. apply list_elem_of_here. }
  destruct (negb (Setup.max_iter_ls_ _ _ this1 =? 0)) eqn:Hls;
    destruct (String.eqb (Setup.hessian_approximation _ loc) "exact") eqn:Hex;
    destruct (calc_f_ base || calc_g_ base || calc_lam_x_ base
              || calc_lam_p_ base) eqn:Hc;
    try (destruct (Hgrad eq_refl) as [fg Hfg]; rewrite Hfg);
    rewrite ?(Hfs "nlp_fg" _ ltac:(by left)), Hjac,
      ?(Hfs "nlp_hess_l" _
          ltac:(apply elem_of_app; right;
                apply list_elem_of_further, list_elem_of_here));
    cbn [mbind option_bind fmap list_fmap app snd];
    first [by exists [fg]; split; [|by exists fg] | by exists []].
Qed.

(** Serialising and reading back.  If the base class reads back what it
    wrote, then reading [serialize_body] back, whatever follows it in the
    stream and whatever the receiving object held, gives the base-class
    state, every member as it was with the problem structure [p_] rebuilt
    from them, and the rest of the stream; an object that [init] built is
    read back exactly; and [solve] is configured alike before and after. *)
Theorem serialize_round_trip (base : Nlpsol) (o this : Members)
    (rest : list (string * Setup.Packed Function Sparsity)) :
  (forall s, Nlpsol_deserialize (Nlpsol_serialize_body base ++ s)
             = Some (base, s)) ->
  deserialize this (serialize_body base o ++ rest)
  = Some (base, Setup.set_sqpmethod_prob _ _ o, rest) /\
  (forall this0 opts fs, init this0 opts = inr (base, o, fs) ->
                         Setup.set_sqpmethod_prob _ _ o = o) /\
  (forall nx ng, solver_of nx ng (Setup.set_sqpmethod_prob _ _ o)
                 = solver_of nx ng o).
Proof.
  intros Hb. split; [|split].
  - unfold Setup.deserialize, Setup.serialize_body.
    rewrite <- app_assoc, Hb. by destruct o.
  - intros this0 opts fs H.
    by apply init_inr in H as (this1 & loc & q & _ & _ & _ & _ & -> & _).
  - done.
Qed.

(** The statistics after a call.  [get_stats] overwrites the two entries
    "return_status" and "iter_count" of the base-class statistics and
    leaves the others.  After [solve] the iteration count shown lies
    between 0 and max(0, max_iter), whereas a memory fresh from [set_work]
    shows -1; the status shown is one of the four terminal statuses when
    [solve] returned 0, and when it returned non-zero it is the status the
    memory held before the call. *)
Theorem get_stats_after_solve (self : Sqpmethod)
    (nlp_jac_fg : vec -> vec -> option (double * vec * vec * mat))
    (nlp_hess_l : vec -> vec -> double -> vec -> option mat)
    (nlp_fg : vec -> vec -> option (double * vec))
    (qpsol : ConicIn -> Z * ConicOut) (callback : SqpmethodMemory -> bool)
    (ls_fuel fuel : nat) (m mfin : SqpmethodMemory) (code : Z) (stats : Dict) :
  Sqp.solve self nlp_jac_fg nlp_hess_l nlp_fg qpsol callback ls_fuel fuel
    (Setup.set_work m) = Some (code, mfin) ->
  get_stats stats (Setup.set_work m) !! "iter_count"
  = Some (GenericType_int (-1)) /\
  get_stats stats mfin !! "iter_count"
  = Some (GenericType_int (iter_count mfin)) /\
  0 <= iter_count mfin <= Z.max 0 (max_iter_ self) /\
  get_stats stats mfin !! "return_status"
  = Some (GenericType_string (return_status mfin)) /\
  (code = 0 ->
   return_status mfin = "User_Requested_Stop" \/
   return_status mfin = "Solve_Succeeded" \/
   return_status mfin = "Maximum_Iterations_Exceeded" \/
   return_status mfin = "Search_Direction_Becomes_Too_Small") /\
  (code <> 0 -> return_status mfin = return_status m) /\
  (forall key, key <> "iter_count" -> key <> "return_status" ->
               get_stats stats mfin !! key = stats !! key).
Proof.
  intros H. apply solve_run in H as (Hi & Hne & H0).
  unfold Setup.get_stats. cbn zeta.
  split; [by rewrite lookup_insert_eq|].
  split; [by rewrite lookup_insert_eq|].
  split; [done|].
  split; [by rewrite lookup_insert_ne, lookup_insert_eq|].
  split; [done|]. split; [done|].
  intros key H1 H2. by rewrite !lookup_insert_ne.
Qed.

(** [solve] calls only oracle functions that [init] created.  For the
    configuration of an object that [init] built, "nlp_jac_fg" is among
    the functions created; if "nlp_fg" is not, then [solve] does not
    depend on [nlp_fg]; and if "nlp_hess_l" is not, then [solve] does not
    depend on [nlp_hess_l]. *)
Theorem solve_calls_only_created_functions (this : Members) (opts : Dict)
    (base : Nlpsol) (o : Members) (fs : list (string * Function))
    (nx ng : nat)
    (nlp_jac_fg : vec -> vec -> option (double * vec * vec * mat))
    (nlp_hess_l : vec -> vec -> double -> vec -> option mat)
    (nlp_fg : vec -> vec -> option (double * vec))
    (qpsol : ConicIn -> Z * ConicOut) (callback : SqpmethodMemory -> bool)
    (ls_fuel fuel : nat) (m : SqpmethodMemory) :
  init this opts = inr (base, o, fs) ->
  "nlp_jac_fg" ∈ fs.*1 /\
  ("nlp_fg" ∉ fs.*1 ->
   forall nlp_fg' : vec -> vec -> option (double * vec),
     Sqp.solve (solver_of nx ng o) nlp_jac_fg nlp_hess_l nlp_fg' qpsol callback
       ls_fuel fuel m
     = Sqp.solve (solver_of nx ng o) nlp_jac_fg nlp_hess_l nlp_fg qpsol callback
         ls_fuel fuel m) /\
  ("nlp_hess_l" ∉ fs.*1 ->
   forall nlp_hess_l' : vec -> vec -> double -> vec -> option mat,
     Sqp.solve (solver_of nx ng o) nlp_jac_fg nlp_hess_l' nlp_fg qpsol callback
       ls_fuel fuel m
     = Sqp.solve (solver_of nx ng o) nlp_jac_fg nlp_hess_l nlp_fg qpsol callback
         ls_fuel fuel m).
Proof.
  intros H.
  apply init_inr in H as (this1 & loc & q & _ & _ & _ & _ & -> & ->).
  rewrite !fmap_app. cbn [fmap list_fmap fst]. split; [|split].
  - apply elem_of_app. right. apply list_elem_of_here.
  - intros Hno nlp_fg'. unfold Sqp.solve.
    rewrite (main_loop_ls_disabled _ nlp_jac_fg nlp_hess_l nlp_fg qpsol
               callback nlp_fg' ls_fuel ls_fuel); [done|].
    cbn [solver_of max_iter_ls_]. members_cbn.
    destruct (Setup.max_iter_ls_ _ _ this1 =? 0) eqn:Hz; [lia|].
    exfalso. apply Hno. cbn. by left.
  - intros Hno nlp_hess_l'. unfold Sqp.solve.
    rewrite (main_loop_limited _ nlp_jac_fg nlp_hess_l nlp_fg qpsol
               callback nlp_hess_l' ls_fuel); [done|].
    cbn [solver_of exact_hessian_]. members_cbn.
    destruct (String.eqb (Setup.hessian_approximation _ loc) "exact");
      [|done].
    exfalso. apply Hno. rewrite !elem_of_app. right. right. cbn. by left.
Qed.

End SetupFacts.


(** *** Instances for the set-up *)

Section SetupInstances.

Import SetupExample.

Local Abbreviation Members := (Setup.Members string Sparsity).

Lemma init_reads_options_witness :
  exists (o : Members) fs,
    init blank bfgs_nols = inr (1, o, fs) /\
    Setup.read_as GenericType to_int "max_iter" 50 bfgs_nols
    = Some (Setup.max_iter_ _ _ o) /\
    Setup.max_iter_ _ _ o = 7 /\
    Setup.read_as GenericType to_double "c1" (lit 1 10000) bfgs_nols
    = Some (Setup.c1_ _ _ o) /\
    Setup.c1_ _ _ o = lit 1 10000.
Proof.
  eassert (H : init blank bfgs_nols = inr (1, _, _))
    by (vm_compute; reflexivity).
  eexists _, _. split; [exact H|].
  unfold init in H.
  apply init_reads_options in H as (Hmax & _ & _ & Hc1 & _).
  split; [exact Hmax|]. split; [reflexivity|]. split; [exact Hc1|].
  vm_compute; reflexivity.
Defined.

Lemma init_option_errors_witness :
  Nlpsol_init bad_max_iter = inr 1 /\
  init blank bad_max_iter = inl Setup.Bad_option_type.
Proof.
  assert (Hb : Nlpsol_init bad_max_iter = inr 1) by reflexivity.
  split; [exact Hb|].
  apply (proj2 (proj1 (init_option_errors string Sparsity GenericType Z
                         to_int to_double to_bool to_string to_dict
                         Nlpsol_init nx_ create_function sparsity_out
                         Sparsity_dense conic blank bad_max_iter 1 Hb))).
  exists "max_iter", Setup.OT_INT, (G_string "7").
  split; [|split; reflexivity].
  unfold Setup.options_.
  repeat (first [apply list_elem_of_here | apply list_elem_of_further]).
Defined.

Lemma codegen_declarations_after_init_witness :
  exists (o : Members) fs,
    init blank bfgs_nols = inr (1, o, fs) /\
    Setup.codegen_declarations string Sparsity Z calc calc calc calc
      (<["nlp_jac_fg" := "nlp_jac_fg"]> ∅) 1 o
    = Some ["nlp_jac_fg"; "qpoases"].
Proof.
  eassert (H : init blank bfgs_nols = inr (1, _, _))
    by (vm_compute; reflexivity).
  eexists _, _. split; [exact H|].
  unfold init in H.
  eapply (codegen_declarations_after_init _ _ _ _ _ _ _ _ _ _ _ _ _ _ _
            calc calc calc calc) in H as (grad & Hc & Hg).
  - cbn in Hg. rewrite Hg in Hc. exact Hc.
  - intros n f Hin. apply list_elem_of_singleton in Hin as [= -> ->].
    reflexivity.
  - intros Hf. discriminate Hf.
Defined.

Lemma serialize_round_trip_witness :
  (forall s, Nlpsol_deserialize (Nlpsol_serialize_body 1 ++ s) = Some (1, s)) /\
  Setup.deserialize string Sparsity Z Nlpsol_deserialize blank
    (Setup.serialize_body string Sparsity Z Nlpsol_serialize_body 1
       (Setup.set_max_iter_ _ _ 7 blank) ++ [])
  = Some (1, Setup.set_sqpmethod_prob _ _ (Setup.set_max_iter_ _ _ 7 blank), []).
Proof.
  assert (Hb : forall s, Nlpsol_deserialize (Nlpsol_serialize_body 1 ++ s)
                         = Some (1, s)) by (intros s; reflexivity).
  split; [exact Hb|].
  exact (proj1 (serialize_round_trip string Sparsity GenericType Z
                  to_int to_double to_bool to_string to_dict
                  Nlpsol_init nx_ create_function sparsity_out
                  Sparsity_dense conic Nlpsol_serialize_body
                  Nlpsol_deserialize 1 (Setup.set_max_iter_ _ _ 7 blank)
                  blank [] Hb)).
Defined.

Lemma get_stats_after_solve_witness :
  exists mfin,
    Sqp.solve Example2.limit_opts Example.sq_jac_fg Example.sq_hess_l
      Example.sq_fg (Example.qp1 0) Example.no_stop 3 5
      (Setup.set_work Example.mem0) = Some (0, mfin) /\
    Setup.get_stats GenericType G_string G_int ∅ mfin !! "iter_count"
    = Some (G_int (iter_count mfin)) /\
    0 <= iter_count mfin <= Z.max 0 (max_iter_ Example2.limit_opts) /\
    return_status mfin = "Maximum_Iterations_Exceeded".
Proof.
  eassert (H : Sqp.solve Example2.limit_opts Example.sq_jac_fg
                 Example.sq_hess_l Example.sq_fg (Example.qp1 0)
                 Example.no_stop 3 5 (Setup.set_work Example.mem0)
               = Some (0, _)) by (vm_compute; reflexivity).
  eexists. split; [exact H|].
  destruct (get_stats_after_solve GenericType G_string G_int _ _ _ _ _ _ _ _
              _ _ _ ∅ H) as (_ & Hic & Hb & _).
  split; [exact Hic|]. split; [exact Hb|]. reflexivity.
Defined.

Lemma solve_calls_only_created_functions_witness :
  exists (o : Members) fs,
    init blank bfgs_nols = inr (1, o, fs) /\
    ("nlp_fg" ∉ fs.*1) /\
    Sqp.solve (solver_of 1 0 o) Example.sq_jac_fg Example.sq_hess_l
      Example.sq_fg_fail_at_m1 (Example.qp1 0) Example.no_stop 3 5 Example.mem0
    = Sqp.solve (solver_of 1 0 o) Example.sq_jac_fg Example.sq_hess_l
        Example.sq_fg (Example.qp1 0) Example.no_stop 3 5 Example.mem0.
Proof.
  eassert (H : init blank bfgs_nols = inr (1, _, _))
    by (vm_compute; reflexivity).
  eexists _, _. split; [exact H|].
  assert (Hno : "nlp_fg" ∉ ["nlp_jac_fg"]).
  { intros Hin. apply list_elem_of_singleton in Hin. discriminate Hin. }
  split; [exact Hno|].
  unfold init in H.
  eapply solve_calls_only_created_functions in H as (_ & Hfg & _).
  exact (Hfg Hno Example.sq_fg_fail_at_m1).
Defined.

End SetupInstances.
